(** * TicTacToe game engine: a shallow embedding of
      [backend/src/services/gameEngine.js] and the properties of its
      rules, its search and its turn state machine. *)

From Stdlib Require Import ZArith QArith Qround Qabs Qpower Lqa Ascii SpecFloat.
From stdpp Require Import base decidable option list strings gmap.

Open Scope Z_scope.

(** ** Constants and the data model *)

(** [PLAYERS = { USER: 'user', AI: 'ai' }]. *)
Inductive Player := USER | AI.

(** [CELL_VALUES = { EMPTY: null, USER: 'X', AI: 'O' }]. *)
Inductive Cell := CELL_EMPTY | CELL_USER | CELL_AI.

(** [GAME_RESULTS]. *)
Inductive GameResult := IN_PROGRESS | USER_WIN | AI_WIN | DRAW.

#[global] Instance Player_eq_dec : EqDecision Player.
Proof. solve_decision. Defined.
#[global] Instance Cell_eq_dec : EqDecision Cell.
Proof. solve_decision. Defined.
#[global] Instance GameResult_eq_dec : EqDecision GameResult.
Proof. solve_decision. Defined.

(** [DIFFICULTIES]; a difficulty is a JS string, and [getAIMove] has a
    [default] branch for any other string. *)
Definition DIFFICULTIES_EASY : string := "easy".
Definition DIFFICULTIES_MEDIUM : string := "medium".
Definition DIFFICULTIES_HARD : string := "hard".

(** A board is a JS array of cells, read by index; [board !! i = None]
    stands for the [undefined] that an index past the end yields. *)
Abbreviation Board := (list Cell).

(** A winning combination is a three-element array of indices. *)
Abbreviation Line := (nat * nat * nat)%type.

(** The exceptions of the engine.  The source throws [Error] with a
    message; each constructor stands for one message:
    - [InvalidMoveError p]: "Invalid move: position p is not available",
      with [None] for a position that is [undefined]
    - [GameAlreadyEndedError]: "Game has already ended"
    - [WrongTurnError USER]: "Not user's turn", [WrongTurnError AI]: "Not AI's turn"
    - [NoAvailableMovesError]: "No available moves for AI"
    - [UnknownDifficultyError d]: "Unknown difficulty level: d"
    - [TypeError]: the runtime's error on reading a property of
      [undefined] (only the store-level functions can meet it). *)
Inductive EngineError :=
| InvalidMoveError (position : option Z)
| GameAlreadyEndedError
| WrongTurnError (expected : Player)
| NoAvailableMovesError
| UnknownDifficultyError (difficulty : string)
| TypeError.

(** A call either returns a value or throws. *)
Inductive Outcome (A : Type) :=
| Returns (a : A)
| Throws (e : EngineError).
Arguments Returns {A} a.
Arguments Throws {A} e.

Definition bindOutcome {A B} (m : Outcome A) (k : A -> Outcome B) : Outcome B :=
  match m with
  | Returns a => k a
  | Throws e => Throws e
  end.

Notation "'let*' x ':=' m 'in' k" := (bindOutcome m (fun x => k))
  (at level 10, x name, m at level 100, k at level 200).

Record WinnerInfo := { winner : Player; winningLine : Line }.

(** The game-state object.  [B] is what the [board] property holds: the
    cells themselves in the value-level functions, a reference to the
    array in the store-level ones. *)
Record GameStateOf (B : Type) := {
  board : B;
  currentPlayer : Player;
  moves : Z;
  difficulty : string;
  result : GameResult;
  gsWinner : option Player;
  gsWinningLine : option Line;
  lastAIMove : option nat
}.
Arguments board {B} _.
Arguments currentPlayer {B} _.
Arguments moves {B} _.
Arguments difficulty {B} _.
Arguments result {B} _.
Arguments gsWinner {B} _.
Arguments gsWinningLine {B} _.
Arguments lastAIMove {B} _.

Abbreviation GameState := (GameStateOf Board).

(** ** Core game functions *)

Definition createInitialGameState (difficulty : string) : GameState :=
  {| board := replicate 9 CELL_EMPTY;
     currentPlayer := USER;
     moves := 0;
     difficulty := difficulty;
     result := IN_PROGRESS;
     gsWinner := None;
     gsWinningLine := None;
     lastAIMove := None |}.

(** [board[position] === CELL_VALUES.EMPTY]. *)
Definition isEmptyAt (board : Board) (i : nat) : bool :=
  match board !! i with
  | Some CELL_EMPTY => true
  | _ => false
  end.

Definition isValidMove (board : Board) (position : Z) : bool :=
  (0 <=? position) && (position <=? 8) && isEmptyAt board (Z.to_nat position).

Definition markOf (player : Player) : Cell :=
  match player with
  | USER => CELL_USER
  | AI => CELL_AI
  end.

Definition makeMove (board : Board) (position : Z) (player : Player) : Outcome Board :=
  if negb (isValidMove board position)
  then Throws (InvalidMoveError (Some position))
  else Returns (<[Z.to_nat position := markOf player]> board).

Definition winningCombinations : list Line :=
  [ (0, 1, 2); (3, 4, 5); (6, 7, 8);
    (0, 3, 6); (1, 4, 7); (2, 5, 8);
    (0, 4, 8); (2, 4, 6) ]%nat.

(** JS truthiness of [board[a]]: a mark, neither [null] nor [undefined]. *)
Definition truthy (c : option Cell) : bool :=
  match c with
  | Some CELL_USER | Some CELL_AI => true
  | _ => false
  end.

(** [===] on what [board[i]] can evaluate to. *)
Definition strictEq (x y : option Cell) : bool :=
  match x, y with
  | None, None => true
  | Some CELL_EMPTY, Some CELL_EMPTY => true
  | Some CELL_USER, Some CELL_USER => true
  | Some CELL_AI, Some CELL_AI => true
  | _, _ => false
  end.

(** The condition of the [if] inside the loop of [checkWinner]. *)
Definition lineMatches (board : Board) (combination : Line) : bool :=
  let '(a, b, c) := combination in
  truthy (board !! a) && strictEq (board !! a) (board !! b)
  && strictEq (board !! a) (board !! c).

Definition lineWinner (board : Board) (combination : Line) : Player :=
  let '(a, _, _) := combination in
  if strictEq (board !! a) (Some CELL_USER) then USER else AI.

(** The [for ... of] loop of [checkWinner] over the combinations left. *)
Fixpoint scanCombinations (board : Board) (combinations : list Line) : option WinnerInfo :=
  match combinations with
  | [] => None
  | combination :: rest =>
      if lineMatches board combination
      then Some {| winner := lineWinner board combination; winningLine := combination |}
      else scanCombinations board rest
  end.

Definition checkWinner (board : Board) : option WinnerInfo :=
  scanCombinations board winningCombinations.

Definition isDraw (board : Board) : bool :=
  forallb (fun cell => negb (bool_decide (cell = CELL_EMPTY))) board
  && negb (bool_decide (is_Some (checkWinner board))).

Definition getGameResult (board : Board) : GameResult :=
  match checkWinner board with
  | Some w => match winner w with USER => USER_WIN | AI => AI_WIN end
  | None => if isDraw board then DRAW else IN_PROGRESS
  end.

(** The loop of [getAvailableMoves], from index [i] over the cells left. *)
Fixpoint availableFrom (i : nat) (cells : list Cell) : list nat :=
  match cells with
  | [] => []
  | cell :: rest =>
      if bool_decide (cell = CELL_EMPTY)
      then i :: availableFrom (S i) rest
      else availableFrom (S i) rest
  end.

Definition getAvailableMoves (board : Board) : list nat := availableFrom 0 board.

(** ** The search engine *)

(** Scores are JS numbers: integers, or the infinities that seed the
    running best and the initial window. *)
Inductive Num := NegInfinity | Fin (z : Z) | PosInfinity.

Definition num_ltb (x y : Num) : bool :=
  match x, y with
  | NegInfinity, NegInfinity => false
  | NegInfinity, _ => true
  | Fin _, NegInfinity => false
  | Fin a, Fin b => a <? b
  | Fin _, PosInfinity => true
  | PosInfinity, _ => false
  end.

Definition num_leb (x y : Num) : bool := negb (num_ltb y x).
Definition num_max (x y : Num) : Num := if num_ltb x y then y else x.
Definition num_min (x y : Num) : Num := if num_ltb y x then y else x.

(** What [minimax] returns: [{ score }] at a terminal position (no
    [position] property), [{ position, score }] otherwise. *)
Record Move := { position : option nat; score : Num }.

Section SearchLoop.
(** [minimax] at [depth - 1]. *)
Variable recurse : Board -> bool -> Num -> Num -> Outcome Move.
Variable board : Board.
Variable isMaximizing : bool.

(** The [for (const move of availableMoves)] loop of [minimax], with the
    loop-carried [bestMove], [alpha] and [beta]. *)
Fixpoint searchMoves (availableMoves : list nat) (bestMove : Move)
    (alpha beta : Num) : Outcome Move :=
  match availableMoves with
  | [] => Returns bestMove
  | move :: rest =>
      let* newBoard := makeMove board (Z.of_nat move) (if isMaximizing then AI else USER) in
      let* result := recurse newBoard (negb isMaximizing) alpha beta in
      let bestMove' :=
        if isMaximizing
        then if num_ltb (score bestMove) (score result)
             then {| position := Some move; score := score result |} else bestMove
        else if num_ltb (score result) (score bestMove)
             then {| position := Some move; score := score result |} else bestMove in
      let alpha' := if isMaximizing then num_max alpha (score result) else alpha in
      let beta' := if isMaximizing then beta else num_min beta (score result) in
      if num_leb beta' alpha' then Returns bestMove'
      else searchMoves rest bestMove' alpha' beta'
  end.
End SearchLoop.

(** [depth] is the number of plies left; the callers pass 9 and 3 and
    every recursive call passes [depth - 1] after the test [depth === 0]. *)
Fixpoint minimax (board : Board) (depth : nat) (isMaximizing : bool)
    (alpha beta : Num) {struct depth} : Outcome Move :=
  match checkWinner board with
  | Some w =>
      match winner w with
      | AI => Returns {| position := None; score := Fin (10 - (9 - Z.of_nat depth)) |}
      | USER => Returns {| position := None; score := Fin (-10 + (9 - Z.of_nat depth)) |}
      end
  | None =>
      if isDraw board then Returns {| position := None; score := Fin 0 |}
      else
        match depth with
        | O => Returns {| position := None; score := Fin 0 |}
        | S depth' =>
            let availableMoves := getAvailableMoves board in
            searchMoves (fun b m a be => minimax b depth' m a be) board isMaximizing
              availableMoves
              {| position := head availableMoves;
                 score := if isMaximizing then NegInfinity else PosInfinity |}
              alpha beta
        end
  end.

Definition getHardAIMove (board : Board) : Outcome (option nat) :=
  let availableMoves := getAvailableMoves board in
  if bool_decide (length availableMoves = 0%nat) then Throws NoAvailableMovesError
  else
    let* bestMove := minimax board 9 false NegInfinity PosInfinity in
    Returns (position bestMove).


(** ** Double-precision numbers *)

(** The numbers of the engine are IEEE-754 binary64 values.  Every finite
    one is a rational [k * 2^e] with [|k| < 2^53] and [e >= -1074], and an
    arithmetic operation yields the double nearest to the exact result,
    ties going to the even significand. *)
Definition pow2 (e : Z) : Q := (2 ^ e)%Q.

(** [floor (log2 x)] for a positive [x]: the difference of the bit lengths
    of numerator and denominator, or one less. *)
Definition Qlog2 (x : Q) : Z :=
  let d := Z.log2 (Qnum x) - Z.log2 (Z.pos (Qden x)) in
  if Qle_bool (pow2 d) x then d else d - 1.

(** The exponent of the unit in the last place at [x]: 53 significant
    bits, and no exponent below that of the subnormal numbers. *)
Definition ulpExponent (x : Q) : Z := Z.max (Qlog2 (Qabs x) - 52) (-1074).

(** The nearest integer, ties to even. *)
Definition roundHalfEven (x : Q) : Z :=
  let f := Qfloor x in
  match (x - inject_Z f ?= 1 # 2)%Q with
  | Lt => f
  | Eq => if Z.even f then f else f + 1
  | Gt => f + 1
  end.

(** The double nearest to [x], for [x] of magnitude below [2^1024] (a
    greater one rounds to an infinity; the products taken here are below
    the length of an array).  The properties part proves that on the
    values of binary64 numbers this is the multiplication of the standard
    library's specification of floating-point arithmetic. *)
Definition roundDouble (x : Q) : Q :=
  if Qeq_bool x 0 then 0%Q
  else
    let ulp := pow2 (ulpExponent x) in
    (inject_Z (roundHalfEven (x / ulp)) * ulp)%Q.

(** [x] is the value of a double. *)
Definition isDouble (x : Q) : bool := Qeq_bool (roundDouble x) x.

(** ** The random source *)

(** [Math.random()] yields a double in [0, 1); every double is a rational.
    A random source gives the successive values of the calls made during
    one AI move. *)
Definition RandomSource := nat -> Q.

Definition validRandom (random : RandomSource) : Prop :=
  forall n, isDouble (random n) = true /\ (0 <= random n)%Q /\ (random n < 1)%Q.

(** The doubles nearest to the literals [0.2] and [0.15]. *)
Definition double_0_2 : Q := 3602879701896397 # 18014398509481984.
Definition double_0_15 : Q := 5404319552844595 # 36028797018963968.

(** [r < t] on numbers. *)
Definition Qltb (r t : Q) : bool := negb (Qle_bool t r).

(** [Math.floor(r * n)]: the floor of the double product, which is the
    exact product rounded to the nearest double. *)
Definition randomIndex (r : Q) (n : nat) : nat :=
  Z.to_nat (Qfloor (roundDouble (r * inject_Z (Z.of_nat n)))).

(** ** AI strategies *)

(** The blocking loop of [getEasyAIMove]; [None] when it runs to its end
    without returning. *)
Fixpoint findBlockingMove (board : Board) (availableMoves : list nat) : Outcome (option nat) :=
  match availableMoves with
  | [] => Returns None
  | move :: rest =>
      let* testBoard := makeMove board (Z.of_nat move) USER in
      match checkWinner testBoard with
      | Some {| winner := USER |} => Returns (Some move)
      | _ => findBlockingMove board rest
      end
  end.

(** The AI functions return [availableMoves[i]] or [bestMove.position]:
    a number, or [undefined] ([None]). *)
Definition getEasyAIMove (random : RandomSource) (board : Board) : Outcome (option nat) :=
  let availableMoves := getAvailableMoves board in
  if bool_decide (length availableMoves = 0%nat) then Throws NoAvailableMovesError
  else
    let* blocking :=
      if Qltb (random 0%nat) double_0_2
      then findBlockingMove board availableMoves
      else Returns None in
    match blocking with
    | Some move => Returns (Some move)
    | None =>
        let randomIndex := randomIndex (random 1%nat) (length availableMoves) in
        Returns (availableMoves !! randomIndex)
    end.

Definition getMediumAIMove (random : RandomSource) (board : Board) : Outcome (option nat) :=
  let availableMoves := getAvailableMoves board in
  if bool_decide (length availableMoves = 0%nat) then Throws NoAvailableMovesError
  else if Qltb (random 0%nat) double_0_15
  then
    let randomIndex := randomIndex (random 1%nat) (length availableMoves) in
    Returns (availableMoves !! randomIndex)
  else
    let* bestMove := minimax board 3 false NegInfinity PosInfinity in
    Returns (position bestMove).

Definition getAIMove (random : RandomSource) (board : Board) (difficulty : string)
    : Outcome (option nat) :=
  if String.eqb difficulty DIFFICULTIES_EASY then getEasyAIMove random board
  else if String.eqb difficulty DIFFICULTIES_MEDIUM then getMediumAIMove random board
  else if String.eqb difficulty DIFFICULTIES_HARD then getHardAIMove board
  else Throws (UnknownDifficultyError difficulty).

(** ** Game flow *)

Definition processUserMove (gameState : GameState) (position : Z) : Outcome GameState :=
  if negb (bool_decide (result gameState = IN_PROGRESS)) then Throws GameAlreadyEndedError
  else if negb (bool_decide (currentPlayer gameState = USER)) then Throws (WrongTurnError USER)
  else if negb (isValidMove (board gameState) position)
  then Throws (InvalidMoveError (Some position))
  else
    let* newBoard := makeMove (board gameState) position USER in
    let moves := moves gameState + 1 in
    let winnerInfo := checkWinner newBoard in
    let result :=
      match winnerInfo with
      | Some _ => USER_WIN
      | None => if isDraw newBoard then DRAW else IN_PROGRESS
      end in
    let winningLine := winningLine <$> winnerInfo in
    Returns {| board := newBoard;
               currentPlayer := if bool_decide (result = IN_PROGRESS) then AI else USER;
               moves := moves;
               difficulty := difficulty gameState;
               result := result;
               gsWinner := winner <$> winnerInfo;
               gsWinningLine := winningLine;
               lastAIMove := lastAIMove gameState |}.

(** [makeMove(board, aiPosition, AI)] where [aiPosition] may be [undefined]:
    [undefined >= 0] is false, so [isValidMove] fails and [makeMove] throws. *)
Definition makeMoveAt (board : Board) (position : option nat) (player : Player) : Outcome Board :=
  match position with
  | Some p => makeMove board (Z.of_nat p) player
  | None => Throws (InvalidMoveError None)
  end.

Definition processAIMove (random : RandomSource) (gameState : GameState) : Outcome GameState :=
  if negb (bool_decide (result gameState = IN_PROGRESS)) then Throws GameAlreadyEndedError
  else if negb (bool_decide (currentPlayer gameState = AI)) then Throws (WrongTurnError AI)
  else
    let* aiPosition := getAIMove random (board gameState) (difficulty gameState) in
    let* newBoard := makeMoveAt (board gameState) aiPosition AI in
    let moves := moves gameState + 1 in
    let winnerInfo := checkWinner newBoard in
    let result :=
      match winnerInfo with
      | Some _ => AI_WIN
      | None => if isDraw newBoard then DRAW else IN_PROGRESS
      end in
    let winningLine := winningLine <$> winnerInfo in
    Returns {| board := newBoard;
               currentPlayer := if bool_decide (result = IN_PROGRESS) then USER else AI;
               moves := moves;
               difficulty := difficulty gameState;
               result := result;
               gsWinner := winner <$> winnerInfo;
               gsWinningLine := winningLine;
               lastAIMove := aiPosition |}.

Definition completeTurn (random : RandomSource) (gameState : GameState) (userPosition : Z)
    : Outcome GameState :=
  let* updatedState := processUserMove gameState userPosition in
  if bool_decide (result updatedState = IN_PROGRESS)
  then processAIMove random updatedState
  else Returns updatedState.


(** ** Reference definitions for the search *)

(** The board [makeMove] returns when it does not throw. *)
Definition place (board : Board) (move : nat) (player : Player) : Board :=
  <[move := markOf player]> board.

(** The score of [minimax] at a position that ends the search. *)
Definition terminalScore (board : Board) (depth : nat) : option Z :=
  match checkWinner board with
  | Some w =>
      match winner w with
      | AI => Some (10 - (9 - Z.of_nat depth))
      | USER => Some (-10 + (9 - Z.of_nat depth))
      end
  | None =>
      if isDraw board then Some 0
      else match depth with O => Some 0 | S _ => None end
  end.

(** Folding the children's scores: by maximum on the AI's ply, by minimum
    on the user's ply. *)
Definition foldScores (isMaximizing : bool) (scores : list Num) : Num :=
  if isMaximizing then foldr num_max NegInfinity scores
  else foldr num_min PosInfinity scores.

(** The value of a position by minimax without a window: every child is
    searched and the scores are folded. *)
Fixpoint exactScore (board : Board) (depth : nat) (isMaximizing : bool) : Num :=
  match terminalScore board depth with
  | Some z => Fin z
  | None =>
      match depth with
      | O => Fin 0
      | S depth' =>
          foldScores isMaximizing
            (map (fun move =>
                    exactScore (place board move (if isMaximizing then AI else USER))
                      depth' (negb isMaximizing))
               (getAvailableMoves board))
      end
  end.

(** The first candidate, in enumeration order, whose score is the best one
    ([better] is [<] on a minimizing ply and [>] on a maximizing one). *)
Fixpoint firstBest (isMaximizing : bool) (candidates : list (nat * Num)) (best : Move) : Move :=
  match candidates with
  | [] => best
  | (move, s) :: rest =>
      firstBest isMaximizing rest
        (if (if isMaximizing then num_ltb (score best) s else num_ltb s (score best))
         then {| position := Some move; score := s |} else best)
  end.

(** The top-level candidates of a search of [depth] plies with their exact
    scores. *)
Definition candidateScores (board : Board) (depth : nat) (isMaximizing : bool)
    : list (nat * Num) :=
  map (fun move =>
         (move, exactScore (place board move (if isMaximizing then AI else USER))
                  (pred depth) (negb isMaximizing)))
    (getAvailableMoves board).

(** The specification's hard tier: full-depth minimax with the AI
    maximizing at the top ply. *)
Definition specHardAIMove (board : Board) : option nat :=
  position (firstBest true (candidateScores board 9 true)
              {| position := head (getAvailableMoves board); score := NegInfinity |}).

(** ** Game-theoretic outcome *)

Definition opponent (player : Player) : Player :=
  match player with USER => AI | AI => USER end.

(** [userForcesWin n board toMove]: with [toMove] to play and at most [n]
    plies left, the user wins whatever the AI plays. *)
Fixpoint userForcesWin (plies : nat) (board : Board) (toMove : Player) : bool :=
  match checkWinner board with
  | Some w => bool_decide (winner w = USER)
  | None =>
      match plies with
      | O => false
      | S plies' =>
          let next := map (fun move => place board move toMove) (getAvailableMoves board) in
          match toMove with
          | USER => existsb (fun b => userForcesWin plies' b AI) next
          | AI =>
              negb (bool_decide (next = []))
              && forallb (fun b => userForcesWin plies' b USER) next
          end
      end
  end.

(** Positions of a legal game: the user opens on the empty board, the
    players alternate on empty cells, and play stops at a win. *)
Inductive LegalPosition : Board -> Player -> Prop :=
| legal_start : LegalPosition (replicate 9 CELL_EMPTY) USER
| legal_step board toMove move :
    LegalPosition board toMove ->
    checkWinner board = None ->
    board !! move = Some CELL_EMPTY ->
    LegalPosition (place board move toMove) (opponent toMove).


(** The number of non-empty cells of a board. *)
Definition occupiedCells (board : Board) : nat :=
  length (filter (fun cell => cell <> CELL_EMPTY) board).

(** States reachable from an initial state by successful calls. *)
Inductive Reachable : GameState -> Prop :=
| reach_init difficulty : Reachable (createInitialGameState difficulty)
| reach_user gameState position gameState' :
    Reachable gameState ->
    processUserMove gameState position = Returns gameState' ->
    Reachable gameState'
| reach_ai random gameState gameState' :
    Reachable gameState ->
    processAIMove random gameState = Returns gameState' ->
    Reachable gameState'.

(** ** Move history analysis *)

Module MoveHistory.

(** A row of the move list, as the persistence layer supplies it. *)
Record MoveRecord := {
  player : string;
  position : Z;
  move_number : Z;
  timestamp : string
}.

Record MoveSummary := {
  summaryPosition : Z;
  summaryMoveNumber : Z;
  summaryTimestamp : string
}.

Record FlowEntry := {
  flowPlayer : string;
  flowPosition : Z;
  flowMoveNumber : Z
}.

(** The returned object; [None] is a property the object does not have. *)
Record Analysis := {
  totalMoves : Z;
  averageThinkTime : option Z;
  playerMoves : list MoveSummary;
  aiMoves : list MoveSummary;
  gameFlow : option (list FlowEntry)
}.

Definition PLAYERS_USER : string := "user".
Definition PLAYERS_AI : string := "ai".

Definition summarize (move : MoveRecord) : MoveSummary :=
  {| summaryPosition := position move;
     summaryMoveNumber := move_number move;
     summaryTimestamp := timestamp move |}.

Definition flowOf (move : MoveRecord) : FlowEntry :=
  {| flowPlayer := player move;
     flowPosition := position move;
     flowMoveNumber := move_number move |}.

Definition analyzeMoveHistory (moves : list MoveRecord) : Analysis :=
  if bool_decide (length moves = 0%nat)
  then {| totalMoves := 0;
          averageThinkTime := Some 0;
          playerMoves := [];
          aiMoves := [];
          gameFlow := None |}
  else
    let playerMoves := List.filter (fun move => String.eqb (player move) PLAYERS_USER) moves in
    let aiMoves := List.filter (fun move => String.eqb (player move) PLAYERS_AI) moves in
    {| totalMoves := Z.of_nat (length moves);
       averageThinkTime := None;
       playerMoves := map summarize playerMoves;
       aiMoves := map summarize aiMoves;
       gameFlow := Some (map flowOf moves) |}.

End MoveHistory.

(** ** The engine over a store of arrays and objects *)

(** Boards and game states are JS arrays and objects held by reference.
    The functions below are [makeMove] and [processUserMove] with the
    allocations and writes of the source spelled out, to observe what
    they do to the arrays and objects they are given. *)
Module Store.

Record Heap := {
  arrays : gmap nat Board;
  objects : gmap nat (GameStateOf nat)
}.

(** [[...cells]] or an array literal: a new array. *)
Definition allocArray (cells : Board) (h : Heap) : nat * Heap :=
  let ref := fresh (dom (arrays h)) in
  (ref, {| arrays := <[ref := cells]> (arrays h); objects := objects h |}).

(** [array[i] = cell]. *)
Definition writeCell (ref : nat) (i : nat) (cell : Cell) (h : Heap) : Heap :=
  {| arrays := alter (fun cells => <[i := cell]> cells) ref (arrays h);
     objects := objects h |}.

(** An object literal: a new object. *)
Definition allocObject (o : GameStateOf nat) (h : Heap) : nat * Heap :=
  let ref := fresh (dom (objects h)) in
  (ref, {| arrays := arrays h; objects := <[ref := o]> (objects h) |}).

Definition makeMove (h : Heap) (board : nat) (position : Z) (player : Player)
    : Outcome nat * Heap :=
  match arrays h !! board with
  | None => (Throws TypeError, h)
  | Some cells =>
      if negb (isValidMove cells position)
      then (Throws (InvalidMoveError (Some position)), h)
      else
        let '(newBoard, h1) := allocArray cells h in
        let h2 := writeCell newBoard (Z.to_nat position) (markOf player) h1 in
        (Returns newBoard, h2)
  end.

Definition processUserMove (h : Heap) (gameState : nat) (position : Z)
    : Outcome nat * Heap :=
  match objects h !! gameState with
  | None => (Throws TypeError, h)
  | Some state =>
      if negb (bool_decide (result state = IN_PROGRESS))
      then (Throws GameAlreadyEndedError, h)
      else if negb (bool_decide (currentPlayer state = USER))
      then (Throws (WrongTurnError USER), h)
      else
        match arrays h !! board state with
        | None => (Throws TypeError, h)
        | Some cells =>
            if negb (isValidMove cells position)
            then (Throws (InvalidMoveError (Some position)), h)
            else
              match makeMove h (board state) position USER with
              | (Throws e, h1) => (Throws e, h1)
              | (Returns newBoard, h1) =>
                  let newCells := default [] (arrays h1 !! newBoard) in
                  let moves := moves state + 1 in
                  let winnerInfo := checkWinner newCells in
                  let result :=
                    match winnerInfo with
                    | Some _ => USER_WIN
                    | None => if isDraw newCells then DRAW else IN_PROGRESS
                    end in
                  let '(newState, h2) :=
                    allocObject
                      {| board := newBoard;
                         currentPlayer :=
                           if bool_decide (result = IN_PROGRESS) then AI else USER;
                         moves := moves;
                         difficulty := difficulty state;
                         result := result;
                         gsWinner := winner <$> winnerInfo;
                         gsWinningLine := winningLine <$> winnerInfo;
                         lastAIMove := lastAIMove state |} h1 in
                  (Returns newState, h2)
              end
        end
  end.

(** The game state an object of the store stands for. *)
Definition readState (h : Heap) (ref : nat) : option GameState :=
  match objects h !! ref with
  | None => None
  | Some state =>
      match arrays h !! board state with
      | None => None
      | Some cells =>
          Some {| board := cells;
                  currentPlayer := currentPlayer state;
                  moves := moves state;
                  difficulty := difficulty state;
                  result := result state;
                  gsWinner := gsWinner state;
                  gsWinningLine := gsWinningLine state;
                  lastAIMove := lastAIMove state |}
      end
  end.

(** Nothing that was in [h] has changed in [h']. *)
Definition preserved (h h' : Heap) : Prop :=
  (forall ref cells, arrays h !! ref = Some cells -> arrays h' !! ref = Some cells)
  /\ (forall ref o, objects h !! ref = Some o -> objects h' !! ref = Some o).

End Store.

(** ** Notions used to state the properties of the search *)

(** The score that seeds the running best of a ply. *)
Definition seedScore (isMaximizing : bool) : Num :=
  if isMaximizing then NegInfinity else PosInfinity.

(** Strictly increasing lists of indices. *)
Inductive Ascending : list nat -> Prop :=
| asc_nil : Ascending []
| asc_cons x l : Forall (fun y => (x < y)%nat) l -> Ascending l -> Ascending (x :: l).

(** What a score [s] returned for the window [(alpha, beta)] says about
    the exact value [v]: an upper bound at or below [alpha], the value
    itself inside the window, a lower bound at or above [beta]. *)
Definition bracket (alpha beta s v : Num) : Prop :=
  (num_leb s alpha = true -> num_leb v s = true)
  /\ (num_ltb alpha s = true -> num_ltb s beta = true -> v = s)
  /\ (num_leb beta s = true -> num_leb s v = true).

Definition bracketZ (alpha beta s v : Z) : Prop :=
  (s <= alpha -> v <= s) /\ (alpha < s -> s < beta -> v = s) /\ (beta <= s -> s <= v).

(** An order embedding into the integers of the numbers whose finite
    values lie strictly between [-M] and [M]. *)
Definition enc (M : Z) (x : Num) : Z :=
  match x with NegInfinity => - M | Fin z => z | PosInfinity => M end.

Definition fits (M : Z) (x : Num) : Prop :=
  0 < M /\ match x with Fin z => - M < z < M | _ => True end.

(** [better isMaximizing x y]: on this ply the score [x] is strictly
    preferred to [y]; the test that replaces [bestMove] in the loop. *)
Definition better (isMaximizing : bool) (x y : Num) : bool :=
  if isMaximizing then num_ltb y x else num_ltb x y.

(** The board after the user has opened in the corner. *)
Definition cornerOpening : Board :=
  [CELL_USER; CELL_EMPTY; CELL_EMPTY;
   CELL_EMPTY; CELL_EMPTY; CELL_EMPTY;
   CELL_EMPTY; CELL_EMPTY; CELL_EMPTY].

(** ** Game statistics *)

(** The object [getGameStats] returns. *)
Record GameStats := {
  statsTotalMoves : Z;
  statsUserMoves : Z;
  statsAiMoves : Z;
  statsWinner : option Player;
  statsResult : GameResult;
  statsDifficulty : string;
  statsWinningLine : option Line;
  statsIsCompleted : bool
}.

(** [Math.ceil(n / 2)] and [Math.floor(n / 2)] on an integer [n]. *)
Definition ceilHalf (n : Z) : Z := - ((- n) / 2).
Definition floorHalf (n : Z) : Z := n / 2.

Definition getGameStats (gameState : GameState) : GameStats :=
  {| statsTotalMoves := moves gameState;
     statsUserMoves := ceilHalf (moves gameState);
     statsAiMoves := floorHalf (moves gameState);
     statsWinner := gsWinner gameState;
     statsResult := result gameState;
     statsDifficulty := difficulty gameState;
     statsWinningLine := gsWinningLine gameState;
     statsIsCompleted := negb (bool_decide (result gameState = IN_PROGRESS)) |}.

(** The number of cells of a board that hold the mark of [player]. *)
Definition marksOf (player : Player) (board : Board) : nat :=
  length (filter (fun cell => cell = markOf player) board).

(** ** Further notions of the game *)

(** The test of the blocking loop of [getEasyAIMove]: the user's mark on
    cell [move] completes a line of the user. *)
Definition completesUserLine (board : Board) (move : nat) : bool :=
  match checkWinner (place board move USER) with
  | Some {| winner := USER |} => true
  | _ => false
  end.

(** [aiForcesWin n board toMove]: with [toMove] to play and at most [n]
    plies left, the AI wins whatever the user plays. *)
Fixpoint aiForcesWin (plies : nat) (board : Board) (toMove : Player) : bool :=
  match checkWinner board with
  | Some w => bool_decide (winner w = AI)
  | None =>
      match plies with
      | O => false
      | S plies' =>
          let next := map (fun move => place board move toMove) (getAvailableMoves board) in
          match toMove with
          | AI => existsb (fun b => aiForcesWin plies' b USER) next
          | USER =>
              negb (bool_decide (next = []))
              && forallb (fun b => aiForcesWin plies' b AI) next
          end
      end
  end.

(** The state after a move by [player], as both processors build it. *)
Definition stateAfter (gameState : GameState) (move : nat) (player : Player)
    (last : option nat) : GameState :=
  let newBoard := place (board gameState) move player in
  let newResult :=
    match checkWinner newBoard with
    | Some _ => match player with USER => USER_WIN | AI => AI_WIN end
    | None => if isDraw newBoard then DRAW else IN_PROGRESS
    end in
  {| board := newBoard;
     currentPlayer := if bool_decide (newResult = IN_PROGRESS) then opponent player else player;
     moves := moves gameState + 1;
     difficulty := difficulty gameState;
     result := newResult;
     gsWinner := winner <$> checkWinner newBoard;
     gsWinningLine := winningLine <$> checkWinner newBoard;
     lastAIMove := last |}.

(** ** Untyped values and the validation of game states *)

(** The values a deserialized game state can hold.  Numbers are finite
    (rationals cover every finite double); an object is the list of its
    own properties, looked up by name. *)
#[local] Unset Elimination Schemes.
Inductive JSValue :=
| JSUndefined
| JSNull
| JSBoolean (b : bool)
| JSNumber (q : Q)
| JSString (s : string)
| JSArray (items : list JSValue)
| JSObject (properties : list (string * JSValue)).
#[local] Set Elimination Schemes.

(** [!value]. *)
Definition isFalsy (value : JSValue) : bool :=
  match value with
  | JSUndefined | JSNull => true
  | JSBoolean b => negb b
  | JSNumber q => Qeq_bool q 0
  | JSString s => String.eqb s ""
  | JSArray _ | JSObject _ => false
  end.

(** [typeof value === 'object']. *)
Definition typeofIsObject (value : JSValue) : bool :=
  match value with
  | JSNull | JSArray _ | JSObject _ => true
  | _ => false
  end.

Fixpoint lookupProperty (properties : list (string * JSValue)) (field : string)
    : option JSValue :=
  match properties with
  | [] => None
  | (name, value) :: rest =>
      if String.eqb name field then Some value else lookupProperty rest field
  end.

(** [field in value], for a [field] that is neither an array index nor an
    inherited member (the names tested below are neither). *)
Definition hasField (value : JSValue) (field : string) : bool :=
  match value with
  | JSObject properties =>
      match lookupProperty properties field with Some _ => true | None => false end
  | JSArray _ => String.eqb field "length"
  | _ => false
  end.

(** [value.field] on a value that is not [null] or [undefined], for such
    a [field]. *)
Definition getField (value : JSValue) (field : string) : JSValue :=
  match value with
  | JSObject properties =>
      match lookupProperty properties field with Some v => v | None => JSUndefined end
  | JSArray items =>
      if String.eqb field "length" then JSNumber (inject_Z (Z.of_nat (length items)))
      else JSUndefined
  | _ => JSUndefined
  end.

(** [candidates.includes(value)] for string candidates. *)
Definition includesString (candidates : list string) (value : JSValue) : bool :=
  match value with
  | JSString s => existsb (String.eqb s) candidates
  | _ => false
  end.

(** The negation of [cell !== null && cell !== 'X' && cell !== 'O']. *)
Definition isCellValue (cell : JSValue) : bool :=
  match cell with
  | JSNull => true
  | JSString s => String.eqb s "X" || String.eqb s "O"
  | _ => false
  end.

Definition requiredFields : list string :=
  ["board"; "currentPlayer"; "moves"; "difficulty"; "result"].

Definition validateGameState (gameState : JSValue) : bool :=
  if isFalsy gameState || negb (typeofIsObject gameState) then false
  else if negb (forallb (hasField gameState) requiredFields) then false
  else
    match getField gameState "board" with
    | JSArray cells =>
        if negb (length cells =? 9)%nat then false
        else if negb (forallb isCellValue cells) then false
        else if negb (includesString ["user"; "ai"] (getField gameState "currentPlayer"))
        then false
        else if negb (includesString ["easy"; "medium"; "hard"]
                        (getField gameState "difficulty"))
        then false
        else if negb (includesString ["in_progress"; "user_win"; "ai_win"; "draw"]
                        (getField gameState "result"))
        then false
        else true
    | _ => false
    end.

(** The object a game state of the engine is. *)
Definition cellValue (cell : Cell) : JSValue :=
  match cell with
  | CELL_EMPTY => JSNull
  | CELL_USER => JSString "X"
  | CELL_AI => JSString "O"
  end.

Definition playerName (player : Player) : string :=
  match player with USER => "user" | AI => "ai" end.

Definition resultName (r : GameResult) : string :=
  match r with
  | IN_PROGRESS => "in_progress"
  | USER_WIN => "user_win"
  | AI_WIN => "ai_win"
  | DRAW => "draw"
  end.

Definition indexValue (i : nat) : JSValue := JSNumber (inject_Z (Z.of_nat i)).

Definition gameStateObject (gameState : GameState) : JSValue :=
  JSObject
    ([ ("board", JSArray (map cellValue (board gameState)));
       ("currentPlayer", JSString (playerName (currentPlayer gameState)));
       ("moves", JSNumber (inject_Z (moves gameState)));
       ("difficulty", JSString (difficulty gameState));
       ("result", JSString (resultName (result gameState)));
       ("winner",
         match gsWinner gameState with
         | Some player => JSString (playerName player)
         | None => JSNull
         end);
       ("winningLine",
         match gsWinningLine gameState with
         | Some (a, b, c) => JSArray [indexValue a; indexValue b; indexValue c]
         | None => JSNull
         end) ]
     ++ match lastAIMove gameState with
        | Some p => [("lastAIMove", indexValue p)]
        | None => []
        end).

(** ** Board display *)

Definition newline : string := String (Ascii.ascii_of_nat 10) EmptyString.

(** [symbols[cell]]: a string of one character. *)
Definition symbolChar (cell : Cell) : Ascii.ascii :=
  match cell with
  | CELL_EMPTY => " "%char
  | CELL_USER => "X"%char
  | CELL_AI => "O"%char
  end.

Definition symbolOf (cell : Cell) : string := String (symbolChar cell) EmptyString.

(** [parts.join(separator)]. *)
Fixpoint join (separator : string) (parts : list string) : string :=
  match parts with
  | [] => ""
  | [part] => part
  | part :: rest => part +:+ separator +:+ join separator rest
  end.

(** The body of the loop of [getBoardDisplay] for one [i]. *)
Definition displayStep (board : Board) (display : string) (i : nat) : string :=
  let row := join " | " (map symbolOf (take 3 (drop i board))) in
  let display := display +:+ " " +:+ row +:+ " " +:+ newline in
  if (i <? 6)%nat then display +:+ "---|---|---" +:+ newline else display.

Definition getBoardDisplay (board : Board) : string :=
  foldl (displayStep board) newline [0; 3; 6]%nat.

(** ** Validation of a move request *)

(** What the middleware hands to [next]: nothing, or an [AppError] with
    its message and status code. *)
Inductive NextCall :=
| NextOk
| NextError (message : string) (statusCode : Z).

(** [Number.isInteger(value)]. *)
Definition isInteger (value : JSValue) : bool :=
  match value with
  | JSNumber q => Qnum q mod Z.pos (Qden q) =? 0
  | _ => false
  end.

(** [value < bound] and [value > bound] on a number. *)
Definition numberBelow (value : JSValue) (bound : Q) : bool :=
  match value with JSNumber q => Qltb q bound | _ => false end.
Definition numberAbove (value : JSValue) (bound : Q) : bool :=
  match value with JSNumber q => Qltb bound q | _ => false end.

(** [validateGameMove] on [req.body]; destructuring [undefined] or [null]
    is a [TypeError]. *)
Definition validateGameMove (body : JSValue) : Outcome NextCall :=
  match body with
  | JSUndefined | JSNull => Throws TypeError
  | _ =>
      match getField body "position" with
      | JSUndefined | JSNull => Returns (NextError "Position is required" 400)
      | position =>
          if negb (isInteger position) || numberBelow position 0 || numberAbove position 8
          then Returns (NextError "Position must be an integer between 0 and 8" 400)
          else Returns NextOk
      end
  end.

(** * Properties *)

(** ** Move validation and application *)

Lemma isEmptyAt_spec (board : Board) i :
  isEmptyAt board i = true <-> board !! i = Some CELL_EMPTY.
Proof.
  unfold isEmptyAt. destruct (board !! i) as [[]|]; split; congruence.
Qed.

Lemma isValidMove_spec (board : Board) position :
  isValidMove board position = true
  <-> 0 <= position <= 8 /\ board !! Z.to_nat position = Some CELL_EMPTY.
Proof.
  unfold isValidMove.
  rewrite !andb_true_iff, isEmptyAt_spec, !Z.leb_le. tauto.
Qed.

Lemma makeMove_returns (board : Board) position player newBoard :
  makeMove board position player = Returns newBoard
  <-> isValidMove board position = true
      /\ newBoard = <[Z.to_nat position := markOf player]> board.
Proof.
  unfold makeMove. destruct (isValidMove board position); simpl; split.
  - intros [= <-]. done.
  - intros [_ ->]. done.
  - discriminate.
  - intros [? _]. discriminate.
Qed.

Lemma makeMove_throws (board : Board) position player e :
  makeMove board position player = Throws e
  <-> isValidMove board position = false /\ e = InvalidMoveError (Some position).
Proof.
  unfold makeMove. destruct (isValidMove board position); simpl; split.
  - discriminate.
  - intros [? _]. discriminate.
  - intros [= <-]. done.
  - intros [_ ->]. done.
Qed.

Lemma makeMove_place (board : Board) (move : nat) player :
  board !! move = Some CELL_EMPTY -> (move <= 8)%nat ->
  makeMove board (Z.of_nat move) player = Returns (place board move player).
Proof.
  intros Hcell Hle. apply makeMove_returns. split.
  - apply isValidMove_spec. rewrite Nat2Z.id. split; [lia | done].
  - unfold place. by rewrite Nat2Z.id.
Qed.

Lemma lookup_replicate_empty (i : nat) :
  (i < 9)%nat -> replicate 9 CELL_EMPTY !! i = Some CELL_EMPTY.
Proof. intros Hi. apply lookup_replicate. done. Qed.

Lemma Store_makeMove_throws h ref cells position player e :
  Store.arrays h !! ref = Some cells ->
  makeMove cells position player = Throws e ->
  Store.makeMove h ref position player = (Throws e, h).
Proof.
  intros Href [Hinv ->]%makeMove_throws.
  unfold Store.makeMove. rewrite Href, Hinv. done.
Qed.

Lemma Store_makeMove_returns h ref cells position player newCells :
  Store.arrays h !! ref = Some cells ->
  makeMove cells position player = Returns newCells ->
  exists newRef h',
    Store.makeMove h ref position player = (Returns newRef, h')
    /\ Store.arrays h !! newRef = None
    /\ Store.arrays h' !! newRef = Some newCells
    /\ Store.objects h' = Store.objects h
    /\ Store.preserved h h'.
Proof.
  intros Href [Hvalid ->]%makeMove_returns.
  unfold Store.makeMove. rewrite Href, Hvalid. simpl.
  set (newRef := fresh (dom (Store.arrays h))).
  assert (Hfresh : Store.arrays h !! newRef = None).
  { apply not_elem_of_dom. apply is_fresh. }
  eexists _, _. split; [reflexivity |]. simpl.
  split; [done |]. split; [| split; [done |]].
  - rewrite lookup_alter_eq, lookup_insert_eq. done.
  - split; simpl; [| auto].
    intros r c Hr.
    assert (r <> newRef) by congruence.
    rewrite lookup_alter_ne, lookup_insert_ne by done. done.
Qed.

(** C8.  [isValidMove] holds exactly for a position in [0, 8] whose cell is
    empty: it rejects -1, 9 and every occupied cell, and accepts the nine
    positions of the empty board.  [makeMove] throws the invalid-move error
    exactly when [isValidMove] is false; otherwise it returns a board of
    the same length that holds the player's mark at [position] (X for the
    user, O for the AI) and the input's cells elsewhere.  On the store, [makeMove] writes only to an
    array it has just allocated: every array and object that existed
    before the call is unchanged after it, whether it returns or throws. *)
Theorem makeMove_validated_copy :
  (forall (board : Board) position,
      isValidMove board position = true
      <-> 0 <= position <= 8 /\ board !! Z.to_nat position = Some CELL_EMPTY)
  /\ (forall board : Board, isValidMove board (-1) = false /\ isValidMove board 9 = false)
  /\ (forall (board : Board) position cell,
        board !! Z.to_nat position = Some cell -> cell <> CELL_EMPTY ->
        isValidMove board position = false)
  /\ (forall position, 0 <= position <= 8 ->
        isValidMove (replicate 9 CELL_EMPTY) position = true)
  /\ (forall (board : Board) position player,
        (isValidMove board position = false
         <-> makeMove board position player = Throws (InvalidMoveError (Some position)))
        /\ (isValidMove board position = false
            <-> exists e, makeMove board position player = Throws e))
  /\ (forall (board : Board) position player,
        isValidMove board position = true ->
        exists newBoard,
          makeMove board position player = Returns newBoard
          /\ length newBoard = length board
          /\ newBoard !! Z.to_nat position
             = Some (match player with USER => CELL_USER | AI => CELL_AI end)
          /\ (forall i, i <> Z.to_nat position -> newBoard !! i = board !! i))
  /\ (forall h ref cells position player,
        Store.arrays h !! ref = Some cells ->
        match makeMove cells position player with
        | Throws e => Store.makeMove h ref position player = (Throws e, h)
        | Returns newCells =>
            exists newRef h',
              Store.makeMove h ref position player = (Returns newRef, h')
              /\ newRef <> ref
              /\ Store.arrays h' !! newRef = Some newCells
              /\ Store.arrays h' !! ref = Some cells
              /\ Store.preserved h h'
        end).
Proof.
  split; [exact isValidMove_spec |].
  split; [intros board; split; reflexivity |].
  split.
  { intros board position cell Hcell Hne.
    destruct (isValidMove board position) eqn:Hv; [| done].
    apply isValidMove_spec in Hv as [_ Hv]. congruence. }
  split.
  { intros position Hrange. apply isValidMove_spec. split; [done |].
    apply lookup_replicate_empty. lia. }
  split.
  { intros board position player. split; split.
    - intros Hv. apply makeMove_throws. done.
    - intros [Hv _]%makeMove_throws. done.
    - intros Hv. eexists. apply makeMove_throws. done.
    - intros [e [Hv _]%makeMove_throws]. done. }
  split.
  { intros board position player Hv. eexists. split.
    - apply makeMove_returns. done.
    - apply isValidMove_spec in Hv as [_ Hv].
      apply lookup_lt_Some in Hv.
      split; [apply length_insert |]. split.
      + rewrite list_lookup_insert_eq by done. by destruct player.
      + intros i Hi. apply list_lookup_insert_ne. done. }
  intros h ref cells position player Href.
  destruct (makeMove cells position player) as [newCells | e] eqn:Hmove.
  - destruct (Store_makeMove_returns _ _ _ _ _ _ Href Hmove)
      as (newRef & h' & Hcall & Hfresh & Hnew & _ & Hpres).
    exists newRef, h'. split; [done |]. split; [congruence |].
    split; [done |]. split; [| done].
    destruct Hpres as [Harr _]. auto.
  - by apply Store_makeMove_throws with cells.
Qed.

Lemma makeMove_validated_copy_witness :
  isValidMove [CELL_USER; CELL_EMPTY] 1 = true
  /\ (exists newBoard,
        makeMove [CELL_USER; CELL_EMPTY] 1 AI = Returns newBoard
        /\ length newBoard = 2%nat
        /\ newBoard !! 1%nat = Some CELL_AI
        /\ (forall i, i <> 1%nat -> newBoard !! i = [CELL_USER; CELL_EMPTY] !! i))
  /\ (exists newBoard,
        makeMove [CELL_EMPTY; CELL_AI] 0 USER = Returns newBoard
        /\ length newBoard = 2%nat
        /\ newBoard !! 0%nat = Some CELL_USER
        /\ (forall i, i <> 0%nat -> newBoard !! i = [CELL_EMPTY; CELL_AI] !! i)).
Proof.
  split; [reflexivity |].
  destruct makeMove_validated_copy as (_ & _ & _ & _ & _ & H & _).
  split.
  - apply (H [CELL_USER; CELL_EMPTY] 1 AI). reflexivity.
  - apply (H [CELL_EMPTY; CELL_AI] 0 USER). reflexivity.
Defined.

(** ** Winner detection *)

Lemma lineMatches_spec (board : Board) a b c :
  lineMatches board (a, b, c) = true
  <-> exists player,
      board !! a = Some (markOf player)
      /\ board !! b = Some (markOf player)
      /\ board !! c = Some (markOf player).
Proof.
  unfold lineMatches. split.
  - destruct (board !! a) as [[]|], (board !! b) as [[]|], (board !! c) as [[]|];
      simpl; try discriminate; intros _.
    + by exists USER.
    + by exists AI.
  - intros [[] (-> & -> & ->)]; reflexivity.
Qed.

Lemma lineWinner_spec (board : Board) a b c player :
  board !! a = Some (markOf player) -> lineWinner board (a, b, c) = player.
Proof. unfold lineWinner. intros ->. by destruct player. Qed.

Lemma scanCombinations_Some (board : Board) combinations w :
  scanCombinations board combinations = Some w
  <-> exists before after,
      combinations = before ++ winningLine w :: after
      /\ Forall (fun combination => lineMatches board combination = false) before
      /\ lineMatches board (winningLine w) = true
      /\ winner w = lineWinner board (winningLine w).
Proof.
  revert w. induction combinations as [| combination rest IH]; intros w; simpl.
  - split; [discriminate |]. intros (before & after & Heq & _).
    by destruct before.
  - destruct (lineMatches board combination) eqn:Hm.
    + split.
      * intros [= <-]. exists [], rest. simpl. auto.
      * intros (before & after & Heq & Hbefore & Hline & Hwin).
        destruct before as [| x before]; simpl in Heq; injection Heq as -> ->.
        -- destruct w; simpl in *. by subst.
        -- apply Forall_cons in Hbefore as [Hx _]. congruence.
    + rewrite IH. split.
      * intros (before & after & -> & Hbefore & Hline & Hwin).
        exists (combination :: before), after. simpl. auto.
      * intros (before & after & Heq & Hbefore & Hline & Hwin).
        destruct before as [| x before]; simpl in Heq; injection Heq as -> ->.
        -- congruence.
        -- apply Forall_cons in Hbefore as [_ Hbefore]. eauto 6.
Qed.

Lemma scanCombinations_None (board : Board) combinations :
  scanCombinations board combinations = None
  <-> Forall (fun combination => lineMatches board combination = false) combinations.
Proof.
  induction combinations as [| combination rest IH]; simpl.
  - split; auto.
  - rewrite Forall_cons. destruct (lineMatches board combination).
    + split; [discriminate | intros [? _]; discriminate].
    + rewrite IH. tauto.
Qed.

Lemma checkWinner_owner (board : Board) w :
  checkWinner board = Some w ->
  winningLine w ∈ winningCombinations
  /\ let '(a, b, c) := winningLine w in
     board !! a = Some (markOf (winner w))
     /\ board !! b = Some (markOf (winner w))
     /\ board !! c = Some (markOf (winner w)).
Proof.
  intros (before & after & Heq & _ & Hline & Hwin)%scanCombinations_Some.
  split.
  - unfold winningCombinations at 1. fold winningCombinations.
    rewrite Heq. apply elem_of_app. right. apply list_elem_of_here.
  - destruct (winningLine w) as [[a b] c].
    apply lineMatches_spec in Hline as (player & Ha & Hb & Hc).
    rewrite (lineWinner_spec _ _ _ _ _ Ha) in Hwin. by subst.
Qed.

(** C7.  [checkWinner] scans the eight fixed triples in the order rows,
    columns, diagonals.  It returns a triple exactly when that triple is
    the first of the list whose three cells hold one and the same mark,
    together with the player who owns that mark; it returns no winner
    exactly when no triple of the list matches; the triple it returns is
    one of the eight, and one call returns at most one. *)
Theorem checkWinner_first_matching_triple :
  winningCombinations
  = [ (0, 1, 2); (3, 4, 5); (6, 7, 8); (0, 3, 6); (1, 4, 7); (2, 5, 8);
      (0, 4, 8); (2, 4, 6) ]%nat
  /\ forall board : Board,
      (forall w,
          checkWinner board = Some w
          <-> exists before after,
              winningCombinations = before ++ winningLine w :: after
              /\ Forall (fun combination => lineMatches board combination = false) before
              /\ lineMatches board (winningLine w) = true
              /\ winner w = lineWinner board (winningLine w))
      /\ (forall a b c,
            lineMatches board (a, b, c) = true
            <-> exists player,
                board !! a = Some (markOf player)
                /\ board !! b = Some (markOf player)
                /\ board !! c = Some (markOf player))
      /\ (forall w,
            checkWinner board = Some w ->
            winningLine w ∈ winningCombinations
            /\ let '(a, b, c) := winningLine w in
               board !! a = Some (markOf (winner w))
               /\ board !! b = Some (markOf (winner w))
               /\ board !! c = Some (markOf (winner w)))
      /\ (checkWinner board = None
          <-> forall combination,
              combination ∈ winningCombinations -> lineMatches board combination = false)
      /\ (forall w1 w2,
            checkWinner board = Some w1 -> checkWinner board = Some w2 -> w1 = w2).
Proof.
  split; [reflexivity |]. intros board.
  split; [intros w; apply scanCombinations_Some |].
  split; [apply lineMatches_spec |].
  split; [apply checkWinner_owner |].
  split.
  - unfold checkWinner. rewrite scanCombinations_None, Forall_forall. done.
  - congruence.
Qed.

Lemma checkWinner_first_matching_triple_witness :
  let board := [CELL_USER; CELL_AI; CELL_EMPTY;
                CELL_USER; CELL_AI; CELL_EMPTY;
                CELL_USER; CELL_AI; CELL_EMPTY] in
  checkWinner board = Some {| winner := USER; winningLine := (0, 3, 6)%nat |}
  /\ (0, 3, 6)%nat ∈ winningCombinations
  /\ board !! 0%nat = Some CELL_USER
  /\ board !! 3%nat = Some CELL_USER
  /\ board !! 6%nat = Some CELL_USER.
Proof.
  intros board. split; [reflexivity |].
  destruct checkWinner_first_matching_triple as [_ H].
  destruct (H board) as (_ & _ & Howner & _).
  exact (Howner {| winner := USER; winningLine := (0, 3, 6)%nat |} eq_refl).
Defined.

(** ** The search: terminal scores, totality, bounds *)

Lemma minimax_terminal (board : Board) depth isMaximizing alpha beta z :
  terminalScore board depth = Some z ->
  minimax board depth isMaximizing alpha beta
  = Returns {| position := None; score := Fin z |}.
Proof.
  unfold terminalScore. destruct depth; simpl;
    destruct (checkWinner board) as [[[] line] |]; simpl;
    try destruct (isDraw board); intros [= <-]; reflexivity.
Qed.

Lemma minimax_step (board : Board) depth isMaximizing alpha beta :
  terminalScore board (S depth) = None ->
  minimax board (S depth) isMaximizing alpha beta
  = searchMoves (fun b m a be => minimax b depth m a be) board isMaximizing
      (getAvailableMoves board)
      {| position := head (getAvailableMoves board);
         score := if isMaximizing then NegInfinity else PosInfinity |}
      alpha beta.
Proof.
  unfold terminalScore. simpl.
  destruct (checkWinner board) as [[[] line] |]; simpl; try discriminate.
  destruct (isDraw board); [discriminate | reflexivity].
Qed.

Lemma exactScore_terminal (board : Board) depth isMaximizing z :
  terminalScore board depth = Some z -> exactScore board depth isMaximizing = Fin z.
Proof. intros H. destruct depth; simpl; rewrite H; reflexivity. Qed.

Lemma exactScore_step (board : Board) depth isMaximizing :
  terminalScore board (S depth) = None ->
  exactScore board (S depth) isMaximizing
  = foldScores isMaximizing
      (map (fun move =>
              exactScore (place board move (if isMaximizing then AI else USER))
                depth (negb isMaximizing))
         (getAvailableMoves board)).
Proof. intros H. simpl. rewrite H. reflexivity. Qed.

Lemma terminalScore_bound (board : Board) depth z :
  terminalScore board depth = Some z ->
  - (Z.of_nat depth + 1) <= z <= Z.of_nat depth + 1.
Proof.
  unfold terminalScore.
  destruct (checkWinner board) as [[[] line] |]; simpl;
    [| | destruct (isDraw board); [| destruct depth]];
    intros [= <-]; lia.
Qed.

(** Indices of the empty cells, in ascending order. *)
Lemma elem_of_availableFrom i (cells : list Cell) move :
  move ∈ availableFrom i cells
  <-> (i <= move)%nat /\ cells !! (move - i)%nat = Some CELL_EMPTY.
Proof.
  revert i. induction cells as [| cell rest IH]; intros i; simpl.
  - split; [intros H; inversion H | intros [_ H]; discriminate].
  - destruct (decide (move = i)) as [-> | Hne].
    + rewrite Nat.sub_diag. simpl. case_bool_decide as Hc.
      * subst. split; [auto | intros _; apply list_elem_of_here].
      * rewrite IH. split; [lia |]. intros [_ [= ?]]. done.
    + assert (Hiff : move ∈ availableFrom (S i) rest
                     <-> (i <= move)%nat /\ (cell :: rest) !! (move - i)%nat = Some CELL_EMPTY).
      { rewrite IH. destruct (move - i)%nat as [| k] eqn:Hk.
        - split; lia.
        - simpl. replace (move - S i)%nat with k by lia. split.
          + intros [? ?]. split; [lia | done].
          + intros [? ?]. split; [lia | done]. }
      case_bool_decide; [| done].
      rewrite elem_of_cons. tauto.
Qed.

Lemma elem_of_getAvailableMoves (board : Board) move :
  move ∈ getAvailableMoves board <-> board !! move = Some CELL_EMPTY.
Proof.
  unfold getAvailableMoves. rewrite elem_of_availableFrom, Nat.sub_0_r.
  split; [tauto | split; [lia | done]].
Qed.

Lemma availableFrom_ascending i (cells : list Cell) :
  Ascending (availableFrom i cells).
Proof.
  revert i. induction cells as [| cell rest IH]; intros i; simpl.
  - constructor.
  - case_bool_decide; [| apply IH].
    constructor; [| apply IH].
    apply Forall_forall. intros y [Hy _]%elem_of_availableFrom. lia.
Qed.

Lemma getAvailableMoves_ascending (board : Board) :
  Ascending (getAvailableMoves board).
Proof. apply availableFrom_ascending. Qed.

Lemma forallb_nonempty_cells (board : Board) :
  forallb (fun cell => negb (bool_decide (cell = CELL_EMPTY))) board = false ->
  exists move, board !! move = Some CELL_EMPTY.
Proof.
  induction board as [| cell rest IH]; simpl; [discriminate |].
  case_bool_decide as Hc; simpl.
  - subst. intros _. by exists 0%nat.
  - intros [move Hm]%IH. by exists (S move).
Qed.

Lemma isDraw_false_available (board : Board) :
  checkWinner board = None -> isDraw board = false ->
  exists move, board !! move = Some CELL_EMPTY.
Proof.
  unfold isDraw. intros ->. rewrite bool_decide_eq_false_2 by (intros [? ?]; done).
  simpl. rewrite andb_true_r. apply forallb_nonempty_cells.
Qed.

Lemma terminalScore_None_available (board : Board) depth :
  terminalScore board depth = None ->
  exists move, move ∈ getAvailableMoves board.
Proof.
  unfold terminalScore.
  destruct (checkWinner board) as [[[] line] |] eqn:Hw; try discriminate.
  destruct (isDraw board) eqn:Hd; [discriminate |]. intros _.
  destruct (isDraw_false_available board Hw Hd) as [move Hm].
  exists move. by apply elem_of_getAvailableMoves.
Qed.

Lemma length_place (board : Board) move player :
  length (place board move player) = length board.
Proof. apply length_insert. Qed.

Lemma makeMove_available (board : Board) move player :
  (length board <= 9)%nat -> move ∈ getAvailableMoves board ->
  makeMove board (Z.of_nat move) player = Returns (place board move player).
Proof.
  intros Hlen Hm%elem_of_getAvailableMoves. apply makeMove_place; [done |].
  apply lookup_lt_Some in Hm. lia.
Qed.

Lemma makeMove_nat_returns (board : Board) (move : nat) player newBoard :
  makeMove board (Z.of_nat move) player = Returns newBoard ->
  newBoard = place board move player.
Proof. intros [_ ->]%makeMove_returns. unfold place. by rewrite Nat2Z.id. Qed.

Section SearchLoopFacts.
Variable recurse : Board -> bool -> Num -> Num -> Outcome Move.
Variable board : Board.
Variable isMaximizing : bool.

(** The loop returns whenever every move and every recursive call does. *)
Lemma searchMoves_returns availableMoves bestMove alpha beta :
  (length board <= 9)%nat ->
  (forall move, move ∈ availableMoves -> move ∈ getAvailableMoves board) ->
  (forall b m a be, (length b <= 9)%nat -> exists r, recurse b m a be = Returns r) ->
  exists r, searchMoves recurse board isMaximizing availableMoves bestMove alpha beta
            = Returns r.
Proof.
  intros Hlen Hmoves Hrec.
  revert bestMove alpha beta.
  induction availableMoves as [| move rest IH]; intros bestMove alpha beta; simpl.
  - eauto.
  - rewrite makeMove_available by (auto; apply Hmoves, list_elem_of_here). simpl.
    destruct (Hrec (place board move (if isMaximizing then AI else USER))
                (negb isMaximizing) alpha beta) as [r ->].
    { by rewrite length_place. }
    simpl. match goal with |- context [if ?c then Returns _ else _] => destruct c end.
    + eauto.
    + apply IH. intros m Hm. apply Hmoves. by apply list_elem_of_further.
Qed.

(** The score the loop returns is finite and within the bound of the
    recursive calls, once a first candidate has been scored. *)
Lemma searchMoves_score (P : Z -> Prop) availableMoves bestMove alpha beta r :
  (forall b m a be r', recurse b m a be = Returns r' -> exists z, score r' = Fin z /\ P z) ->
  (availableMoves <> [] /\ score bestMove = seedScore isMaximizing)
  \/ (exists z, score bestMove = Fin z /\ P z) ->
  searchMoves recurse board isMaximizing availableMoves bestMove alpha beta = Returns r ->
  exists z, score r = Fin z /\ P z.
Proof.
  intros Hrec. revert bestMove alpha beta.
  induction availableMoves as [| move rest IH]; intros bestMove alpha beta Hbest; simpl.
  - intros [= <-]. destruct Hbest as [[? _] | ?]; done.
  - destruct (makeMove board (Z.of_nat move) _) as [newBoard |]; simpl; [| discriminate].
    destruct (recurse newBoard (negb isMaximizing) alpha beta) as [child |] eqn:Hchild;
      simpl; [| discriminate].
    destruct (Hrec _ _ _ _ _ Hchild) as (zc & Hzc & HP).
    set (bestMove' := if isMaximizing then (if num_ltb _ _ then _ else _) else _).
    assert (Hbest' : exists z, score bestMove' = Fin z /\ P z).
    { subst bestMove'. unfold seedScore in Hbest. rewrite Hzc.
      destruct isMaximizing, Hbest as [[_ Hs] | (z & Hs & Hz)]; rewrite Hs; simpl; eauto;
        destruct (_ <? _); simpl; eauto. }
    match goal with |- context [if ?c then Returns _ else _] => destruct c end.
    + intros [= <-]. done.
    + apply IH. by right.
Qed.

(** The position the loop returns is the one it started with or one of
    the moves it ran over. *)
Lemma searchMoves_position availableMoves bestMove alpha beta r :
  searchMoves recurse board isMaximizing availableMoves bestMove alpha beta = Returns r ->
  position r = position bestMove
  \/ exists move, position r = Some move /\ move ∈ availableMoves.
Proof.
  revert bestMove alpha beta.
  induction availableMoves as [| move rest IH]; intros bestMove alpha beta; simpl.
  - intros [= <-]. by left.
  - destruct (makeMove board (Z.of_nat move) _) as [newBoard |]; simpl; [| discriminate].
    destruct (recurse newBoard (negb isMaximizing) alpha beta) as [child |];
      simpl; [| discriminate].
    set (bestMove' := if isMaximizing then (if num_ltb _ _ then _ else _) else _).
    assert (Hbest' : position bestMove' = position bestMove
                     \/ position bestMove' = Some move).
    { subst bestMove'. destruct isMaximizing;
        match goal with |- context [if ?c then _ else _] => destruct c end; simpl; auto. }
    intros Hres.
    assert (Hr : position r = position bestMove'
                 \/ exists m, position r = Some m /\ m ∈ rest).
    { revert Hres.
      match goal with |- context [if ?c then Returns _ else _] => destruct c end.
      - intros [= <-]. by left.
      - apply IH. }
    destruct Hr as [Hr | (m & Hr & Hm)].
    + rewrite Hr. destruct Hbest' as [-> | ->]; [by left |].
      right. exists move. split; [done | apply list_elem_of_here].
    + right. exists m. split; [done | by apply list_elem_of_further].
Qed.
End SearchLoopFacts.

(** On a board of at most nine cells the search never throws. *)
Lemma minimax_returns depth : forall (board : Board) isMaximizing alpha beta,
  (length board <= 9)%nat ->
  exists r, minimax board depth isMaximizing alpha beta = Returns r.
Proof.
  induction depth as [| depth IH]; intros board isMaximizing alpha beta Hlen.
  - destruct (terminalScore board 0) as [z |] eqn:Ht.
    + rewrite (minimax_terminal _ _ _ _ _ _ Ht). eauto.
    + unfold terminalScore in Ht.
      destruct (checkWinner board) as [[[] ?] |], (isDraw board); discriminate.
  - destruct (terminalScore board (S depth)) as [z |] eqn:Ht.
    + rewrite (minimax_terminal _ _ _ _ _ _ Ht). eauto.
    + rewrite (minimax_step _ _ _ _ _ Ht).
      apply searchMoves_returns; auto.
Qed.

(** Every score the search returns is an integer of magnitude at most
    [depth + 1]. *)
Lemma minimax_score_bound depth : forall (board : Board) isMaximizing alpha beta r,
  minimax board depth isMaximizing alpha beta = Returns r ->
  exists z, score r = Fin z /\ - (Z.of_nat depth + 1) <= z <= Z.of_nat depth + 1.
Proof.
  induction depth as [| depth IH]; intros board isMaximizing alpha beta r.
  - destruct (terminalScore board 0) as [z |] eqn:Ht.
    + rewrite (minimax_terminal _ _ _ _ _ _ Ht). intros [= <-]. simpl.
      exists z. split; [done |]. by apply terminalScore_bound in Ht.
    + unfold terminalScore in Ht.
      destruct (checkWinner board) as [[[] ?] |], (isDraw board); discriminate.
  - destruct (terminalScore board (S depth)) as [z |] eqn:Ht.
    + rewrite (minimax_terminal _ _ _ _ _ _ Ht). intros [= <-]. simpl.
      exists z. split; [done |]. by apply terminalScore_bound in Ht.
    + rewrite (minimax_step _ _ _ _ _ Ht). intros Hres.
      eapply (searchMoves_score _ _ _
                (fun z => - (Z.of_nat (S depth) + 1) <= z <= Z.of_nat (S depth) + 1)) in Hres;
        [done | |].
      * intros b m a be r' Hr'. destruct (IH _ _ _ _ _ Hr') as (z & Hz & Hb).
        exists z. split; [done | lia].
      * left. split; [| by destruct isMaximizing].
        destruct (terminalScore_None_available _ _ Ht) as [move Hm].
        intros Hnil. rewrite Hnil in Hm. inversion Hm.
Qed.

(** At a position that does not end the search, the returned position is
    an empty cell. *)
Lemma minimax_position depth (board : Board) isMaximizing alpha beta r :
  terminalScore board (S depth) = None ->
  minimax board (S depth) isMaximizing alpha beta = Returns r ->
  exists move, position r = Some move /\ move ∈ getAvailableMoves board.
Proof.
  intros Ht. rewrite (minimax_step _ _ _ _ _ Ht).
  intros [Hp | Hp]%searchMoves_position; [| done].
  simpl in Hp. destruct (getAvailableMoves board) as [| m rest] eqn:Hmoves.
  - destruct (terminalScore_None_available _ _ Ht) as [move Hm].
    rewrite Hmoves in Hm. inversion Hm.
  - exists m. split; [done | apply list_elem_of_here].
Qed.

Lemma isDraw_spec (board : Board) :
  isDraw board = true
  <-> Forall (fun cell => cell <> CELL_EMPTY) board /\ checkWinner board = None.
Proof.
  unfold isDraw. rewrite andb_true_iff, forallb_forall, Forall_forall, negb_true_iff.
  rewrite bool_decide_eq_false. split.
  - intros [Hfull Hnone]. split.
    + intros cell Hin Hc. apply list_elem_of_In, Hfull in Hin.
      rewrite bool_decide_eq_true_2 in Hin; done.
    + destruct (checkWinner board); [exfalso; eauto | done].
  - intros [Hfull ->]. split.
    + intros cell Hin%list_elem_of_In. apply negb_true_iff, bool_decide_eq_false. auto.
    + intros [? ?]. done.
Qed.

(** C3.  [minimax] looks at the winner first: whatever the depth, the flag
    and the window, it returns 10 - (9 - depth) when [checkWinner] reports
    the AI and -10 + (9 - depth) when it reports the user; with no winner
    it returns 0 on a full board and at depth 0.  With
    pliesPlayed = 9 - depth these are +(10 - pliesPlayed) and
    -(10 - pliesPlayed).  Every score the search returns is an integer of
    magnitude at most depth + 1, so at most 10 for the depths up to 9. *)
Theorem minimax_terminal_scores (board : Board) (depth : nat) (isMaximizing : bool)
    (alpha beta : Num) :
  (forall w, checkWinner board = Some w -> winner w = AI ->
     minimax board depth isMaximizing alpha beta
     = Returns {| position := None; score := Fin (10 - (9 - Z.of_nat depth)) |})
  /\ (forall w, checkWinner board = Some w -> winner w = USER ->
        minimax board depth isMaximizing alpha beta
        = Returns {| position := None; score := Fin (-10 + (9 - Z.of_nat depth)) |})
  /\ (checkWinner board = None ->
      Forall (fun cell => cell <> CELL_EMPTY) board \/ depth = 0%nat ->
      minimax board depth isMaximizing alpha beta
      = Returns {| position := None; score := Fin 0 |})
  /\ (let pliesPlayed := 9 - Z.of_nat depth in
      10 - (9 - Z.of_nat depth) = 10 - pliesPlayed
      /\ -10 + (9 - Z.of_nat depth) = - (10 - pliesPlayed))
  /\ (forall r, minimax board depth isMaximizing alpha beta = Returns r ->
        exists z, score r = Fin z
                  /\ - (Z.of_nat depth + 1) <= z <= Z.of_nat depth + 1
                  /\ ((depth <= 9)%nat -> -10 <= z <= 10)).
Proof.
  split; [| split; [| split; [| split]]].
  - intros [who line] Hw Hai. simpl in Hai. subst who.
    apply minimax_terminal. unfold terminalScore. by rewrite Hw.
  - intros [who line] Hw Huser. simpl in Huser. subst who.
    apply minimax_terminal. unfold terminalScore. by rewrite Hw.
  - intros Hw Hend. apply minimax_terminal. unfold terminalScore. rewrite Hw.
    destruct Hend as [Hfull | ->].
    + rewrite (proj2 (isDraw_spec board)); done.
    + by destruct (isDraw board).
  - simpl. lia.
  - intros r Hr. destruct (minimax_score_bound _ _ _ _ _ _ Hr) as (z & Hz & Hb).
    exists z. split; [done |]. split; [done | lia].
Qed.

Lemma minimax_terminal_scores_witness :
  let won := [CELL_AI; CELL_AI; CELL_AI;
              CELL_USER; CELL_USER; CELL_EMPTY;
              CELL_USER; CELL_EMPTY; CELL_EMPTY] in
  minimax won 3 true NegInfinity PosInfinity
  = Returns {| position := None; score := Fin 4 |}.
Proof.
  intros won.
  exact (proj1 (minimax_terminal_scores won 3 true NegInfinity PosInfinity)
           {| winner := AI; winningLine := (0, 1, 2)%nat |} eq_refl eq_refl).
Defined.

(** ** The order on scores, through an embedding into the integers *)

Lemma fits_weaken M M' x : fits M x -> M <= M' -> fits M' x.
Proof. unfold fits. destruct x; lia. Qed.

Lemma exists_fits (l : list Num) : exists M, 0 < M /\ Forall (fits M) l.
Proof.
  induction l as [| x l (M & HM & Hl)].
  - exists 1. split; [lia | constructor].
  - exists (Z.max M (match x with Fin z => Z.abs z + 1 | _ => 1 end)).
    split; [lia |]. constructor.
    + unfold fits. destruct x; lia.
    + eapply Forall_impl; [exact Hl |].
      intros y Hy. apply (fits_weaken M); [exact Hy | lia].
Qed.

Lemma enc_ltb M x y : fits M x -> fits M y -> num_ltb x y = (enc M x <? enc M y).
Proof.
  unfold fits. destruct x, y; simpl; intros [? ?] [? ?]; try reflexivity;
    symmetry; rewrite ?Z.ltb_lt, ?Z.ltb_ge; lia.
Qed.

Lemma enc_leb M x y : fits M x -> fits M y -> num_leb x y = (enc M x <=? enc M y).
Proof.
  intros Hx Hy. unfold num_leb. rewrite (enc_ltb M) by assumption.
  rewrite Z.leb_antisym. reflexivity.
Qed.

Lemma enc_max M x y :
  fits M x -> fits M y -> enc M (num_max x y) = Z.max (enc M x) (enc M y).
Proof.
  intros Hx Hy. unfold num_max. rewrite (enc_ltb M) by assumption.
  destruct (Z.ltb_spec (enc M x) (enc M y)); lia.
Qed.

Lemma enc_min M x y :
  fits M x -> fits M y -> enc M (num_min x y) = Z.min (enc M x) (enc M y).
Proof.
  intros Hx Hy. unfold num_min. rewrite (enc_ltb M) by assumption.
  destruct (Z.ltb_spec (enc M y) (enc M x)); lia.
Qed.

Lemma fits_max M x y : fits M x -> fits M y -> fits M (num_max x y).
Proof. unfold num_max. destruct (num_ltb x y); auto. Qed.

Lemma fits_min M x y : fits M x -> fits M y -> fits M (num_min x y).
Proof. unfold num_min. destruct (num_ltb y x); auto. Qed.

Lemma enc_inj M x y : fits M x -> fits M y -> enc M x = enc M y -> x = y.
Proof.
  unfold fits. destruct x, y; simpl; intros [? ?] [? ?] ?; try reflexivity;
    try lia. f_equal. lia.
Qed.

Lemma bracket_enc M alpha beta s v :
  fits M alpha -> fits M beta -> fits M s -> fits M v ->
  bracket alpha beta s v <-> bracketZ (enc M alpha) (enc M beta) (enc M s) (enc M v).
Proof.
  intros Ha Hb Hs Hv. unfold bracket, bracketZ.
  rewrite !(enc_leb M), !(enc_ltb M) by assumption.
  rewrite !Z.leb_le, !Z.ltb_lt.
  split; intros (H1 & H2 & H3); (split; [| split]); auto.
  - intros ? ?. f_equal. auto.
  - intros ? ?. apply (enc_inj M); auto.
Qed.

Lemma bracket_exact alpha beta s : bracket alpha beta s s.
Proof.
  unfold bracket, num_leb. split; [| split]; auto.
  - intros _. destruct s; simpl; auto. by rewrite Z.ltb_irrefl.
  - intros _. destruct s; simpl; auto. by rewrite Z.ltb_irrefl.
Qed.

(** One iteration of the loop on a maximizing ply, on integers. *)
Lemma max_stepZ alpha beta sb r1 v1 V s :
  alpha < beta -> sb <= alpha -> bracketZ alpha beta r1 v1 ->
  (beta <= Z.max alpha r1 -> s = Z.max sb r1) ->
  (Z.max alpha r1 < beta -> bracketZ (Z.max alpha r1) beta s (Z.max (Z.max sb r1) V)) ->
  bracketZ alpha beta s (Z.max sb (Z.max v1 V)).
Proof. unfold bracketZ. lia. Qed.

(** One iteration of the loop on a minimizing ply, on integers. *)
Lemma min_stepZ alpha beta sb r1 v1 V s :
  alpha < beta -> beta <= sb -> bracketZ alpha beta r1 v1 ->
  (Z.min beta r1 <= alpha -> s = Z.min sb r1) ->
  (alpha < Z.min beta r1 -> bracketZ alpha (Z.min beta r1) s (Z.min (Z.min sb r1) V)) ->
  bracketZ alpha beta s (Z.min sb (Z.min v1 V)).
Proof. unfold bracketZ. lia. Qed.

Ltac split_fits H :=
  repeat match type of H with
    | Forall _ (_ :: _) => apply Forall_cons in H as [? H]
    end; clear H.

Lemma max_step alpha beta sb r1 v1 V s :
  num_ltb alpha beta = true -> num_leb sb alpha = true -> bracket alpha beta r1 v1 ->
  (num_leb beta (num_max alpha r1) = true -> s = num_max sb r1) ->
  (num_leb beta (num_max alpha r1) = false ->
   bracket (num_max alpha r1) beta s (num_max (num_max sb r1) V)) ->
  bracket alpha beta s (num_max sb (num_max v1 V)).
Proof.
  destruct (exists_fits [alpha; beta; sb; r1; v1; V; s]) as (M & _ & HM).
  split_fits HM.
  assert (fits M (num_max alpha r1)) by by apply fits_max.
  assert (fits M (num_max sb r1)) by by apply fits_max.
  assert (fits M (num_max v1 V)) by by apply fits_max.
  rewrite (enc_ltb M), (enc_leb M sb), !(enc_leb M beta) by done.
  rewrite Z.ltb_lt, Z.leb_le, Z.leb_gt, Z.leb_le.
  rewrite (bracket_enc M alpha beta r1 v1) by done.
  rewrite (bracket_enc M (num_max alpha r1)) by (done || by apply fits_max).
  rewrite (bracket_enc M alpha beta s) by (done || by apply fits_max).
  rewrite !(enc_max M) by done.
  intros Hwin Hbest Hchild Hcut Hrest.
  apply (max_stepZ _ _ _ (enc M r1)); try done.
  intros Hle. rewrite (Hcut Hle). by apply enc_max.
Qed.

Lemma min_step alpha beta sb r1 v1 V s :
  num_ltb alpha beta = true -> num_leb beta sb = true -> bracket alpha beta r1 v1 ->
  (num_leb (num_min beta r1) alpha = true -> s = num_min sb r1) ->
  (num_leb (num_min beta r1) alpha = false ->
   bracket alpha (num_min beta r1) s (num_min (num_min sb r1) V)) ->
  bracket alpha beta s (num_min sb (num_min v1 V)).
Proof.
  destruct (exists_fits [alpha; beta; sb; r1; v1; V; s]) as (M & _ & HM).
  split_fits HM.
  assert (fits M (num_min beta r1)) by by apply fits_min.
  assert (fits M (num_min sb r1)) by by apply fits_min.
  assert (fits M (num_min v1 V)) by by apply fits_min.
  rewrite (enc_ltb M), (enc_leb M beta), !(enc_leb M (num_min beta r1)) by done.
  rewrite Z.ltb_lt, Z.leb_le, Z.leb_gt, Z.leb_le.
  rewrite (bracket_enc M alpha beta r1 v1) by done.
  rewrite (bracket_enc M alpha (num_min beta r1)) by (done || by apply fits_min).
  rewrite (bracket_enc M alpha beta s) by (done || by apply fits_min).
  rewrite !(enc_min M) by done.
  intros Hwin Hbest Hchild Hcut Hrest.
  apply (min_stepZ _ _ _ (enc M r1)); try done.
  intros Hle. rewrite (Hcut Hle). by apply enc_min.
Qed.

Lemma num_max_seed x : num_max x NegInfinity = x.
Proof. by destruct x. Qed.

Lemma num_min_seed x : num_min x PosInfinity = x.
Proof. by destruct x. Qed.

Lemma num_max_seed_l x : num_max NegInfinity x = x.
Proof. by destruct x. Qed.

Lemma num_min_seed_l x : num_min PosInfinity x = x.
Proof. by destruct x. Qed.

Lemma num_max_mono alpha sb r1 :
  num_leb sb alpha = true -> num_leb (num_max sb r1) (num_max alpha r1) = true.
Proof.
  destruct (exists_fits [alpha; sb; r1]) as (M & _ & HM). split_fits HM.
  rewrite !(enc_leb M), !(enc_max M), !Z.leb_le by (done || by apply fits_max). lia.
Qed.

Lemma num_min_mono beta sb r1 :
  num_leb beta sb = true -> num_leb (num_min beta r1) (num_min sb r1) = true.
Proof.
  destruct (exists_fits [beta; sb; r1]) as (M & _ & HM). split_fits HM.
  rewrite !(enc_leb M), !(enc_min M), !Z.leb_le by (done || by apply fits_min). lia.
Qed.

Lemma num_leb_false x y : num_leb x y = false -> num_ltb y x = true.
Proof. unfold num_leb. by rewrite negb_false_iff. Qed.

(** ** Soundness of the pruned search *)

Section PrunedLoop.
Variable depth : nat.
Variable board : Board.
Hypothesis recurse_sound : forall b m a be r,
  num_ltb a be = true ->
  minimax b depth m a be = Returns r ->
  bracket a be (score r) (exactScore b depth m).

Let recurse := fun b m a be => minimax b depth m a be.
Let child (isMaximizing : bool) (move : nat) : Num :=
  exactScore (place board move (if isMaximizing then AI else USER)) depth
    (negb isMaximizing).

Lemma searchMoves_sound_max availableMoves : forall bestMove alpha beta r,
  num_ltb alpha beta = true ->
  num_leb (score bestMove) alpha = true ->
  searchMoves recurse board true availableMoves bestMove alpha beta = Returns r ->
  bracket alpha beta (score r)
    (num_max (score bestMove) (foldr num_max NegInfinity (map (child true) availableMoves))).
Proof.
  induction availableMoves as [| move rest IH]; intros bestMove alpha beta r Hwin Hbest;
    simpl.
  - intros [= <-]. rewrite num_max_seed. apply bracket_exact.
  - destruct (makeMove board (Z.of_nat move) AI) as [newBoard |] eqn:Hmove;
      simpl; [| discriminate].
    apply makeMove_nat_returns in Hmove. subst newBoard.
    destruct (recurse (place board move AI) false alpha beta) as [result |] eqn:Hchild;
      simpl; [| discriminate].
    pose proof (recurse_sound _ _ _ _ _ Hwin Hchild) as Hbr.
    set (bestMove' := if num_ltb (score bestMove) (score result) then _ else bestMove).
    assert (Hscore : score bestMove' = num_max (score bestMove) (score result)).
    { subst bestMove'. unfold num_max. destruct (num_ltb (score bestMove) (score result)); reflexivity. }
    intros Hres.
    apply max_step with (r1 := score result); try done.
    + intros Hcut. rewrite Hcut in Hres. injection Hres as <-. done.
    + intros Hcut. rewrite Hcut in Hres. rewrite <- Hscore.
      apply IH; [by apply num_leb_false | | done].
      rewrite Hscore. by apply num_max_mono.
Qed.

Lemma searchMoves_sound_min availableMoves : forall bestMove alpha beta r,
  num_ltb alpha beta = true ->
  num_leb beta (score bestMove) = true ->
  searchMoves recurse board false availableMoves bestMove alpha beta = Returns r ->
  bracket alpha beta (score r)
    (num_min (score bestMove) (foldr num_min PosInfinity (map (child false) availableMoves))).
Proof.
  induction availableMoves as [| move rest IH]; intros bestMove alpha beta r Hwin Hbest;
    simpl.
  - intros [= <-]. rewrite num_min_seed. apply bracket_exact.
  - destruct (makeMove board (Z.of_nat move) USER) as [newBoard |] eqn:Hmove;
      simpl; [| discriminate].
    apply makeMove_nat_returns in Hmove. subst newBoard.
    destruct (recurse (place board move USER) true alpha beta) as [result |] eqn:Hchild;
      simpl; [| discriminate].
    pose proof (recurse_sound _ _ _ _ _ Hwin Hchild) as Hbr.
    set (bestMove' := if num_ltb (score result) (score bestMove) then _ else bestMove).
    assert (Hscore : score bestMove' = num_min (score bestMove) (score result)).
    { subst bestMove'. unfold num_min. destruct (num_ltb (score result) (score bestMove)); reflexivity. }
    intros Hres.
    apply min_step with (r1 := score result); try done.
    + intros Hcut. rewrite Hcut in Hres. injection Hres as <-. done.
    + intros Hcut. rewrite Hcut in Hres. rewrite <- Hscore.
      apply IH; [by apply num_leb_false | | done].
      rewrite Hscore. by apply num_min_mono.
Qed.
End PrunedLoop.

(** Alpha-beta pruning is sound: for a window [alpha < beta], the score
    [minimax] returns bounds the exact value from above when it is at most
    [alpha], from below when it is at least [beta], and equals it in
    between. *)
Lemma minimax_sound depth : forall (board : Board) isMaximizing alpha beta r,
  num_ltb alpha beta = true ->
  minimax board depth isMaximizing alpha beta = Returns r ->
  bracket alpha beta (score r) (exactScore board depth isMaximizing).
Proof.
  induction depth as [| depth IH]; intros board isMaximizing alpha beta r Hwin.
  - destruct (terminalScore board 0) as [z |] eqn:Ht.
    + rewrite (minimax_terminal _ _ _ _ _ _ Ht), (exactScore_terminal _ _ _ _ Ht).
      intros [= <-]. apply bracket_exact.
    + unfold terminalScore in Ht.
      destruct (checkWinner board) as [[[] ?] |], (isDraw board); discriminate.
  - destruct (terminalScore board (S depth)) as [z |] eqn:Ht.
    + rewrite (minimax_terminal _ _ _ _ _ _ Ht), (exactScore_terminal _ _ _ _ Ht).
      intros [= <-]. apply bracket_exact.
    + rewrite (minimax_step _ _ _ _ _ Ht), (exactScore_step _ _ _ Ht).
      destruct isMaximizing; intros Hres.
      * apply (searchMoves_sound_max depth board IH) in Hres; [| done | by destruct alpha].
        simpl in Hres. by rewrite num_max_seed_l in Hres.
      * apply (searchMoves_sound_min depth board IH) in Hres; [| done | by destruct beta].
        simpl in Hres. by rewrite num_min_seed_l in Hres.
Qed.

(** ** The move chosen at the top of the search *)

Lemma better_irrefl isMaximizing x : better isMaximizing x x = false.
Proof. destruct isMaximizing, x; simpl; auto using Z.ltb_irrefl. Qed.

Lemma better_trans isMaximizing x y z :
  better isMaximizing x y = true -> better isMaximizing y z = true ->
  better isMaximizing x z = true.
Proof.
  destruct (exists_fits [x; y; z]) as (M & _ & HM). split_fits HM.
  unfold better. destruct isMaximizing;
    rewrite !(enc_ltb M), !Z.ltb_lt by done; lia.
Qed.

Lemma better_trans_not isMaximizing x y z :
  better isMaximizing x y = true -> better isMaximizing z y = false ->
  better isMaximizing x z = true.
Proof.
  destruct (exists_fits [x; y; z]) as (M & _ & HM). split_fits HM.
  unfold better. destruct isMaximizing;
    rewrite !(enc_ltb M), !Z.ltb_lt, Z.ltb_ge by done; lia.
Qed.

Lemma firstBest_step isMaximizing move s rest best :
  firstBest isMaximizing ((move, s) :: rest) best
  = firstBest isMaximizing rest
      (if better isMaximizing s (score best)
       then {| position := Some move; score := s |} else best).
Proof. reflexivity. Qed.

(** [firstBest] keeps [best] when no candidate is better, and otherwise
    returns the first candidate that no other candidate beats: the ones
    before it are strictly worse, the ones after it are not better. *)
Lemma firstBest_spec isMaximizing candidates : forall best,
  (firstBest isMaximizing candidates best = best
   /\ forall m s, (m, s) ∈ candidates -> better isMaximizing s (score best) = false)
  \/ (exists before m s after,
        candidates = before ++ (m, s) :: after
        /\ firstBest isMaximizing candidates best = {| position := Some m; score := s |}
        /\ better isMaximizing s (score best) = true
        /\ (forall m' s', (m', s') ∈ before -> better isMaximizing s s' = true)
        /\ (forall m' s', (m', s') ∈ after -> better isMaximizing s' s = false)).
Proof.
  induction candidates as [| [move sc] rest IH]; intros best.
  - left. split; [reflexivity |]. intros m s Hin. inversion Hin.
  - rewrite firstBest_step.
    destruct (better isMaximizing sc (score best)) eqn:Hb.
    + destruct (IH {| position := Some move; score := sc |})
        as [[Heq Hall] | (before & m & s & after & -> & Heq & Hbetter & Hbefore & Hafter)];
        simpl in *.
      * right. exists [], move, sc, rest. simpl. repeat split; auto.
        intros m' s' Hin. inversion Hin.
      * right. exists ((move, sc) :: before), m, s, after. simpl.
        split; [done |]. split; [done |].
        split; [by apply better_trans with sc |]. split; [| done].
        intros m' s' [[= -> ->] | Hin]%elem_of_cons; eauto.
    + destruct (IH best)
        as [[Heq Hall] | (before & m & s & after & -> & Heq & Hbetter & Hbefore & Hafter)].
      * left. split; [done |].
        intros m s [[= -> ->] | Hin]%elem_of_cons; eauto.
      * right. exists ((move, sc) :: before), m, s, after. simpl.
        split; [done |]. split; [done |]. split; [done |]. split; [| done].
        intros m' s' [[= -> ->] | Hin]%elem_of_cons; eauto.
        by apply better_trans_not with (score best).
Qed.

Lemma Ascending_app_later l1 x l2 y :
  Ascending (l1 ++ x :: l2) -> y ∈ l2 -> (x < y)%nat.
Proof.
  induction l1 as [| z l1 IH]; simpl; intros Hasc Hy.
  - inversion Hasc as [| ? ? Hall _]; subst.
    rewrite Forall_forall in Hall. auto.
  - inversion Hasc; subst. auto.
Qed.

Lemma num_leb_trans_not x y z :
  num_leb x y = true -> num_leb y z = true -> num_ltb z x = false.
Proof.
  destruct (exists_fits [x; y; z]) as (M & _ & HM). split_fits HM.
  rewrite !(enc_leb M), !(enc_ltb M), !Z.leb_le, Z.ltb_ge by done. lia.
Qed.

Section TopLoop.
Variable depth : nat.
Variable board : Board.

Let recurse := fun b m a be => minimax b depth m a be.
Let candidates (isMaximizing : bool) (availableMoves : list nat) : list (nat * Num) :=
  map (fun move =>
         (move, exactScore (place board move (if isMaximizing then AI else USER))
                  depth (negb isMaximizing)))
    availableMoves.

(** With the window open below and [beta] equal to the running best, the
    minimizing loop never prunes and returns the first best candidate. *)
Lemma searchMoves_top_min availableMoves : forall bestMove r,
  num_ltb NegInfinity (score bestMove) = true ->
  searchMoves recurse board false availableMoves bestMove NegInfinity (score bestMove)
  = Returns r ->
  r = firstBest false (candidates false availableMoves) bestMove.
Proof.
  induction availableMoves as [| move rest IH]; intros bestMove r Hbest; simpl.
  - by intros [= <-].
  - destruct (makeMove board (Z.of_nat move) USER) as [newBoard |] eqn:Hmove;
      simpl; [| discriminate].
    apply makeMove_nat_returns in Hmove. subst newBoard.
    destruct (recurse (place board move USER) true NegInfinity (score bestMove))
      as [result |] eqn:Hchild; simpl; [| discriminate].
    destruct (minimax_score_bound _ _ _ _ _ _ Hchild) as (z & Hz & _).
    destruct (minimax_sound _ _ _ _ _ _ Hbest Hchild) as (_ & Hin & Hhigh).
    rewrite Hz in *.
    destruct (num_ltb (Fin z) (score bestMove)) eqn:Hlt.
    + rewrite (Hin eq_refl eq_refl). rewrite Hlt.
      replace (num_min (score bestMove) (Fin z)) with (Fin z)
        by (unfold num_min; by rewrite Hlt).
      simpl. apply (IH {| position := Some move; score := Fin z |}). reflexivity.
    + assert (Hge : num_leb (score bestMove) (Fin z) = true)
        by (unfold num_leb; by rewrite Hlt).
      rewrite (num_leb_trans_not _ _ _ Hge (Hhigh Hge)).
      replace (num_min (score bestMove) (Fin z)) with (score bestMove)
        by (unfold num_min; by rewrite Hlt).
      unfold num_leb at 1. rewrite Hbest. simpl. by apply IH.
Qed.

(** The maximizing loop, with the window open above and [alpha] equal to
    the running best. *)
Lemma searchMoves_top_max availableMoves : forall bestMove r,
  num_ltb (score bestMove) PosInfinity = true ->
  searchMoves recurse board true availableMoves bestMove (score bestMove) PosInfinity
  = Returns r ->
  r = firstBest true (candidates true availableMoves) bestMove.
Proof.
  induction availableMoves as [| move rest IH]; intros bestMove r Hbest; simpl.
  - by intros [= <-].
  - destruct (makeMove board (Z.of_nat move) AI) as [newBoard |] eqn:Hmove;
      simpl; [| discriminate].
    apply makeMove_nat_returns in Hmove. subst newBoard.
    destruct (recurse (place board move AI) false (score bestMove) PosInfinity)
      as [result |] eqn:Hchild; simpl; [| discriminate].
    destruct (minimax_score_bound _ _ _ _ _ _ Hchild) as (z & Hz & _).
    destruct (minimax_sound _ _ _ _ _ _ Hbest Hchild) as (Hlow & Hin & _).
    rewrite Hz in *.
    destruct (num_ltb (score bestMove) (Fin z)) eqn:Hlt.
    + rewrite (Hin eq_refl eq_refl). rewrite Hlt.
      replace (num_max (score bestMove) (Fin z)) with (Fin z)
        by (unfold num_max; by rewrite Hlt).
      simpl. apply (IH {| position := Some move; score := Fin z |}). reflexivity.
    + assert (Hle : num_leb (Fin z) (score bestMove) = true)
        by (unfold num_leb; by rewrite Hlt).
      rewrite (num_leb_trans_not _ _ _ (Hlow Hle) Hle).
      replace (num_max (score bestMove) (Fin z)) with (score bestMove)
        by (unfold num_max; by rewrite Hlt).
      unfold num_leb at 1. rewrite Hbest. simpl. by apply IH.
Qed.
End TopLoop.

(** Called with the full window at a position that does not end the
    search, [minimax] returns the first best candidate by exact score. *)
Lemma minimax_top (board : Board) depth isMaximizing r :
  terminalScore board (S depth) = None ->
  minimax board (S depth) isMaximizing NegInfinity PosInfinity = Returns r ->
  r = firstBest isMaximizing (candidateScores board (S depth) isMaximizing)
        {| position := head (getAvailableMoves board); score := seedScore isMaximizing |}.
Proof.
  intros Ht. rewrite (minimax_step _ _ _ _ _ Ht). unfold candidateScores. simpl pred.
  destruct isMaximizing; simpl; intros Hres.
  - by apply (searchMoves_top_max depth board) in Hres.
  - by apply (searchMoves_top_min depth board) in Hres.
Qed.

(** With the full window the search returns the exact value. *)
Lemma minimax_exact (board : Board) depth isMaximizing :
  (length board <= 9)%nat ->
  exists r, minimax board depth isMaximizing NegInfinity PosInfinity = Returns r
            /\ score r = exactScore board depth isMaximizing
            /\ exists z, score r = Fin z.
Proof.
  intros Hlen.
  destruct (minimax_returns depth board isMaximizing NegInfinity PosInfinity Hlen)
    as [r Hr].
  exists r. split; [done |].
  destruct (minimax_score_bound _ _ _ _ _ _ Hr) as (z & Hz & _).
  destruct (minimax_sound depth board isMaximizing NegInfinity PosInfinity r eq_refl Hr)
    as (_ & Hin & _).
  rewrite Hz in *. split; [| by exists z]. symmetry. by apply Hin.
Qed.

Lemma exactScore_finite (board : Board) depth isMaximizing :
  (length board <= 9)%nat -> exists z, exactScore board depth isMaximizing = Fin z.
Proof.
  intros Hlen. destruct (minimax_exact board depth isMaximizing Hlen)
    as (r & _ & <- & Hz). done.
Qed.

Lemma candidateScores_moves (board : Board) depth isMaximizing :
  map fst (candidateScores board depth isMaximizing) = getAvailableMoves board.
Proof.
  unfold candidateScores. rewrite map_map. simpl. apply map_id.
Qed.

Lemma elem_of_candidateScores (board : Board) depth isMaximizing m s :
  (m, s) ∈ candidateScores board depth isMaximizing
  <-> m ∈ getAvailableMoves board
      /\ s = exactScore (place board m (if isMaximizing then AI else USER))
               (pred depth) (negb isMaximizing).
Proof.
  unfold candidateScores. rewrite list_elem_of_fmap. split.
  - intros (move & [= -> ->] & Hin). done.
  - intros [Hin ->]. by exists m.
Qed.

Lemma isDraw_empty_cell (board : Board) i :
  board !! i = Some CELL_EMPTY -> isDraw board = false.
Proof.
  intros Hi. destruct (isDraw board) eqn:Hd; [| done].
  apply isDraw_spec in Hd as [Hfull _]. rewrite Forall_forall in Hfull.
  exfalso. apply (Hfull CELL_EMPTY); [| done]. apply list_elem_of_lookup. eauto.
Qed.

Lemma terminalScore_in_progress (board : Board) depth i :
  checkWinner board = None -> board !! i = Some CELL_EMPTY ->
  terminalScore board (S depth) = None.
Proof.
  intros Hw Hi. unfold terminalScore. by rewrite Hw, (isDraw_empty_cell _ _ Hi).
Qed.

(** The choice of a full-window search of [S depth] plies: the first
    candidate, in ascending order of index, that no candidate beats. *)
Lemma minimax_top_choice (board : Board) depth isMaximizing :
  (length board <= 9)%nat ->
  terminalScore board (S depth) = None ->
  exists p best,
    minimax board (S depth) isMaximizing NegInfinity PosInfinity
    = Returns {| position := Some p; score := best |}
    /\ (p, best) ∈ candidateScores board (S depth) isMaximizing
    /\ (forall m s, (m, s) ∈ candidateScores board (S depth) isMaximizing ->
          better isMaximizing s best = false)
    /\ (forall m, (m, best) ∈ candidateScores board (S depth) isMaximizing -> (p <= m)%nat).
Proof.
  intros Hlen Ht.
  destruct (minimax_returns (S depth) board isMaximizing NegInfinity PosInfinity Hlen)
    as [r Hr].
  pose proof (minimax_top _ _ _ _ Ht Hr) as Hfirst.
  set (candidates := candidateScores board (S depth) isMaximizing) in *.
  destruct (firstBest_spec isMaximizing candidates
              {| position := head (getAvailableMoves board);
                 score := seedScore isMaximizing |})
    as [[_ Hnone] | (before & p & best & after & Hsplit & Heq & _ & Hbefore & Hafter)].
  - exfalso. destruct (terminalScore_None_available _ _ Ht) as [move Hmove].
    specialize (Hnone move _ (proj2 (elem_of_candidateScores _ _ _ _ _) (conj Hmove eq_refl))).
    destruct (exactScore_finite (place board move (if isMaximizing then AI else USER))
                (pred (S depth)) (negb isMaximizing)) as [z Hz].
    { by rewrite length_place. }
    rewrite Hz in Hnone. by destruct isMaximizing.
  - exists p, best. rewrite Hr, Hfirst, Heq. split; [done |].
    assert (Hasym : forall s', better isMaximizing best s' = true ->
                               better isMaximizing s' best = false).
    { intros s' Hb. destruct (better isMaximizing s' best) eqn:Hb'; [| done].
      rewrite <- (better_irrefl isMaximizing best). symmetry.
      by apply better_trans with s'. }
    split; [| split].
    + rewrite Hsplit. apply elem_of_app. right. apply list_elem_of_here.
    + intros m s. rewrite Hsplit.
      intros [Hin | [[= -> ->] | Hin]%elem_of_cons]%elem_of_app; eauto.
      apply better_irrefl.
    + intros m. rewrite Hsplit.
      intros [Hin | [[= ->] | Hin]%elem_of_cons]%elem_of_app.
      * apply Hbefore in Hin. by rewrite better_irrefl in Hin.
      * done.
      * apply Nat.lt_le_incl.
        apply (Ascending_app_later (map fst before) p (map fst after)).
        -- pose proof (getAvailableMoves_ascending board) as Hasc.
           rewrite <- (candidateScores_moves board (S depth) isMaximizing) in Hasc.
           fold candidates in Hasc. by rewrite Hsplit, map_app in Hasc.
        -- apply list_elem_of_fmap. by exists (m, best).
Qed.

(** ** The hard tier *)

Lemma getAvailableMoves_nonempty (board : Board) i :
  board !! i = Some CELL_EMPTY -> length (getAvailableMoves board) <> 0%nat.
Proof.
  intros Hi%elem_of_getAvailableMoves Hlen.
  apply length_zero_iff_nil in Hlen. rewrite Hlen in Hi. inversion Hi.
Qed.

(** What [getHardAIMove] computes on a board in play: the choice of the
    nine-ply search with the user's mark placed and the scores folded by
    minimum at the top ply. *)
Lemma getHardAIMove_choice (board : Board) :
  (length board <= 9)%nat -> checkWinner board = None ->
  (exists i, board !! i = Some CELL_EMPTY) ->
  exists p best,
    getHardAIMove board = Returns (Some p)
    /\ (p, best) ∈ candidateScores board 9 false
    /\ (forall m s, (m, s) ∈ candidateScores board 9 false -> better false s best = false)
    /\ (forall m, (m, best) ∈ candidateScores board 9 false -> (p <= m)%nat).
Proof.
  intros Hlen Hw [i Hi].
  destruct (minimax_top_choice board 8 false Hlen (terminalScore_in_progress _ 8 _ Hw Hi))
    as (p & best & Hr & Hrest).
  exists p, best. split; [| done].
  unfold getHardAIMove.
  rewrite bool_decide_eq_false_2 by by apply getAvailableMoves_nonempty with i.
  by rewrite Hr.
Qed.

(** C4.  On a board in play, [getHardAIMove] returns a candidate whose
    exact score is the best of the top ply (the least one, the top ply of
    the hard tier being searched with [isMaximizing = false]), and among
    the candidates that attain this best score it returns the one of
    lowest index.  The result does not depend on the random source.  The
    same tie-break holds for a full-window [minimax] of any depth and
    either flag: the first candidate in ascending order that none beats. *)
Theorem hard_tie_break_lowest_index (board : Board) :
  length board = 9%nat ->
  checkWinner board = None ->
  (exists i, board !! i = Some CELL_EMPTY) ->
  (exists p best,
      getHardAIMove board = Returns (Some p)
      /\ (p, best) ∈ candidateScores board 9 false
      /\ (forall m s, (m, s) ∈ candidateScores board 9 false -> num_leb best s = true)
      /\ (forall m, (m, best) ∈ candidateScores board 9 false -> (p <= m)%nat)
      /\ (forall random, getAIMove random board DIFFICULTIES_HARD = Returns (Some p)))
  /\ (forall depth isMaximizing,
        exists p best,
          minimax board (S depth) isMaximizing NegInfinity PosInfinity
          = Returns {| position := Some p; score := best |}
          /\ (p, best) ∈ candidateScores board (S depth) isMaximizing
          /\ (forall m s, (m, s) ∈ candidateScores board (S depth) isMaximizing ->
                better isMaximizing s best = false)
          /\ (forall m, (m, best) ∈ candidateScores board (S depth) isMaximizing ->
                (p <= m)%nat)).
Proof.
  intros Hlen Hw [i Hi]. split.
  - destruct (getHardAIMove_choice board) as (p & best & Hcall & Hin & Hbest & Hfirst);
      [lia | done | by exists i |].
    exists p, best. repeat split; try done.
    intros m s Hm. pose proof (Hbest m s Hm) as Hb.
    unfold better in Hb. unfold num_leb. by rewrite Hb.
  - intros depth isMaximizing. apply minimax_top_choice; [lia |].
    by apply terminalScore_in_progress with i.
Qed.

Lemma hard_tie_break_lowest_index_witness :
  exists p best,
    getHardAIMove cornerOpening = Returns (Some p)
    /\ (p, best) ∈ candidateScores cornerOpening 9 false
    /\ (forall m s, (m, s) ∈ candidateScores cornerOpening 9 false -> num_leb best s = true)
    /\ (forall m, (m, best) ∈ candidateScores cornerOpening 9 false -> (p <= m)%nat)
    /\ (forall random, getAIMove random cornerOpening DIFFICULTIES_HARD = Returns (Some p)).
Proof.
  apply (hard_tie_break_lowest_index cornerOpening).
  - reflexivity.
  - reflexivity.
  - exists 1%nat. reflexivity.
Defined.

(** C1.  After the corner opening the code answers with cell 1, the choice
    of the search that minimizes at the top ply, while the full-depth
    search with the AI maximizing at the top ply chooses the centre. *)
Theorem hard_move_differs_from_maximizing_search :
  getHardAIMove cornerOpening = Returns (Some 1%nat)
  /\ specHardAIMove cornerOpening = Some 4%nat
  /\ position (firstBest false (candidateScores cornerOpening 9 false)
                 {| position := head (getAvailableMoves cornerOpening);
                    score := PosInfinity |}) = Some 1%nat.
Proof. vm_compute. repeat split; reflexivity. Qed.

(** C2.  The corner opening is a position of a legal game with the AI to
    move.  The centre is an empty cell after which the user cannot force
    a win, yet [getHardAIMove] returns cell 1, after which the user can. *)
Theorem hard_move_loses_after_corner_opening :
  LegalPosition cornerOpening AI
  /\ cornerOpening !! 4%nat = Some CELL_EMPTY
  /\ userForcesWin 9 (place cornerOpening 4 AI) USER = false
  /\ getHardAIMove cornerOpening = Returns (Some 1%nat)
  /\ userForcesWin 9 (place cornerOpening 1 AI) USER = true.
Proof.
  split.
  - exact (legal_step (replicate 9 CELL_EMPTY) USER 0 legal_start eq_refl eq_refl).
  - vm_compute. repeat split; reflexivity.
Qed.

(** ** The user's move *)

(** A mark placed on an empty cell of a board without a winner can only
    complete a line of its own. *)
Lemma checkWinner_after_move (board : Board) move player w :
  checkWinner board = None ->
  board !! move = Some CELL_EMPTY ->
  checkWinner (place board move player) = Some w ->
  winner w = player.
Proof.
  intros Hnone Hcell Hw.
  destruct (checkWinner_owner _ _ Hw) as [Hline Hcells].
  destruct (decide (winner w = player)) as [| Hne]; [done | exfalso].
  unfold checkWinner in Hnone. rewrite scanCombinations_None, Forall_forall in Hnone.
  specialize (Hnone _ Hline).
  destruct (winningLine w) as [[a b] c].
  assert (Hold : forall i, place board move player !! i = Some (markOf (winner w)) ->
                           board !! i = Some (markOf (winner w))).
  { intros i Hi. destruct (decide (i = move)) as [-> | Hi'].
    - unfold place in Hi. rewrite list_lookup_insert_eq in Hi
        by (by apply lookup_lt_Some in Hcell).
      destruct (winner w), player; simplify_eq; done.
    - unfold place in Hi. by rewrite list_lookup_insert_ne in Hi. }
  destruct Hcells as (Ha & Hb & Hc).
  assert (Hm : lineMatches board (a, b, c) = true).
  { apply lineMatches_spec. exists (winner w). auto. }
  congruence.
Qed.

Lemma processUserMove_returns (gameState : GameState) position :
  result gameState = IN_PROGRESS ->
  currentPlayer gameState = USER ->
  isValidMove (board gameState) position = true ->
  let newBoard := <[Z.to_nat position := CELL_USER]> (board gameState) in
  let newResult :=
    match checkWinner newBoard with
    | Some _ => USER_WIN
    | None => if isDraw newBoard then DRAW else IN_PROGRESS
    end in
  processUserMove gameState position
  = Returns {| board := newBoard;
               currentPlayer := if bool_decide (newResult = IN_PROGRESS) then AI else USER;
               moves := moves gameState + 1;
               difficulty := difficulty gameState;
               result := newResult;
               gsWinner := winner <$> checkWinner newBoard;
               gsWinningLine := winningLine <$> checkWinner newBoard;
               lastAIMove := lastAIMove gameState |}.
Proof.
  intros Hres Hturn Hvalid. unfold processUserMove, makeMove.
  rewrite Hres, Hturn, Hvalid. reflexivity.
Qed.

Lemma processUserMove_throws (gameState : GameState) position :
  (result gameState <> IN_PROGRESS ->
   processUserMove gameState position = Throws GameAlreadyEndedError)
  /\ (result gameState = IN_PROGRESS -> currentPlayer gameState <> USER ->
      processUserMove gameState position = Throws (WrongTurnError USER))
  /\ (result gameState = IN_PROGRESS -> currentPlayer gameState = USER ->
      isValidMove (board gameState) position = false ->
      processUserMove gameState position = Throws (InvalidMoveError (Some position))).
Proof.
  unfold processUserMove. split; [| split].
  - intros Hres. by rewrite bool_decide_eq_false_2.
  - intros -> Hturn. simpl. by rewrite bool_decide_eq_false_2.
  - intros -> -> ->. reflexivity.
Qed.

Lemma Store_processUserMove_refines h ref gameState position :
  Store.readState h ref = Some gameState ->
  match processUserMove gameState position with
  | Throws e => Store.processUserMove h ref position = (Throws e, h)
  | Returns gameState' =>
      exists ref' h',
        Store.processUserMove h ref position = (Returns ref', h')
        /\ ref' <> ref
        /\ Store.readState h' ref' = Some gameState'
        /\ Store.readState h' ref = Some gameState
        /\ Store.preserved h h'
  end.
Proof.
  unfold Store.readState.
  destruct (Store.objects h !! ref) as [state |] eqn:Hobj; [| discriminate].
  destruct (Store.arrays h !! board state) as [cells |] eqn:Harr; [| discriminate].
  intros [= <-].
  unfold processUserMove, Store.processUserMove. simpl. rewrite Hobj.
  destruct (bool_decide (result state = IN_PROGRESS)); simpl; [| done].
  destruct (bool_decide (currentPlayer state = USER)); simpl; [| done].
  rewrite Harr.
  destruct (isValidMove cells position) eqn:Hvalid; simpl; [| done].
  destruct (makeMove cells position USER) as [newCells |] eqn:Hmove.
  2: { apply makeMove_throws in Hmove as [? _]. congruence. }
  destruct (Store_makeMove_returns _ _ _ _ _ _ Harr Hmove)
    as (newBoard & h1 & Hcall & Hfresh & Hnew & Hobjs & [Hparr Hpobj]).
  rewrite Hcall. simpl. rewrite Hnew. simpl.
  set (newRef := fresh (dom (Store.objects h1))).
  assert (Hnone : Store.objects h1 !! newRef = None).
  { apply not_elem_of_dom. apply is_fresh. }
  assert (Hne : newRef <> ref).
  { intros ->. rewrite (Hpobj _ _ Hobj) in Hnone. discriminate. }
  eexists _, _. split; [reflexivity |]. split; [done |]. simpl.
  rewrite lookup_insert_eq. simpl. rewrite Hnew.
  rewrite lookup_insert_ne by done. rewrite (Hpobj _ _ Hobj), (Hparr _ _ Harr).
  split; [done |]. split; [done |].
  split; simpl; [done |].
  intros r o Hr. rewrite lookup_insert_ne; [auto |].
  intros <-. rewrite (Hpobj _ _ Hr) in Hnone. discriminate.
Qed.

(** C5.  [processUserMove] throws the game-ended error on a state whose
    result is not in progress; otherwise the wrong-turn error when it is
    not the user's turn; otherwise the invalid-move error when the
    position is outside [0, 8] or the cell is occupied.  A failure is an
    error only, and on the store it leaves every array and object as it
    was.  On success the new state holds the board with the user's mark at
    the position and one move more; its winner and winning line are those
    [checkWinner] reports on the new board; its result is a win when there
    is one, a draw when the board is full, in progress otherwise (which is
    [getGameResult] of the new board when the board had no winner
    before); its current player is the AI exactly when the result is in
    progress and the user otherwise; difficulty and last AI move are
    carried over.  On the store the new state is a new object: the state
    and the board passed in are unchanged. *)
Theorem processUserMove_contract (gameState : GameState) (position : Z) :
  (result gameState <> IN_PROGRESS ->
   processUserMove gameState position = Throws GameAlreadyEndedError)
  /\ (result gameState = IN_PROGRESS -> currentPlayer gameState <> USER ->
      processUserMove gameState position = Throws (WrongTurnError USER))
  /\ (result gameState = IN_PROGRESS -> currentPlayer gameState = USER ->
      (position < 0 \/ 8 < position
       \/ exists cell, board gameState !! Z.to_nat position = Some cell /\ cell <> CELL_EMPTY) ->
      processUserMove gameState position = Throws (InvalidMoveError (Some position)))
  /\ (result gameState = IN_PROGRESS -> currentPlayer gameState = USER ->
      isValidMove (board gameState) position = true ->
      exists gameState',
        processUserMove gameState position = Returns gameState'
        /\ board gameState' = <[Z.to_nat position := CELL_USER]> (board gameState)
        /\ moves gameState' = moves gameState + 1
        /\ gsWinner gameState' = winner <$> checkWinner (board gameState')
        /\ gsWinningLine gameState' = winningLine <$> checkWinner (board gameState')
        /\ result gameState'
           = match checkWinner (board gameState') with
             | Some _ => USER_WIN
             | None => if isDraw (board gameState') then DRAW else IN_PROGRESS
             end
        /\ (checkWinner (board gameState) = None ->
            result gameState' = getGameResult (board gameState'))
        /\ (currentPlayer gameState' = AI <-> result gameState' = IN_PROGRESS)
        /\ (result gameState' <> IN_PROGRESS -> currentPlayer gameState' = USER)
        /\ difficulty gameState' = difficulty gameState
        /\ lastAIMove gameState' = lastAIMove gameState)
  /\ (forall h ref,
        Store.readState h ref = Some gameState ->
        match processUserMove gameState position with
        | Throws e => Store.processUserMove h ref position = (Throws e, h)
        | Returns gameState' =>
            exists ref' h',
              Store.processUserMove h ref position = (Returns ref', h')
              /\ ref' <> ref
              /\ Store.readState h' ref' = Some gameState'
              /\ Store.readState h' ref = Some gameState
              /\ Store.preserved h h'
        end).
Proof.
  destruct (processUserMove_throws gameState position) as (Hended & Hturn & Hinvalid).
  split; [done |]. split; [done |]. split; [| split].
  - intros Hres Huser Hbad. apply Hinvalid; try done.
    destruct (isValidMove (board gameState) position) eqn:Hv; [| done].
    apply isValidMove_spec in Hv as [Hrange Hcell].
    destruct Hbad as [? | [? | (cell & Hc & Hne)]]; [lia | lia | congruence].
  - intros Hres Huser Hvalid.
    eexists. split; [by apply processUserMove_returns |]. simpl.
    set (newBoard := <[Z.to_nat position := CELL_USER]> (board gameState)).
    repeat split; try done.
    + intros Hnone. unfold getGameResult.
      destruct (checkWinner newBoard) as [w |] eqn:Hw; [| done].
      apply isValidMove_spec in Hvalid as [_ Hcell].
      by rewrite (checkWinner_after_move (board gameState) (Z.to_nat position) USER w).
    + case_bool_decide; done.
    + intros ->. by rewrite bool_decide_eq_true_2.
    + case_bool_decide; done.
  - intros h ref. apply Store_processUserMove_refines.
Qed.

Lemma processUserMove_contract_witness :
  exists gameState',
    processUserMove (createInitialGameState DIFFICULTIES_HARD) 0 = Returns gameState'
    /\ board gameState' = cornerOpening
    /\ moves gameState' = 1
    /\ currentPlayer gameState' = AI
    /\ result gameState' = IN_PROGRESS.
Proof.
  destruct (processUserMove_contract (createInitialGameState DIFFICULTIES_HARD) 0)
    as (_ & _ & _ & Hok & _).
  destruct (Hok eq_refl eq_refl eq_refl)
    as (gameState' & Hcall & Hboard & Hmoves & _ & _ & Hresult & _ & Hturn & _).
  exists gameState'. rewrite Hboard in Hresult.
  repeat split; try done. by apply Hturn.
Defined.

(** ** Reachable states *)

Lemma occupiedCells_cons cell (rest : Board) :
  occupiedCells (cell :: rest)
  = ((if bool_decide (cell = CELL_EMPTY) then 0 else 1) + occupiedCells rest)%nat.
Proof.
  unfold occupiedCells. destruct cell; reflexivity.
Qed.

Lemma occupiedCells_place (board : Board) move player :
  board !! move = Some CELL_EMPTY ->
  occupiedCells (place board move player) = S (occupiedCells board).
Proof.
  unfold place. revert move. induction board as [| cell rest IH]; intros move Hm.
  - discriminate.
  - destruct move as [| move]; simpl in *.
    + injection Hm as ->. rewrite !occupiedCells_cons.
      rewrite bool_decide_eq_false_2 by by destruct player. done.
    + rewrite !occupiedCells_cons, (IH _ Hm). lia.
Qed.

Lemma occupiedCells_le (board : Board) : (occupiedCells board <= length board)%nat.
Proof.
  induction board as [| cell rest IH]; [done |].
  rewrite occupiedCells_cons. simpl. case_bool_decide; lia.
Qed.

Lemma occupiedCells_full (board : Board) i :
  board !! i = Some CELL_EMPTY -> (occupiedCells board < length board)%nat.
Proof.
  revert i. induction board as [| cell rest IH]; intros i Hi; [discriminate |].
  rewrite occupiedCells_cons. destruct i as [| i]; simpl in *.
  - injection Hi as ->. rewrite bool_decide_eq_true_2 by done.
    pose proof (occupiedCells_le rest). lia.
  - specialize (IH _ Hi). case_bool_decide; lia.
Qed.

(** What a successful call of either player has done. *)
Lemma processUserMove_inversion (gameState gameState' : GameState) position :
  processUserMove gameState position = Returns gameState' ->
  exists move,
    board gameState !! move = Some CELL_EMPTY
    /\ board gameState' = place (board gameState) move USER
    /\ moves gameState' = moves gameState + 1
    /\ (result gameState' = IN_PROGRESS ->
        checkWinner (board gameState') = None /\ isDraw (board gameState') = false).
Proof.
  destruct (processUserMove_throws gameState position) as (Hended & Hturn & Hinvalid).
  destruct (decide (result gameState = IN_PROGRESS)) as [Hres |];
    [| rewrite Hended by done; discriminate].
  destruct (decide (currentPlayer gameState = USER)) as [Huser |];
    [| rewrite Hturn by done; discriminate].
  destruct (isValidMove (board gameState) position) eqn:Hvalid;
    [| rewrite Hinvalid by done; discriminate].
  rewrite (processUserMove_returns _ _ Hres Huser Hvalid). intros [= <-]. simpl.
  apply isValidMove_spec in Hvalid as [_ Hcell].
  exists (Z.to_nat position). repeat split; try done;
    destruct (checkWinner _); try done; destruct (isDraw _); done.
Qed.

Lemma processAIMove_inversion random (gameState gameState' : GameState) :
  processAIMove random gameState = Returns gameState' ->
  exists move,
    board gameState !! move = Some CELL_EMPTY
    /\ board gameState' = place (board gameState) move AI
    /\ moves gameState' = moves gameState + 1
    /\ (result gameState' = IN_PROGRESS ->
        checkWinner (board gameState') = None /\ isDraw (board gameState') = false).
Proof.
  unfold processAIMove.
  destruct (bool_decide (result gameState = IN_PROGRESS)); simpl; [| discriminate].
  destruct (bool_decide (currentPlayer gameState = AI)); simpl; [| discriminate].
  destruct (getAIMove random (board gameState) (difficulty gameState)) as [[move |] |];
    simpl; try discriminate.
  destruct (makeMove (board gameState) (Z.of_nat move) AI) as [newBoard |] eqn:Hmove;
    simpl; [| discriminate].
  pose proof (makeMove_nat_returns _ _ _ _ Hmove) as ->.
  apply makeMove_returns in Hmove as [[_ Hcell]%isValidMove_spec _].
  rewrite Nat2Z.id in Hcell.
  intros [= <-]. simpl. exists move. repeat split; try done;
    destruct (checkWinner _); try done; destruct (isDraw _); done.
Qed.

Lemma Reachable_invariant (gameState : GameState) :
  Reachable gameState ->
  length (board gameState) = 9%nat
  /\ moves gameState = Z.of_nat (occupiedCells (board gameState))
  /\ (result gameState = IN_PROGRESS ->
      exists i, board gameState !! i = Some CELL_EMPTY).
Proof.
  assert (Hstep : forall (s s' : GameState) move player,
    (length (board s) = 9%nat /\ moves s = Z.of_nat (occupiedCells (board s))
     /\ (result s = IN_PROGRESS -> exists i, board s !! i = Some CELL_EMPTY)) ->
    board s !! move = Some CELL_EMPTY ->
    board s' = place (board s) move player ->
    moves s' = moves s + 1 ->
    (result s' = IN_PROGRESS -> checkWinner (board s') = None /\ isDraw (board s') = false) ->
    length (board s') = 9%nat /\ moves s' = Z.of_nat (occupiedCells (board s'))
    /\ (result s' = IN_PROGRESS -> exists i, board s' !! i = Some CELL_EMPTY)).
  { intros s s' move player (Hlen & Hmoves & _) Hcell Hboard Hcount Hres.
    rewrite Hboard, length_place, (occupiedCells_place _ _ _ Hcell).
    split; [done |]. split; [lia |].
    intros [Hw Hd]%Hres. rewrite <- Hboard. by apply isDraw_false_available. }
  induction 1 as [difficulty | s position s' _ IH Hcall | random s s' _ IH Hcall].
  - split; [reflexivity |]. split; [reflexivity |].
    intros _. by exists 0%nat.
  - apply processUserMove_inversion in Hcall as (move & ? & ? & ? & ?).
    by apply (Hstep s s' move USER).
  - apply processAIMove_inversion in Hcall as (move & ? & ? & ? & ?).
    by apply (Hstep s s' move AI).
Qed.

(** C6.  In every state reached from an initial state by successful
    calls of [processUserMove] and [processAIMove], [moves] is the number
    of non-empty cells of the board, it is at most 9, and a state with 9
    moves is not in progress. *)
Theorem reachable_moves_count (gameState : GameState) :
  Reachable gameState ->
  moves gameState = Z.of_nat (occupiedCells (board gameState))
  /\ moves gameState <= 9
  /\ (moves gameState = 9 -> result gameState <> IN_PROGRESS).
Proof.
  intros (Hlen & Hmoves & Hprogress)%Reachable_invariant.
  pose proof (occupiedCells_le (board gameState)).
  split; [done |]. split; [lia |].
  intros Hnine [i Hi%occupiedCells_full]%Hprogress. lia.
Qed.

Lemma reachable_moves_count_witness :
  let gameState :=
    {| board := cornerOpening; currentPlayer := AI; moves := 1;
       difficulty := DIFFICULTIES_HARD; result := IN_PROGRESS;
       gsWinner := None; gsWinningLine := None; lastAIMove := None |} in
  Reachable gameState
  /\ moves gameState = Z.of_nat (occupiedCells (board gameState))
  /\ moves gameState <= 9
  /\ (moves gameState = 9 -> result gameState <> IN_PROGRESS).
Proof.
  intros gameState.
  assert (Hreach : Reachable gameState).
  { apply (reach_user (createInitialGameState DIFFICULTIES_HARD) 0).
    - apply reach_init.
    - reflexivity. }
  split; [exact Hreach |].
  exact (reachable_moves_count gameState Hreach).
Defined.

(** ** The AI's move is always playable *)

(** Powers of two. *)
Lemma pow2_pos e : (0 < pow2 e)%Q.
Proof. apply Qpower_0_lt. reflexivity. Qed.

Lemma pow2_plus a b : (pow2 (a + b) == pow2 a * pow2 b)%Q.
Proof. apply Qpower_plus. discriminate. Qed.

Lemma pow2_le a b : a <= b -> (pow2 a <= pow2 b)%Q.
Proof. intros H. apply Qpower_le_compat_l; [done | discriminate]. Qed.

Lemma pow2_lt a b : a < b -> (pow2 a < pow2 b)%Q.
Proof. intros H. apply Qpower_lt_compat_l; [done | reflexivity]. Qed.

Lemma pow2_inject e : 0 <= e -> (pow2 e == inject_Z (2 ^ e))%Q.
Proof. intros H. unfold pow2. rewrite Zpower_Qpower by done. reflexivity. Qed.

Lemma log2_bounds (a : Z) :
  0 < a -> (pow2 (Z.log2 a) <= inject_Z a)%Q /\ (inject_Z a < pow2 (Z.log2 a + 1))%Q.
Proof.
  intros Ha. pose proof (Z.log2_nonneg a) as Hnn.
  destruct (Z.log2_spec a Ha) as [Hlo Hhi].
  rewrite !pow2_inject by lia. rewrite <- Zle_Qle, <- Zlt_Qlt.
  replace (Z.log2 a + 1) with (Z.succ (Z.log2 a)) by lia. done.
Qed.

(** [Qlog2 x] is the exponent of the power of two at or below [x]. *)
Lemma Qlog2_bounds (x : Q) :
  (0 < x)%Q -> (pow2 (Qlog2 x) <= x)%Q /\ (x < pow2 (Qlog2 x + 1))%Q.
Proof.
  intros Hx. destruct x as [a b].
  assert (Ha : 0 < a) by (unfold Qlt in Hx; simpl in Hx; lia).
  destruct (log2_bounds a Ha) as [Halo Hahi].
  destruct (log2_bounds (Z.pos b) eq_refl) as [Hblo Hbhi].
  assert (Hb : (0 < inject_Z (Z.pos b))%Q) by reflexivity.
  assert (Hab : (a # b == inject_Z a / inject_Z (Z.pos b))%Q) by apply Qmake_Qdiv.
  unfold Qlog2. cbn [Qnum Qden].
  set (la := Z.log2 a) in *. set (lb := Z.log2 (Z.pos b)) in *.
  destruct (Qle_bool (pow2 (la - lb)) (a # b)) eqn:Hcmp.
  - apply Qle_bool_iff in Hcmp. split; [done |].
    rewrite Hab. apply Qlt_shift_div_r; [done |].
    eapply Qlt_le_trans; [exact Hahi |].
    replace (la + 1) with (la - lb + 1 + lb) by lia. rewrite pow2_plus.
    apply Qmult_le_l; [apply pow2_pos | done].
  - split.
    + rewrite Hab. apply Qle_shift_div_l; [done |].
      eapply Qle_trans; [| exact Halo].
      replace la with (la - lb - 1 + (lb + 1)) at 2 by lia. rewrite pow2_plus.
      apply Qmult_le_l; [apply pow2_pos | by apply Qlt_le_weak].
    + replace (la - lb - 1 + 1) with (la - lb) by lia.
      apply Qnot_le_lt. intros H%Qle_bool_iff. congruence.
Qed.

(** Rounding to the nearest integer adds at most one half. *)
Lemma roundHalfEven_le (x : Q) : (inject_Z (roundHalfEven x) <= x + (1 # 2))%Q.
Proof.
  unfold roundHalfEven.
  pose proof (Qfloor_le x) as Hlo.
  assert (Hnext : (inject_Z (Qfloor x + 1) == inject_Z (Qfloor x) + 1)%Q)
    by (rewrite inject_Z_plus; reflexivity).
  destruct (x - inject_Z (Qfloor x) ?= 1 # 2)%Q eqn:Hcmp.
  - apply Qeq_alt in Hcmp. destruct (Z.even (Qfloor x)); [lra | rewrite Hnext; lra].
  - lra.
  - apply Qgt_alt in Hcmp. rewrite Hnext. lra.
Qed.

(** A double-precision number below 1 is at most 1 - 2^-53. *)
Lemma double_below_one (r : Q) :
  isDouble r = true -> (0 < r)%Q -> (r < 1)%Q -> (r <= 1 - pow2 (-53))%Q.
Proof.
  unfold isDouble, roundDouble. intros Hd Hpos Hlt.
  destruct (Qeq_bool r 0) eqn:Hz.
  { apply Qeq_bool_iff in Hz. lra. }
  apply Qeq_bool_iff in Hd.
  assert (Habs : Qabs r = r).
  { destruct r as [[| a | a] b]; try done. }
  unfold ulpExponent in Hd. rewrite Habs in Hd.
  destruct (Qlog2_bounds r Hpos) as [Hlo Hhi].
  set (j := Qlog2 r) in *.
  assert (Hj : j < 0).
  { destruct (Z.ltb_spec j 0) as [| Hge]; [done |].
    pose proof (pow2_le 0 j Hge) as H0. change (pow2 0) with 1%Q in H0. lra. }
  destruct (Z.eq_dec j (-1)) as [Hj1 | Hj1].
  - rewrite Hj1 in Hd. change (Z.max (-1 - 52) (-1074)) with (-53) in Hd.
    set (K := roundHalfEven (r / pow2 (-53))) in *.
    assert (HK : K < 2 ^ 53).
    { rewrite Zlt_Qlt. change (inject_Z (2 ^ 53)) with (/ pow2 (-53))%Q.
      pose proof (pow2_pos (-53)) as Hp.
      apply Qmult_lt_r with (pow2 (-53)); [done |].
      rewrite Hd. rewrite Qmult_comm, Qmult_inv_r; [done | lra]. }
    rewrite <- Hd.
    assert (HK' : (inject_Z K <= inject_Z (2 ^ 53 - 1))%Q) by (rewrite <- Zle_Qle; lia).
    assert (Hone : (1 - pow2 (-53) == inject_Z (2 ^ 53 - 1) * pow2 (-53))%Q) by reflexivity.
    rewrite Hone. apply Qmult_le_r; [apply pow2_pos | done].
  - assert (Hhalf : (pow2 (j + 1) <= pow2 (-1))%Q) by (apply pow2_le; lia).
    assert (Hc : (pow2 (-1) <= 1 - pow2 (-53))%Q) by (unfold Qle; vm_compute; discriminate).
    lra.
Qed.

(** Rounding to the nearest double adds at most half a unit in the last
    place. *)
Lemma roundDouble_le (x : Q) :
  (0 < x)%Q -> (roundDouble x <= x + pow2 (ulpExponent x) * (1 # 2))%Q.
Proof.
  intros Hx. unfold roundDouble.
  destruct (Qeq_bool x 0) eqn:Hz.
  { apply Qeq_bool_iff in Hz. lra. }
  set (ulp := pow2 (ulpExponent x)).
  assert (Hulp : (0 < ulp)%Q) by apply pow2_pos.
  pose proof (roundHalfEven_le (x / ulp)) as Hr.
  apply (Qmult_le_r _ _ ulp Hulp) in Hr.
  eapply Qle_trans; [exact Hr |].
  rewrite Qmult_plus_distr_l.
  assert (Hdiv : (x / ulp * ulp == x)%Q) by (field; lra).
  rewrite Hdiv. lra.
Qed.

(** The half unit in the last place of a positive number is at most the
    number times 2^-53, unless the number is below the normal range. *)
Lemma half_ulp_bound (x : Q) :
  (0 < x)%Q ->
  (pow2 (ulpExponent x) * (1 # 2) <= x * pow2 (-53))%Q
  \/ (pow2 (ulpExponent x) * (1 # 2) == pow2 (-1075))%Q.
Proof.
  intros Hx.
  assert (Habs : Qabs x = x).
  { destruct x as [[| a | a] b]; try done. }
  unfold ulpExponent. rewrite Habs.
  destruct (Qlog2_bounds x Hx) as [Hlo _].
  set (j := Qlog2 x) in *.
  destruct (Z.max_spec (j - 52) (-1074)) as [[_ ->] | [_ ->]].
  - right. reflexivity.
  - left. replace (j - 52) with (j + -52) by lia. rewrite pow2_plus.
    assert (Hc : (pow2 (-52) * (1 # 2) == pow2 (-53))%Q) by reflexivity.
    rewrite <- Qmult_assoc, Hc.
    apply Qmult_le_r; [apply pow2_pos | done].
Qed.

(** The double nearest to the product of a double below 1 and a positive
    integer is below that integer. *)
Lemma roundDouble_product_lt (r : Q) (n : Z) :
  isDouble r = true -> (0 <= r)%Q -> (r < 1)%Q -> 0 < n ->
  (roundDouble (r * inject_Z n) < inject_Z n)%Q.
Proof.
  intros Hd Hlo Hhi Hn.
  assert (HN : (1 <= inject_Z n)%Q) by (rewrite <- (Zle_Qle 1); lia).
  destruct (Qeq_bool (r * inject_Z n) 0) eqn:Hz.
  { unfold roundDouble. rewrite Hz. lra. }
  assert (Hr : (0 < r)%Q).
  { apply Qle_lteq in Hlo as [Hlt | Heq]; [done |].
    assert (Hzero : (r * inject_Z n == 0)%Q) by (rewrite <- Heq; ring).
    apply Qeq_bool_iff in Hzero. congruence. }
  set (x := (r * inject_Z n)%Q) in *.
  assert (Hx : (0 < x)%Q) by (apply Qmult_lt_0_compat; lra).
  pose proof (double_below_one r Hd Hr Hhi) as Hmax.
  pose proof (pow2_pos (-53)) as Hp.
  assert (Hgap : (x + inject_Z n * pow2 (-53) <= inject_Z n)%Q).
  { unfold x. nra. }
  eapply Qle_lt_trans; [by apply roundDouble_le |].
  destruct (half_ulp_bound x Hx) as [Hhalf | ->].
  - assert (Hxn : (x < inject_Z n)%Q) by nra.
    assert (Hlt : (x * pow2 (-53) < inject_Z n * pow2 (-53))%Q)
      by (apply Qmult_lt_r; done).
    lra.
  - assert (Hc : (pow2 (-1075) < pow2 (-53))%Q) by (apply pow2_lt; lia).
    nra.
Qed.

(** [Math.floor(Math.random() * n)] is an index below [n]. *)
Lemma randomIndex_lt (r : Q) (n : nat) :
  isDouble r = true -> (0 <= r)%Q -> (r < 1)%Q -> (0 < n)%nat ->
  (randomIndex r n < n)%nat.
Proof.
  intros Hd Hlo Hhi Hn. unfold randomIndex.
  pose proof (roundDouble_product_lt r (Z.of_nat n) Hd Hlo Hhi ltac:(lia)) as Hlt.
  assert (Hf : Qfloor (roundDouble (r * inject_Z (Z.of_nat n))) < Z.of_nat n).
  { rewrite Zlt_Qlt. eapply Qle_lt_trans; [apply Qfloor_le | exact Hlt]. }
  lia.
Qed.

(** ** The double product against the standard library's binary64 *)

(** The number of binary digits of a significand. *)
Lemma digits2_log2 (p : positive) : Z.pos (digits2_pos p) = Z.log2 (Z.pos p) + 1.
Proof.
  induction p as [p IH | p IH |]; [| | reflexivity].
  - change (Z.pos p~1) with (2 * Z.pos p + 1).
    rewrite Z.log2_succ_double by lia. simpl digits2_pos. lia.
  - change (Z.pos p~0) with (2 * Z.pos p).
    rewrite Z.log2_double by lia. simpl digits2_pos. lia.
Qed.

(** The right shift of the specification, digit by digit. *)
Lemma iter_pos_nat {A} (f : A -> A) (p : positive) (x : A) :
  SpecFloat.iter_pos f p x = Nat.iter (Pos.to_nat p) f x.
Proof.
  revert x. induction p as [p IH | p IH |]; intros x; simpl SpecFloat.iter_pos.
  - rewrite !IH, Pos2Nat.inj_xI.
    replace (S (2 * Pos.to_nat p)) with (Pos.to_nat p + (Pos.to_nat p + 1))%nat by lia.
    rewrite !Nat.iter_add. reflexivity.
  - rewrite !IH, Pos2Nat.inj_xO.
    replace (2 * Pos.to_nat p)%nat with (Pos.to_nat p + Pos.to_nat p)%nat by lia.
    rewrite Nat.iter_add. reflexivity.
  - reflexivity.
Qed.

Lemma shr_1_nonneg (m : Z) (r s : bool) :
  0 <= m ->
  shr_1 {| shr_m := m; shr_r := r; shr_s := s |}
  = {| shr_m := m / 2; shr_r := Z.odd m; shr_s := r || s |}.
Proof.
  intros Hm. destruct m as [| [p | p |] |]; try lia; unfold shr_1.
  - reflexivity.
  - f_equal. apply (Z.div_unique _ 2 _ 1); lia.
  - f_equal. apply (Z.div_unique _ 2 _ 0); lia.
  - reflexivity.
Qed.

(** After [k + 1] shifts the record holds the quotient by [2^(k+1)], the
    last digit dropped, and whether a digit dropped before it was set. *)
Lemma shr_iter (m : Z) (k : nat) :
  0 <= m ->
  Nat.iter (S k) shr_1 {| shr_m := m; shr_r := false; shr_s := false |}
  = {| shr_m := m / 2 ^ Z.of_nat (S k);
       shr_r := Z.odd (m / 2 ^ Z.of_nat k);
       shr_s := negb (m mod 2 ^ Z.of_nat k =? 0) |}.
Proof.
  intros Hm. induction k as [| k IH].
  - change (Nat.iter 1 shr_1 ?x) with (shr_1 x). rewrite shr_1_nonneg by done.
    change (2 ^ Z.of_nat 1) with 2. change (2 ^ Z.of_nat 0) with 1.
    rewrite Z.div_1_r, Z.mod_1_r. reflexivity.
  - change (Nat.iter (S (S k)) shr_1 ?x) with (shr_1 (Nat.iter (S k) shr_1 x)).
    rewrite IH. rewrite shr_1_nonneg by (apply Z.div_pos; lia).
    assert (Hpow : 2 ^ Z.of_nat (S k) = 2 ^ Z.of_nat k * 2).
    { rewrite Nat2Z.inj_succ, Z.pow_succ_r by lia. lia. }
    assert (Hpos : 0 < 2 ^ Z.of_nat k) by (apply Z.pow_pos_nonneg; lia).
    f_equal.
    + rewrite Z.div_div by lia.
      rewrite (Nat2Z.inj_succ (S k)), Z.pow_succ_r by lia. f_equal. lia.
    + rewrite Hpow, Z.rem_mul_r by lia.
      pose proof (Z.mod_pos_bound m (2 ^ Z.of_nat k) Hpos) as Hrem.
      rewrite Zodd_mod.
      pose proof (Z.mod_pos_bound (m / 2 ^ Z.of_nat k) 2 ltac:(lia)) as Hbit.
      destruct (Z.eqb_spec (m mod 2 ^ Z.of_nat k) 0) as [Hz | Hz];
        destruct (Z.eqb_spec ((m / 2 ^ Z.of_nat k) mod 2) 1) as [Hb | Hb];
        simpl; symmetry.
      * rewrite Hz, Hb. apply negb_true_iff, Z.eqb_neq. lia.
      * apply negb_false_iff, Z.eqb_eq. nia.
      * apply negb_true_iff, Z.eqb_neq. nia.
      * apply negb_true_iff, Z.eqb_neq. nia.
Qed.

(** [Qlog2] and [ulpExponent] do not depend on how a rational is written. *)
Lemma Qlog2_unique (x : Q) (j : Z) :
  (pow2 j <= x)%Q -> (x < pow2 (j + 1))%Q -> Qlog2 x = j.
Proof.
  intros Hlo Hhi.
  assert (Hx : (0 < x)%Q) by (pose proof (pow2_pos j); lra).
  destruct (Qlog2_bounds x Hx) as [Hlo' Hhi'].
  assert (H1 : Qlog2 x < j + 1).
  { apply (Qpower_lt_compat_l_inv 2); [| reflexivity].
    eapply Qle_lt_trans; [exact Hlo' | exact Hhi]. }
  assert (H2 : j < Qlog2 x + 1).
  { apply (Qpower_lt_compat_l_inv 2); [| reflexivity].
    eapply Qle_lt_trans; [exact Hlo | exact Hhi']. }
  lia.
Qed.

Lemma Qlog2_comp (x y : Q) : (0 < x)%Q -> (x == y)%Q -> Qlog2 x = Qlog2 y.
Proof.
  intros Hx Hxy. symmetry. destruct (Qlog2_bounds x Hx) as [Hlo Hhi].
  apply Qlog2_unique; rewrite <- Hxy; done.
Qed.

Lemma ulpExponent_comp (x y : Q) :
  (0 < x)%Q -> (x == y)%Q -> ulpExponent x = ulpExponent y.
Proof.
  intros Hx Hxy. unfold ulpExponent. f_equal. f_equal.
  apply Qlog2_comp; [| by rewrite Hxy].
  rewrite Qabs_pos; lra.
Qed.

Lemma ulpExponent_dyadic (m : positive) (e : Z) :
  ulpExponent (inject_Z (Z.pos m) * pow2 e)
  = Z.max (Z.log2 (Z.pos m) + e - 52) (-1074).
Proof.
  pose proof (pow2_pos e) as He.
  destruct (log2_bounds (Z.pos m) eq_refl) as [Hlo Hhi].
  set (x := (inject_Z (Z.pos m) * pow2 e)%Q).
  assert (Hx : (0 < x)%Q) by (apply Qmult_lt_0_compat; [reflexivity | done]).
  unfold ulpExponent. f_equal. f_equal.
  apply Qlog2_unique; rewrite Qabs_pos by lra.
  - rewrite pow2_plus. apply Qmult_le_r; done.
  - replace (Z.log2 (Z.pos m) + e + 1) with (Z.log2 (Z.pos m) + 1 + e) by lia.
    rewrite pow2_plus. apply Qmult_lt_r; done.
Qed.

(** So neither do the two roundings. *)
Lemma roundHalfEven_comp (x y : Q) : (x == y)%Q -> roundHalfEven x = roundHalfEven y.
Proof.
  intros Hxy. unfold roundHalfEven. rewrite (Qfloor_comp x y Hxy).
  assert (Hc : (x - inject_Z (Qfloor y) ?= 1 # 2)%Q = (y - inject_Z (Qfloor y) ?= 1 # 2)%Q)
    by (by rewrite Hxy).
  by rewrite Hc.
Qed.

Lemma roundHalfEven_Z (z : Z) : roundHalfEven (inject_Z z) = z.
Proof.
  unfold roundHalfEven. rewrite Qfloor_Z.
  assert (Hc : (inject_Z z - inject_Z z ?= 1 # 2)%Q = Lt).
  { apply (proj1 (Qlt_alt _ _)). generalize (inject_Z z). intros q. lra. }
  by rewrite Hc.
Qed.

Lemma roundDouble_comp (x y : Q) : (0 < x)%Q -> (x == y)%Q -> (roundDouble x == roundDouble y)%Q.
Proof.
  intros Hx Hxy. unfold roundDouble.
  assert (Hx0 : Qeq_bool x 0 = false).
  { apply not_true_is_false. intros H%Qeq_bool_iff. lra. }
  assert (Hy0 : Qeq_bool y 0 = false).
  { apply not_true_is_false. intros H%Qeq_bool_iff. lra. }
  rewrite Hx0, Hy0. cbv zeta.
  rewrite (ulpExponent_comp x y Hx Hxy).
  rewrite (roundHalfEven_comp (x / pow2 (ulpExponent y)) (y / pow2 (ulpExponent y)));
    [reflexivity | by rewrite Hxy].
Qed.

(** The rounding of a shifted significand. *)
Lemma round_shift (m : Z) (k : nat) :
  0 <= m ->
  round_nearest_even (m / 2 ^ Z.of_nat (S k))
    (loc_of_shr_record
       {| shr_m := m / 2 ^ Z.of_nat (S k);
          shr_r := Z.odd (m / 2 ^ Z.of_nat k);
          shr_s := negb (m mod 2 ^ Z.of_nat k =? 0) |})
  = roundHalfEven (inject_Z m / inject_Z (2 ^ Z.of_nat (S k))).
Proof.
  intros Hm.
  assert (Hpow : 2 ^ Z.of_nat (S k) = 2 ^ Z.of_nat k * 2).
  { rewrite Nat2Z.inj_succ, Z.pow_succ_r by lia. lia. }
  set (P := 2 ^ Z.of_nat k) in *.
  assert (HP : 0 < P) by (apply Z.pow_pos_nonneg; lia).
  rewrite Hpow. set (q := m / (P * 2)).
  pose proof (Z.mod_pos_bound m P HP) as Hrem.
  pose proof (Z.mod_pos_bound (m / P) 2 ltac:(lia)) as Hbit.
  assert (Hq : m / P = 2 * q + (m / P) mod 2).
  { unfold q. rewrite <- Z.div_div by lia. apply Z.div_mod. lia. }
  assert (Hsplit : m = P * 2 * q + (P * ((m / P) mod 2) + m mod P)).
  { pose proof (Z.div_mod m P ltac:(lia)). lia. }
  unfold roundHalfEven.
  assert (Hfloor : Qfloor (inject_Z m / inject_Z (P * 2)) = q) by (by rewrite <- Zdiv_Qdiv).
  rewrite Hfloor.
  set (t := (inject_Z m / inject_Z (P * 2) - inject_Z q)%Q).
  assert (HD : (0 < inject_Z (P * 2))%Q) by (rewrite <- (Zlt_Qlt 0); lia).
  assert (HP' : (0 < inject_Z P)%Q) by (rewrite <- (Zlt_Qlt 0); lia).
  assert (Ht : (t * inject_Z (P * 2) == inject_Z (P * ((m / P) mod 2) + m mod P))%Q).
  { unfold t. rewrite Hsplit at 1. rewrite !inject_Z_plus, !inject_Z_mult.
    field. lra. }
  rewrite Zodd_mod.
  assert (Hhalf : (inject_Z (P * 2) == 2 * inject_Z P)%Q)
    by (rewrite inject_Z_mult; ring).
  destruct (Z.eqb_spec ((m / P) mod 2) 1) as [Hb | Hb];
    destruct (Z.eqb_spec (m mod P) 0) as [Hz | Hz]; simpl.
  - assert (Hc : (t ?= 1 # 2)%Q = Eq).
    { apply (proj1 (Qeq_alt _ _)). rewrite Hb, Hz, Z.mul_1_r, Z.add_0_r in Ht. nra. }
    by rewrite Hc.
  - assert (Hc : (t ?= 1 # 2)%Q = Gt).
    { apply (proj1 (Qgt_alt _ _)). rewrite Hb, Z.mul_1_r in Ht.
      assert (Hlt : (inject_Z P < inject_Z (P + m mod P))%Q) by (rewrite <- Zlt_Qlt; lia).
      nra. }
    by rewrite Hc.
  - assert (Hc : (t ?= 1 # 2)%Q = Lt).
    { apply (proj1 (Qlt_alt _ _)). replace ((m / P) mod 2) with 0 in Ht by lia.
      rewrite Hz, Z.mul_0_r, Z.add_0_l in Ht. change (inject_Z 0) with 0%Q in Ht.
      nra. }
    by rewrite Hc.
  - assert (Hc : (t ?= 1 # 2)%Q = Lt).
    { apply (proj1 (Qlt_alt _ _)). replace ((m / P) mod 2) with 0 in Ht by lia.
      rewrite Z.mul_0_r, Z.add_0_l in Ht.
      assert (Hlt : (inject_Z (m mod P) < inject_Z P)%Q) by (rewrite <- Zlt_Qlt; lia).
      nra. }
    by rewrite Hc.
Qed.

Lemma shr_pos (m : Z) (p : positive) :
  0 <= m ->
  SpecFloat.iter_pos shr_1 p {| shr_m := m; shr_r := false; shr_s := false |}
  = {| shr_m := m / 2 ^ Z.pos p;
       shr_r := Z.odd (m / 2 ^ (Z.pos p - 1));
       shr_s := negb (m mod 2 ^ (Z.pos p - 1) =? 0) |}.
Proof.
  intros Hm. rewrite iter_pos_nat.
  destruct (Pos2Nat.is_succ p) as [k Hk]. rewrite Hk, shr_iter by done.
  assert (H1 : Z.of_nat (S k) = Z.pos p) by (rewrite <- Hk; apply positive_nat_Z).
  assert (H2 : Z.of_nat k = Z.pos p - 1) by lia.
  by rewrite H1, H2.
Qed.

Lemma round_pos (m : Z) (p : positive) :
  0 <= m ->
  round_nearest_even (m / 2 ^ Z.pos p)
    (loc_of_shr_record
       {| shr_m := m / 2 ^ Z.pos p;
          shr_r := Z.odd (m / 2 ^ (Z.pos p - 1));
          shr_s := negb (m mod 2 ^ (Z.pos p - 1) =? 0) |})
  = roundHalfEven (inject_Z m / inject_Z (2 ^ Z.pos p)).
Proof.
  intros Hm. destruct (Pos2Nat.is_succ p) as [k Hk].
  assert (H1 : Z.of_nat (S k) = Z.pos p) by (rewrite <- Hk; apply positive_nat_Z).
  assert (H2 : Z.of_nat k = Z.pos p - 1) by lia.
  rewrite <- H2, <- H1. by apply round_shift.
Qed.

Lemma roundHalfEven_range (x : Q) :
  Qfloor x <= roundHalfEven x <= Qfloor x + 1.
Proof.
  unfold roundHalfEven.
  destruct (x - inject_Z (Qfloor x) ?= 1 # 2)%Q; [destruct (Z.even _) | |]; lia.
Qed.

Lemma fexp_dyadic (m : positive) (e : Z) :
  fexp 53 1024 (Zdigits2 (Z.pos m) + e) = ulpExponent (inject_Z (Z.pos m) * pow2 e).
Proof.
  rewrite ulpExponent_dyadic. unfold fexp, emin, Zdigits2. rewrite digits2_log2.
  change (3 - 1024 - 53) with (-1074). f_equal. lia.
Qed.

Lemma shr_fexp_exact (m e : Z) :
  fexp 53 1024 (Zdigits2 m + e) <= e ->
  shr_fexp 53 1024 m e loc_Exact = ({| shr_m := m; shr_r := false; shr_s := false |}, e).
Proof.
  intros H. unfold shr_fexp, shr, shr_record_of_loc.
  destruct (fexp 53 1024 (Zdigits2 m + e) - e) eqn:Hd; [done | lia | done].
Qed.

Lemma shr_fexp_shift (m e : Z) (p : positive) :
  0 <= m ->
  fexp 53 1024 (Zdigits2 m + e) - e = Z.pos p ->
  shr_fexp 53 1024 m e loc_Exact
  = ({| shr_m := m / 2 ^ Z.pos p;
        shr_r := Z.odd (m / 2 ^ (Z.pos p - 1));
        shr_s := negb (m mod 2 ^ (Z.pos p - 1) =? 0) |}, e + Z.pos p).
Proof.
  intros Hm H. unfold shr_fexp, shr, shr_record_of_loc. rewrite H.
  by rewrite shr_pos.
Qed.

Lemma pow2_pos_inject (p : positive) : (pow2 (Z.pos p) == inject_Z (2 ^ Z.pos p))%Q.
Proof. apply pow2_inject. lia. Qed.

Lemma roundDouble_pos (x : Q) :
  (0 < x)%Q ->
  roundDouble x
  = (inject_Z (roundHalfEven (x / pow2 (ulpExponent x))) * pow2 (ulpExponent x))%Q.
Proof.
  intros Hx. unfold roundDouble.
  assert (Hx0 : Qeq_bool x 0 = false).
  { apply not_true_is_false. intros H%Qeq_bool_iff. lra. }
  by rewrite Hx0.
Qed.

(** A significand of at most 53 digits is not shifted. *)
Lemma fexp_small (m1 E : Z) :
  -1074 <= E -> 0 <= m1 < 2 ^ 53 ->
  fexp 53 1024 (Zdigits2 m1 + E) <= E.
Proof.
  intros HE Hm. unfold fexp, emin. change (3 - 1024 - 53) with (-1074).
  destruct m1 as [| p |]; [simpl; lia | | lia].
  unfold Zdigits2. rewrite digits2_log2.
  assert (Z.log2 (Z.pos p) < 53) by (apply Z.log2_lt_pow2; lia).
  lia.
Qed.

(** The rounding of the specification, on a positive [m * 2^e] whose
    last digit is not above the unit in the last place, yields the
    number whose value is [roundDouble (m * 2^e)], and an infinity only
    when that value reaches [2^1024]. *)
Lemma binary_round_aux_dyadic (m : positive) (e : Z) :
  let x := (inject_Z (Z.pos m) * pow2 e)%Q in
  e <= ulpExponent x ->
  match binary_round_aux 53 1024 false (Z.pos m) e loc_Exact with
  | S754_zero s => s = false /\ (roundDouble x == 0)%Q
  | S754_finite s m' e' =>
      s = false /\ (inject_Z (Z.pos m') * pow2 e' == roundDouble x)%Q
  | S754_infinity s => s = false /\ (pow2 1024 <= roundDouble x)%Q
  | S754_nan => False
  end.
Proof.
  intros x Hshift.
  pose proof (pow2_pos e) as He.
  assert (Hx : (0 < x)%Q) by (apply Qmult_lt_0_compat; [reflexivity | done]).
  rewrite (roundDouble_pos x Hx).
  pose proof (fexp_dyadic m e) as Hfexp. fold x in Hfexp.
  pose proof (ulpExponent_dyadic m e) as Hulp. fold x in Hulp.
  set (E := ulpExponent x) in *.
  assert (HE : -1074 <= E) by lia.
  destruct (Z.log2_spec (Z.pos m) eq_refl) as [Hlog_lo Hlog_hi].
  pose proof (Z.log2_nonneg (Z.pos m)) as Hlog_nn.
  set (l := Z.log2 (Z.pos m)) in *.
  unfold binary_round_aux.
  destruct (E - e) as [| p | p] eqn:Hk; [| | lia].
  - (* no digit is dropped *)
    assert (HEe : E = e) by lia.
    rewrite shr_fexp_exact by lia.
    cbn [shr_m loc_of_shr_record round_nearest_even].
    rewrite shr_fexp_exact by lia. cbn [shr_m].
    assert (Hround : roundHalfEven (x / pow2 E) = Z.pos m).
    { rewrite <- (roundHalfEven_Z (Z.pos m)). apply roundHalfEven_comp.
      unfold x. rewrite HEe. field. lra. }
    rewrite Hround, HEe.
    destruct (Z.leb_spec e (1024 - 53)) as [Hle | Hgt].
    + split; [done | reflexivity].
    + split; [done |].
      assert (Hl : l = 52) by lia.
      assert (Hm : (pow2 52 <= inject_Z (Z.pos m))%Q).
      { rewrite pow2_inject by lia. rewrite <- Zle_Qle. by rewrite <- Hl. }
      assert (He' : (pow2 972 <= pow2 e)%Q) by (apply pow2_le; lia).
      assert (H1024 : (pow2 1024 == pow2 52 * pow2 972)%Q) by (rewrite <- pow2_plus; done).
      rewrite H1024. pose proof (pow2_pos 52). pose proof (pow2_pos 972). nra.
  - (* [Z.pos p] digits are dropped *)
    assert (HEe : e + Z.pos p = E) by lia.
    rewrite (shr_fexp_shift (Z.pos m) e p) by (done || lia).
    cbn [shr_m]. rewrite round_pos by done. rewrite HEe.
    assert (Hround : roundHalfEven (inject_Z (Z.pos m) / inject_Z (2 ^ Z.pos p))
                     = roundHalfEven (x / pow2 E)).
    { apply roundHalfEven_comp. unfold x. rewrite <- HEe, pow2_plus, pow2_pos_inject.
      field. split; [| lra].
      assert (0 < 2 ^ Z.pos p) by (apply Z.pow_pos_nonneg; lia).
      intros H0. apply (Qlt_irrefl 0). rewrite <- H0 at 2. rewrite <- (Zlt_Qlt 0). done. }
    rewrite Hround.
    set (m1 := roundHalfEven (x / pow2 E)).
    assert (Hfloor : Qfloor (x / pow2 E) = Z.pos m / 2 ^ Z.pos p).
    { rewrite Zdiv_Qdiv. apply Qfloor_comp.
      unfold x. rewrite <- HEe, pow2_plus, pow2_pos_inject.
      field. split; [| lra].
      assert (0 < 2 ^ Z.pos p) by (apply Z.pow_pos_nonneg; lia).
      intros H0. apply (Qlt_irrefl 0). rewrite <- H0 at 2. rewrite <- (Zlt_Qlt 0). done. }
    pose proof (roundHalfEven_range (x / pow2 E)) as Hrange.
    rewrite Hfloor in Hrange. fold m1 in Hrange.
    assert (Hpp : 0 < 2 ^ Z.pos p) by (apply Z.pow_pos_nonneg; lia).
    assert (Hq_hi : Z.pos m / 2 ^ Z.pos p < 2 ^ 53).
    { apply Z.div_lt_upper_bound; [done |].
      rewrite <- Z.pow_add_r by lia.
      eapply Z.lt_le_trans; [exact Hlog_hi |].
      apply Z.pow_le_mono_r; lia. }
    assert (Hq_lo : 0 <= Z.pos m / 2 ^ Z.pos p) by (apply Z.div_pos; lia).
    destruct (Z.eq_dec m1 (2 ^ 53)) as [Hm1 | Hm1].
    + (* the rounded significand carries into a further digit *)
      rewrite Hm1.
      rewrite (shr_fexp_shift (2 ^ 53) E 1); [| done |].
      2: { unfold fexp, emin. change (Zdigits2 (2 ^ 53)) with 54.
           change (3 - 1024 - 53) with (-1074). lia. }
      cbn [shr_m]. change (2 ^ 53 / 2 ^ 1) with (Z.pos (2 ^ 52)).
      assert (Hval : (inject_Z (Z.pos (2 ^ 52)) * pow2 (E + 1)
                      == inject_Z (2 ^ 53) * pow2 E)%Q).
      { rewrite Z.add_comm, pow2_plus. change (pow2 1) with 2%Q.
        change (inject_Z (2 ^ 53)) with (inject_Z (Z.pos (2 ^ 52)) * 2)%Q. ring. }
      destruct (Z.leb_spec (E + 1) (1024 - 53)) as [Hle | Hgt].
      * split; [done | exact Hval].
      * split; [done |].
        assert (HE' : (pow2 971 <= pow2 E)%Q) by (apply pow2_le; lia).
        assert (H1024 : (pow2 1024 == inject_Z (2 ^ 53) * pow2 971)%Q) by reflexivity.
        rewrite H1024. apply Qmult_le_l; [reflexivity | done].
    + rewrite shr_fexp_exact by (apply fexp_small; lia). cbn [shr_m].
      destruct m1 as [| m1p | m1p] eqn:Hm1p; [| | lia].
      * split; [done | ring].
      * destruct (Z.leb_spec E (1024 - 53)) as [Hle | Hgt].
        -- split; [done | reflexivity].
        -- split; [done |].
           assert (Hl : p = Z.to_pos (l - 52) /\ 52 < l) by lia.
           assert (Hq52 : 2 ^ 52 <= Z.pos m / 2 ^ Z.pos p).
           { apply Z.div_le_lower_bound; [done |].
             rewrite <- Z.pow_add_r by lia.
             replace (Z.pos p + 52) with l by lia. done. }
           assert (Hm52 : (pow2 52 <= inject_Z (Z.pos m1p))%Q).
           { rewrite pow2_inject by lia. rewrite <- Zle_Qle. lia. }
           assert (HE' : (pow2 972 <= pow2 E)%Q) by (apply pow2_le; lia).
           assert (H1024 : (pow2 1024 == pow2 52 * pow2 972)%Q)
             by (rewrite <- pow2_plus; done).
           rewrite H1024. pose proof (pow2_pos 52). pose proof (pow2_pos 972). nra.
Qed.

(** The numbers of binary64: [bounded 53 1024 m e]. *)
Lemma bounded_canonical (m : positive) (e : Z) :
  bounded 53 1024 m e = true ->
  e = Z.max (Z.log2 (Z.pos m) + e - 52) (-1074) /\ e <= 971.
Proof.
  unfold bounded, canonical_mantissa, fexp, emin.
  rewrite andb_true_iff, Z.eqb_eq, Z.leb_le, digits2_log2.
  change (3 - 1024 - 53) with (-1074). change (1024 - 53) with 971. lia.
Qed.

(** Every positive finite binary64 number is a double for [isDouble]. *)
Lemma isDouble_valid_binary (m : positive) (e : Z) :
  bounded 53 1024 m e = true ->
  isDouble (inject_Z (Z.pos m) * pow2 e) = true.
Proof.
  intros [Hcanon _]%bounded_canonical.
  pose proof (pow2_pos e) as He.
  assert (Hx : (0 < inject_Z (Z.pos m) * pow2 e)%Q)
    by (apply Qmult_lt_0_compat; [reflexivity | done]).
  unfold isDouble. apply Qeq_bool_iff. rewrite (roundDouble_pos _ Hx).
  rewrite ulpExponent_dyadic, <- Hcanon.
  rewrite (roundHalfEven_comp _ (inject_Z (Z.pos m))); [| field; lra].
  rewrite roundHalfEven_Z. reflexivity.
Qed.

(** The product [SFmul] of two positive finite binary64 numbers is the
    number whose value is [roundDouble] of the exact product of their
    values. *)
Lemma roundDouble_SFmul (mx my : positive) (ex ey : Z) :
  bounded 53 1024 mx ex = true -> bounded 53 1024 my ey = true ->
  let x := (inject_Z (Z.pos mx) * pow2 ex)%Q in
  let y := (inject_Z (Z.pos my) * pow2 ey)%Q in
  match SFmul 53 1024 (S754_finite false mx ex) (S754_finite false my ey) with
  | S754_zero s => s = false /\ (roundDouble (x * y) == 0)%Q
  | S754_finite s m e =>
      s = false /\ (inject_Z (Z.pos m) * pow2 e == roundDouble (x * y))%Q
  | S754_infinity s => s = false /\ (pow2 1024 <= roundDouble (x * y))%Q
  | S754_nan => False
  end.
Proof.
  intros [Hx _]%bounded_canonical [Hy _]%bounded_canonical x y.
  change (SFmul 53 1024 (S754_finite false mx ex) (S754_finite false my ey))
    with (binary_round_aux 53 1024 false (Z.pos (mx * my)) (ex + ey) loc_Exact).
  set (z := (inject_Z (Z.pos (mx * my)) * pow2 (ex + ey))%Q).
  assert (Hz : (0 < z)%Q).
  { apply Qmult_lt_0_compat; [reflexivity | apply pow2_pos]. }
  assert (Hzxy : (z == x * y)%Q).
  { unfold z, x, y. rewrite pow2_plus, Pos2Z.inj_mul, inject_Z_mult. ring. }
  pose proof (roundDouble_comp z (x * y) Hz Hzxy) as Hround.
  pose proof (binary_round_aux_dyadic (mx * my) (ex + ey)) as Haux.
  cbv zeta in Haux. fold z in Haux.
  assert (Hshift : ex + ey <= ulpExponent z).
  { unfold z. rewrite ulpExponent_dyadic.
    pose proof (Z.log2_mul_below (Z.pos mx) (Z.pos my) eq_refl eq_refl) as Hlog.
    rewrite Pos2Z.inj_mul.
    pose proof (Z.log2_nonneg (Z.pos mx)). pose proof (Z.log2_nonneg (Z.pos my)).
    lia. }
  specialize (Haux Hshift).
  destruct (binary_round_aux 53 1024 false (Z.pos (mx * my)) (ex + ey) loc_Exact);
    [| | done |]; destruct Haux as [-> Hval]; (split; [done |]); by rewrite <- Hround.
Qed.

(** [Math.floor(Math.random() * n)] computed with [SFmul] on a random
    value in (0, 1) and the double of value [n] is [randomIndex]: the
    product is zero or finite, never an infinity, and its floor is the
    index. *)
Lemma randomIndex_SFmul (mx my : positive) (ex ey : Z) (n : nat) :
  bounded 53 1024 mx ex = true -> bounded 53 1024 my ey = true ->
  let r := (inject_Z (Z.pos mx) * pow2 ex)%Q in
  (r < 1)%Q ->
  (inject_Z (Z.pos my) * pow2 ey == inject_Z (Z.of_nat n))%Q ->
  match SFmul 53 1024 (S754_finite false mx ex) (S754_finite false my ey) with
  | S754_zero _ => randomIndex r n = 0%nat
  | S754_finite _ m e =>
      randomIndex r n = Z.to_nat (Qfloor (inject_Z (Z.pos m) * pow2 e))
  | S754_infinity _ | S754_nan => False
  end.
Proof.
  intros Hbx Hby r Hr Hn.
  pose proof (roundDouble_SFmul mx my ex ey Hbx Hby) as Hmul. cbv zeta in Hmul. fold r in Hmul.
  set (y := (inject_Z (Z.pos my) * pow2 ey)%Q) in *.
  assert (Hr0 : (0 < r)%Q).
  { apply Qmult_lt_0_compat; [reflexivity | apply pow2_pos]. }
  assert (Hy0 : (0 < y)%Q).
  { apply Qmult_lt_0_compat; [reflexivity | apply pow2_pos]. }
  assert (Hcomp : (roundDouble (r * y) == roundDouble (r * inject_Z (Z.of_nat n)))%Q).
  { apply roundDouble_comp; [by apply Qmult_lt_0_compat | by rewrite Hn]. }
  unfold randomIndex.
  destruct (SFmul 53 1024 (S754_finite false mx ex) (S754_finite false my ey))
    as [s | s | | s m e]; [| | done |]; destruct Hmul as [_ Hval].
  - rewrite Hcomp in Hval. by rewrite (Qfloor_comp _ _ Hval).
  - assert (Hpos : (0 < n)%nat).
    { destruct n; [| lia]. rewrite Hn in Hy0. by apply Qlt_irrefl in Hy0. }
    pose proof (roundDouble_product_lt r (Z.of_nat n)
                  (isDouble_valid_binary mx ex Hbx) (Qlt_le_weak _ _ Hr0) Hr ltac:(lia))
      as Hlt.
    rewrite Hcomp in Hval.
    destruct (bounded_canonical my ey Hby) as [Hcanon Hey].
    destruct (Z.log2_spec (Z.pos my) eq_refl) as [_ Hlog].
    assert (Hmy : (inject_Z (Z.pos my) < pow2 53)%Q).
    { rewrite pow2_inject by lia. rewrite <- Zlt_Qlt.
      eapply Z.lt_le_trans; [exact Hlog |]. apply Z.pow_le_mono_r; lia. }
    assert (Hpe : (pow2 ey <= pow2 971)%Q) by (by apply pow2_le).
    assert (H1024 : (pow2 1024 == pow2 53 * pow2 971)%Q) by (rewrite <- pow2_plus; done).
    pose proof (pow2_pos ey). pose proof (pow2_pos 971). pose proof (pow2_pos 53).
    assert (Hy : (y < pow2 53 * pow2 971)%Q) by (unfold y; nra).
    rewrite H1024 in Hval. set (big := (pow2 53 * pow2 971)%Q) in *.
    eapply Qlt_irrefl, Qle_lt_trans; [exact Hval |].
    eapply Qlt_trans; [exact Hlt |]. by rewrite <- Hn.
  - rewrite Hcomp in Hval. by rewrite (Qfloor_comp _ _ Hval).
Qed.

(** ** The random choice of a position *)

Lemma random_choice_available random (board : Board) i :
  validRandom random ->
  board !! i = Some CELL_EMPTY ->
  exists p,
    getAvailableMoves board
      !! randomIndex (random 1%nat) (length (getAvailableMoves board)) = Some p
    /\ p ∈ getAvailableMoves board.
Proof.
  intros Hrandom Hi. destruct (Hrandom 1%nat) as (Hd & Hlo & Hhi).
  pose proof (getAvailableMoves_nonempty _ _ Hi) as Hne.
  destruct (lookup_lt_is_Some_2 (getAvailableMoves board)
              (randomIndex (random 1%nat) (length (getAvailableMoves board)))) as [p Hp].
  { apply randomIndex_lt; [done | done | done | lia]. }
  exists p. split; [done |]. apply list_elem_of_lookup. eauto.
Qed.

Lemma findBlockingMove_returns (board : Board) availableMoves :
  (length board <= 9)%nat ->
  (forall move, move ∈ availableMoves -> move ∈ getAvailableMoves board) ->
  exists blocking,
    findBlockingMove board availableMoves = Returns blocking
    /\ forall move, blocking = Some move -> move ∈ getAvailableMoves board.
Proof.
  intros Hlen. induction availableMoves as [| move rest IH]; intros Hmoves; simpl.
  - exists None. split; [done | discriminate].
  - rewrite makeMove_available by (auto; apply Hmoves, list_elem_of_here). simpl.
    assert (Hrest : exists blocking,
               findBlockingMove board rest = Returns blocking
               /\ forall move, blocking = Some move -> move ∈ getAvailableMoves board).
    { apply IH. intros m Hm. apply Hmoves. by apply list_elem_of_further. }
    destruct (checkWinner (place board move USER)) as [[[] line] |]; try done.
    exists (Some move). split; [done |].
    intros m [= <-]. apply Hmoves, list_elem_of_here.
Qed.

Lemma search_move_available (board : Board) depth i :
  (length board <= 9)%nat -> checkWinner board = None ->
  board !! i = Some CELL_EMPTY ->
  exists r p,
    minimax board (S depth) false NegInfinity PosInfinity = Returns r
    /\ position r = Some p /\ p ∈ getAvailableMoves board.
Proof.
  intros Hlen Hw Hi.
  destruct (minimax_returns (S depth) board false NegInfinity PosInfinity Hlen) as [r Hr].
  destruct (minimax_position depth board false _ _ r
              (terminalScore_in_progress _ depth _ Hw Hi) Hr) as (p & Hp & Hin).
  by exists r, p.
Qed.

Lemma getAIMove_available random (board : Board) difficulty :
  validRandom random ->
  (length board <= 9)%nat ->
  checkWinner board = None ->
  (exists i, board !! i = Some CELL_EMPTY) ->
  difficulty = DIFFICULTIES_EASY \/ difficulty = DIFFICULTIES_MEDIUM
  \/ difficulty = DIFFICULTIES_HARD ->
  exists p, getAIMove random board difficulty = Returns (Some p)
            /\ p ∈ getAvailableMoves board.
Proof.
  intros Hrandom Hlen Hw [i Hi] Hdiff.
  pose proof (getAvailableMoves_nonempty _ _ Hi) as Hne.
  destruct (random_choice_available random board i Hrandom Hi) as (q & Hq & Hqin).
  destruct Hdiff as [-> | [-> | ->]]; unfold getAIMove; simpl.
  - unfold getEasyAIMove. rewrite bool_decide_eq_false_2 by done.
    destruct (Qltb (random 0%nat) double_0_2); simpl.
    + destruct (findBlockingMove_returns board (getAvailableMoves board) Hlen)
        as ([move |] & -> & Hblock); [done | |]; simpl.
      * exists move. split; [done | by apply Hblock].
      * exists q. by rewrite Hq.
    + exists q. by rewrite Hq.
  - unfold getMediumAIMove. rewrite bool_decide_eq_false_2 by done.
    destruct (Qltb (random 0%nat) double_0_15).
    + exists q. by rewrite Hq.
    + destruct (search_move_available board 2 i Hlen Hw Hi) as (r & p & -> & Hp & Hin).
      simpl. exists p. by rewrite Hp.
  - unfold getHardAIMove. rewrite bool_decide_eq_false_2 by done.
    destruct (search_move_available board 8 i Hlen Hw Hi) as (r & p & -> & Hp & Hin).
    simpl. exists p. by rewrite Hp.
Qed.

(** C10.  On a board of nine cells with an empty cell and no completed
    triple, for each of the three difficulties and every outcome of the
    random source (doubles in [0, 1), the index being the floor of the
    rounded double product), [getAIMove] returns a position in [0, 8]
    whose cell is empty, so [isValidMove] holds for it, the [makeMove] of
    [processAIMove] does not throw, and [processAIMove] returns a state
    when the game is in progress and it is the AI's turn. *)
Theorem getAIMove_valid random (gameState : GameState) :
  validRandom random ->
  length (board gameState) = 9%nat ->
  checkWinner (board gameState) = None ->
  (exists i, board gameState !! i = Some CELL_EMPTY) ->
  difficulty gameState = DIFFICULTIES_EASY
  \/ difficulty gameState = DIFFICULTIES_MEDIUM
  \/ difficulty gameState = DIFFICULTIES_HARD ->
  exists p,
    getAIMove random (board gameState) (difficulty gameState) = Returns (Some p)
    /\ (p <= 8)%nat
    /\ board gameState !! p = Some CELL_EMPTY
    /\ isValidMove (board gameState) (Z.of_nat p) = true
    /\ makeMoveAt (board gameState) (Some p) AI = Returns (place (board gameState) p AI)
    /\ (result gameState = IN_PROGRESS ->
        currentPlayer gameState = AI ->
        exists gameState',
          processAIMove random gameState = Returns gameState'
          /\ lastAIMove gameState' = Some p
          /\ board gameState' = place (board gameState) p AI).
Proof.
  intros Hrandom Hlen Hw Hempty Hdiff.
  destruct (getAIMove_available random (board gameState) (difficulty gameState))
    as (p & Hcall & Hin); try done; [lia |].
  pose proof (proj1 (elem_of_getAvailableMoves _ _) Hin) as Hcell.
  assert (Hp : (p <= 8)%nat) by (apply lookup_lt_Some in Hcell; lia).
  assert (Hmove : makeMove (board gameState) (Z.of_nat p) AI
                  = Returns (place (board gameState) p AI))
    by by apply makeMove_place.
  exists p. split; [done |]. split; [done |]. split; [done |].
  split; [by apply makeMove_returns in Hmove as [? _] |]. split; [done |].
  intros Hres Hturn. unfold processAIMove.
  rewrite Hres, Hturn. simpl. rewrite Hcall. simpl. rewrite Hmove. simpl.
  eexists. split; [reflexivity |]. done.
Qed.

Lemma getAIMove_valid_witness :
  let board := [CELL_USER; CELL_AI; CELL_USER;
                CELL_EMPTY; CELL_EMPTY; CELL_EMPTY;
                CELL_EMPTY; CELL_EMPTY; CELL_EMPTY] in
  let gameState :=
    {| board := board; currentPlayer := AI; moves := 3;
       difficulty := DIFFICULTIES_EASY; result := IN_PROGRESS;
       gsWinner := None; gsWinningLine := None; lastAIMove := None |} in
  let random : RandomSource :=
    fun n => match n with
             | O => (1 # 2)%Q
             | _ => (3752999689475413 # 4503599627370496)%Q
             end in
  getAIMove random board DIFFICULTIES_EASY = Returns (Some 8%nat)
  /\ exists p,
      getAIMove random board DIFFICULTIES_EASY = Returns (Some p)
      /\ (p <= 8)%nat
      /\ board !! p = Some CELL_EMPTY.
Proof.
  intros board gameState random. split; [vm_compute; reflexivity |].
  destruct (getAIMove_valid random gameState) as (p & Hcall & Hp & Hcell & _).
  - intros [| n]; (split; [vm_compute; reflexivity |]);
      split; unfold Qle, Qlt; simpl; lia.
  - reflexivity.
  - reflexivity.
  - exists 3%nat. reflexivity.
  - left. reflexivity.
  - exists p. auto.
Defined.

(** ** Move history analysis *)

(** C9.  The claim fails at the empty list, where the two returns of
    [analyzeMoveHistory] disagree on the shape of the object.  The guard
    for an empty list returns an object without [gameFlow] that carries
    [averageThinkTime], a property computed nowhere else in the function;
    for every non-empty list the object has [gameFlow], with an entry for
    every move in input order, and no [averageThinkTime]. *)
Theorem analyzeMoveHistory_empty_lacks_gameFlow :
  (MoveHistory.gameFlow (MoveHistory.analyzeMoveHistory []) = None
   /\ MoveHistory.gameFlow (MoveHistory.analyzeMoveHistory [])
      <> Some (map MoveHistory.flowOf [])
   /\ MoveHistory.averageThinkTime (MoveHistory.analyzeMoveHistory []) = Some 0
   /\ MoveHistory.totalMoves (MoveHistory.analyzeMoveHistory []) = 0
   /\ MoveHistory.playerMoves (MoveHistory.analyzeMoveHistory []) = []
   /\ MoveHistory.aiMoves (MoveHistory.analyzeMoveHistory []) = [])
  /\ (forall move rest,
        MoveHistory.gameFlow (MoveHistory.analyzeMoveHistory (move :: rest))
        = Some (map (fun move =>
                       {| MoveHistory.flowPlayer := MoveHistory.player move;
                          MoveHistory.flowPosition := MoveHistory.position move;
                          MoveHistory.flowMoveNumber := MoveHistory.move_number move |})
                  (move :: rest))
        /\ MoveHistory.averageThinkTime (MoveHistory.analyzeMoveHistory (move :: rest))
           = None).
Proof.
  split.
  - repeat split; try reflexivity. discriminate.
  - intros move rest. split; reflexivity.
Qed.

(** The part of the summary that holds for every list of move records:
    [totalMoves] is the length of the list, and [playerMoves] and
    [aiMoves] are the projections to position, move number and timestamp
    of the entries whose player is the user, respectively the AI, in
    input order; [gameFlow] lists player, position and move number of
    every entry of a non-empty list. *)
Lemma analyzeMoveHistory_summary (moves : list MoveHistory.MoveRecord) :
  MoveHistory.totalMoves (MoveHistory.analyzeMoveHistory moves) = Z.of_nat (length moves)
  /\ MoveHistory.playerMoves (MoveHistory.analyzeMoveHistory moves)
     = map (fun move =>
              {| MoveHistory.summaryPosition := MoveHistory.position move;
                 MoveHistory.summaryMoveNumber := MoveHistory.move_number move;
                 MoveHistory.summaryTimestamp := MoveHistory.timestamp move |})
         (List.filter (fun move => String.eqb (MoveHistory.player move) "user") moves)
  /\ MoveHistory.aiMoves (MoveHistory.analyzeMoveHistory moves)
     = map (fun move =>
              {| MoveHistory.summaryPosition := MoveHistory.position move;
                 MoveHistory.summaryMoveNumber := MoveHistory.move_number move;
                 MoveHistory.summaryTimestamp := MoveHistory.timestamp move |})
         (List.filter (fun move => String.eqb (MoveHistory.player move) "ai") moves)
  /\ (moves <> [] ->
      MoveHistory.gameFlow (MoveHistory.analyzeMoveHistory moves)
      = Some (map (fun move =>
                     {| MoveHistory.flowPlayer := MoveHistory.player move;
                        MoveHistory.flowPosition := MoveHistory.position move;
                        MoveHistory.flowMoveNumber := MoveHistory.move_number move |})
                moves)).
Proof.
  unfold MoveHistory.analyzeMoveHistory.
  destruct moves as [| move rest].
  - repeat split; try reflexivity. intros H. by destruct H.
  - rewrite bool_decide_eq_false_2 by discriminate. repeat split.
Qed.

Lemma analyzeMoveHistory_summary_witness :
  let moves :=
    [ {| MoveHistory.player := "user"; MoveHistory.position := 4;
         MoveHistory.move_number := 1; MoveHistory.timestamp := "t1" |};
      {| MoveHistory.player := "ai"; MoveHistory.position := 0;
         MoveHistory.move_number := 2; MoveHistory.timestamp := "t2" |} ] in
  MoveHistory.gameFlow (MoveHistory.analyzeMoveHistory moves)
  = Some [ {| MoveHistory.flowPlayer := "user"; MoveHistory.flowPosition := 4;
              MoveHistory.flowMoveNumber := 1 |};
           {| MoveHistory.flowPlayer := "ai"; MoveHistory.flowPosition := 0;
              MoveHistory.flowMoveNumber := 2 |} ].
Proof.
  intros moves.
  destruct (analyzeMoveHistory_summary moves) as (_ & _ & _ & Hflow).
  apply Hflow. discriminate.
Defined.


(** * Further properties of the engine *)

(** ** Available moves, draws and game results *)

Lemma availableFrom_length i (cells : list Cell) :
  (length (availableFrom i cells) + occupiedCells cells)%nat = length cells.
Proof.
  revert i. induction cells as [| cell rest IH]; intros i; [done |].
  simpl. rewrite occupiedCells_cons. specialize (IH (S i)).
  case_bool_decide; simpl; lia.
Qed.

Lemma getAvailableMoves_nil (board : Board) :
  getAvailableMoves board = [] <-> Forall (fun cell => cell <> CELL_EMPTY) board.
Proof.
  rewrite Forall_forall. split.
  - intros Hnil cell [i Hi]%list_elem_of_lookup ->.
    apply elem_of_getAvailableMoves in Hi. rewrite Hnil in Hi. inversion Hi.
  - intros Hfull. destruct (getAvailableMoves board) as [| m rest] eqn:Hm; [done |].
    assert (Hin : m ∈ getAvailableMoves board) by (rewrite Hm; apply list_elem_of_here).
    apply elem_of_getAvailableMoves in Hin. exfalso.
    apply (Hfull CELL_EMPTY); [| done]. apply list_elem_of_lookup. eauto.
Qed.

(** X1.  [getAvailableMoves] lists exactly the indices of the empty
    cells, each once and in strictly ascending order, so their number is
    the length of the board minus its non-empty cells; on a board of at
    most nine cells they are exactly the positions [isValidMove]
    accepts. *)
Theorem getAvailableMoves_characterised (board : Board) :
  Ascending (getAvailableMoves board)
  /\ (forall i, i ∈ getAvailableMoves board <-> board !! i = Some CELL_EMPTY)
  /\ (length (getAvailableMoves board) + occupiedCells board)%nat = length board
  /\ ((length board <= 9)%nat ->
      forall i, i ∈ getAvailableMoves board <-> isValidMove board (Z.of_nat i) = true).
Proof.
  split; [apply getAvailableMoves_ascending |].
  split; [apply elem_of_getAvailableMoves |].
  split; [apply availableFrom_length |].
  intros Hlen i. rewrite elem_of_getAvailableMoves, isValidMove_spec, Nat2Z.id.
  split; [| tauto]. intros Hi. split; [| done].
  apply lookup_lt_Some in Hi. lia.
Qed.

Lemma getAvailableMoves_characterised_witness :
  4%nat ∈ getAvailableMoves cornerOpening
  <-> isValidMove cornerOpening (Z.of_nat 4) = true.
Proof.
  destruct (getAvailableMoves_characterised cornerOpening) as (_ & _ & _ & H).
  apply H. simpl. lia.
Defined.

(** X2.  [getGameResult] reports a win exactly when [checkWinner] finds a
    line of that player, a draw exactly when there is no winner and no
    move is available, and a game in progress exactly when there is no
    winner and some move is available; [isDraw] holds exactly on the
    boards whose result is a draw. *)
Theorem getGameResult_cases (board : Board) :
  (getGameResult board = USER_WIN
   <-> exists w, checkWinner board = Some w /\ winner w = USER)
  /\ (getGameResult board = AI_WIN
      <-> exists w, checkWinner board = Some w /\ winner w = AI)
  /\ (getGameResult board = DRAW
      <-> checkWinner board = None /\ getAvailableMoves board = [])
  /\ (getGameResult board = IN_PROGRESS
      <-> checkWinner board = None /\ getAvailableMoves board <> [])
  /\ (isDraw board = true <-> getGameResult board = DRAW).
Proof.
  assert (Hdraw : checkWinner board = None ->
                  (isDraw board = true <-> getAvailableMoves board = [])).
  { intros Hw. rewrite isDraw_spec, getAvailableMoves_nil. tauto. }
  unfold getGameResult.
  destruct (checkWinner board) as [[[] line] |] eqn:Hw; simpl.
  - repeat split; try discriminate; try (intros [? ?]; discriminate); eauto.
    + intros (w & [= <-] & Hu). done.
    + intros Hd. apply isDraw_spec in Hd as [_ Hd]. congruence.
  - repeat split; try discriminate; try (intros [? ?]; discriminate); eauto.
    + intros (w & [= <-] & Hu). done.
    + intros Hd. apply isDraw_spec in Hd as [_ Hd]. congruence.
  - specialize (Hdraw eq_refl).
    destruct (isDraw board) eqn:Hd.
    + assert (Hnil : getAvailableMoves board = []) by by apply Hdraw.
      repeat split; try discriminate; try (intros (w & ? & _); discriminate); try done.
      intros [_ Hne]. done.
    + assert (Hne : getAvailableMoves board <> []).
      { intros Hnil. apply Hdraw in Hnil. discriminate. }
      repeat split; try discriminate; try (intros (w & ? & _); discriminate); try done.
      intros [_ Hnil]. done.
Qed.

(** ** A move and the moves left *)

Lemma availableFrom_lower i (cells : list Cell) :
  Forall (fun m => (i <= m)%nat) (availableFrom i cells).
Proof.
  apply Forall_forall. intros m [Hm _]%elem_of_availableFrom. done.
Qed.

Lemma filter_all {A} (P : A -> Prop) `{forall x, Decision (P x)} (l : list A) :
  Forall P l -> filter P l = l.
Proof.
  induction 1 as [| x l Hx _ IH]; [done |].
  by rewrite filter_cons_True, IH.
Qed.

Lemma availableFrom_insert i (cells : list Cell) k cell :
  cells !! k = Some CELL_EMPTY -> cell <> CELL_EMPTY ->
  availableFrom i (<[k := cell]> cells)
  = filter (fun m => m <> (i + k)%nat) (availableFrom i cells).
Proof.
  revert i k. induction cells as [| c rest IH]; intros i k Hk Hcell; [discriminate |].
  destruct k as [| k]; simpl in *.
  - injection Hk as ->. rewrite bool_decide_eq_false_2 by done.
    rewrite bool_decide_eq_true_2 by done.
    rewrite filter_cons_False by lia.
    symmetry. apply filter_all.
    eapply Forall_impl; [apply availableFrom_lower |]. simpl. lia.
  - rewrite (IH (S i) k Hk Hcell). replace (S i + k)%nat with (i + S k)%nat by lia.
    case_bool_decide; [| done].
    rewrite filter_cons_True by lia. done.
Qed.

(** X3.  After a successful [makeMove] at [position] the moves left are
    the former ones without [position], in the same order; the board has
    one non-empty cell more and the same length; and the position is no
    longer valid, so a second [makeMove] on the same cell throws, whoever
    the player is. *)
Theorem makeMove_consumes_cell (board newBoard : Board) (position : Z) (player : Player) :
  makeMove board position player = Returns newBoard ->
  getAvailableMoves newBoard
  = filter (fun m => m <> Z.to_nat position) (getAvailableMoves board)
  /\ occupiedCells newBoard = S (occupiedCells board)
  /\ length newBoard = length board
  /\ isValidMove newBoard position = false
  /\ forall player',
      makeMove newBoard position player' = Throws (InvalidMoveError (Some position)).
Proof.
  intros [[Hrange Hcell]%isValidMove_spec ->]%makeMove_returns.
  assert (Hinvalid : isValidMove (<[Z.to_nat position := markOf player]> board) position
                     = false).
  { destruct (isValidMove _ position) eqn:Hv; [| done].
    apply isValidMove_spec in Hv as [_ Hv].
    rewrite list_lookup_insert_eq in Hv by (by apply lookup_lt_Some in Hcell).
    by destruct player. }
  split.
  { unfold getAvailableMoves. rewrite availableFrom_insert; [done | done |].
    by destruct player. }
  split; [by apply (occupiedCells_place board (Z.to_nat position) player) |].
  split; [apply length_insert |]. split; [done |].
  intros player'. by apply makeMove_throws.
Qed.

Lemma makeMove_consumes_cell_witness :
  getAvailableMoves (place cornerOpening 4 AI) = [1; 2; 3; 5; 6; 7; 8]%nat
  /\ isValidMove (place cornerOpening 4 AI) 4 = false.
Proof.
  destruct (makeMove_consumes_cell cornerOpening (place cornerOpening 4 AI) 4 AI eq_refl)
    as (Hmoves & _ & _ & Hinvalid & _).
  split; [| exact Hinvalid].
  rewrite Hmoves. reflexivity.
Defined.

(** ** Errors of the AI strategies and the AI's move *)

Lemma getAIMove_unknown random (board : Board) difficulty :
  difficulty <> DIFFICULTIES_EASY -> difficulty <> DIFFICULTIES_MEDIUM ->
  difficulty <> DIFFICULTIES_HARD ->
  getAIMove random board difficulty = Throws (UnknownDifficultyError difficulty).
Proof.
  intros He Hm Hh. unfold getAIMove.
  by rewrite (proj2 (String.eqb_neq _ _) He), (proj2 (String.eqb_neq _ _) Hm),
    (proj2 (String.eqb_neq _ _) Hh).
Qed.

Lemma getAIMove_no_moves random (board : Board) difficulty :
  difficulty = DIFFICULTIES_EASY \/ difficulty = DIFFICULTIES_MEDIUM
  \/ difficulty = DIFFICULTIES_HARD ->
  getAvailableMoves board = [] ->
  getAIMove random board difficulty = Throws NoAvailableMovesError.
Proof.
  intros [-> | [-> | ->]] Hnil; unfold getAIMove; simpl;
    unfold getEasyAIMove, getMediumAIMove, getHardAIMove; by rewrite Hnil.
Qed.

(** X4.  The three strategies refuse a board without an empty cell with
    the no-available-moves error, before any random draw and whatever the
    board holds otherwise; [getAIMove] refuses every difficulty other
    than the three known strings with the unknown-difficulty error that
    carries the string, without looking at the board. *)
Theorem getAIMove_errors random (board : Board) (difficulty : string) :
  (Forall (fun cell => cell <> CELL_EMPTY) board ->
   getEasyAIMove random board = Throws NoAvailableMovesError
   /\ getMediumAIMove random board = Throws NoAvailableMovesError
   /\ getHardAIMove board = Throws NoAvailableMovesError)
  /\ (difficulty <> "easy" -> difficulty <> "medium" -> difficulty <> "hard" ->
      getAIMove random board difficulty = Throws (UnknownDifficultyError difficulty)).
Proof.
  split.
  - intros Hnil%getAvailableMoves_nil.
    unfold getEasyAIMove, getMediumAIMove, getHardAIMove. by rewrite Hnil.
  - apply getAIMove_unknown.
Qed.

Lemma getAIMove_errors_witness :
  getHardAIMove [CELL_USER; CELL_AI] = Throws NoAvailableMovesError
  /\ getAIMove (fun _ => 0%Q) cornerOpening "expert"
     = Throws (UnknownDifficultyError "expert").
Proof.
  destruct (getAIMove_errors (fun _ => 0%Q) [CELL_USER; CELL_AI] "expert") as [Hfull _].
  destruct (getAIMove_errors (fun _ => 0%Q) cornerOpening "expert") as [_ Hunknown].
  split.
  - apply Hfull. repeat constructor; discriminate.
  - apply Hunknown; discriminate.
Defined.

Lemma processAIMove_returns random (gameState : GameState) p :
  result gameState = IN_PROGRESS ->
  currentPlayer gameState = AI ->
  getAIMove random (board gameState) (difficulty gameState) = Returns (Some p) ->
  isValidMove (board gameState) (Z.of_nat p) = true ->
  let newBoard := place (board gameState) p AI in
  let newResult :=
    match checkWinner newBoard with
    | Some _ => AI_WIN
    | None => if isDraw newBoard then DRAW else IN_PROGRESS
    end in
  processAIMove random gameState
  = Returns {| board := newBoard;
               currentPlayer := if bool_decide (newResult = IN_PROGRESS) then USER else AI;
               moves := moves gameState + 1;
               difficulty := difficulty gameState;
               result := newResult;
               gsWinner := winner <$> checkWinner newBoard;
               gsWinningLine := winningLine <$> checkWinner newBoard;
               lastAIMove := Some p |}.
Proof.
  intros Hres Hturn Hcall Hvalid. unfold processAIMove.
  rewrite Hres, Hturn. simpl. rewrite Hcall. simpl.
  unfold makeMove. rewrite Hvalid. simpl. unfold place. by rewrite Nat2Z.id.
Qed.

(** X5.  [processAIMove] throws the game-ended error on a state that is
    not in progress, otherwise the wrong-turn error when it is not the
    AI's turn, otherwise whatever [getAIMove] throws, and the invalid-move
    error when the strategy returns a position that is not a valid move
    (or no position).  When the strategy returns a valid position, the
    new state holds the board with the AI's mark there, one move more and
    that position as [lastAIMove]; winner and winning line are those
    [checkWinner] reports on the new board; the result is a win of the AI
    when there is a winner, a draw when the board is full, in progress
    otherwise (which is [getGameResult] of the new board when the board
    had no winner before); the current player is the user exactly when
    the result is in progress and the AI otherwise. *)
Theorem processAIMove_contract random (gameState : GameState) :
  (result gameState <> IN_PROGRESS ->
   processAIMove random gameState = Throws GameAlreadyEndedError)
  /\ (result gameState = IN_PROGRESS -> currentPlayer gameState <> AI ->
      processAIMove random gameState = Throws (WrongTurnError AI))
  /\ (result gameState = IN_PROGRESS -> currentPlayer gameState = AI ->
      forall e,
        getAIMove random (board gameState) (difficulty gameState) = Throws e ->
        processAIMove random gameState = Throws e)
  /\ (result gameState = IN_PROGRESS -> currentPlayer gameState = AI ->
      forall p,
        getAIMove random (board gameState) (difficulty gameState) = Returns p ->
        match p with
        | Some move => isValidMove (board gameState) (Z.of_nat move) = false
        | None => True
        end ->
        processAIMove random gameState
        = Throws (InvalidMoveError (Z.of_nat <$> p)))
  /\ (result gameState = IN_PROGRESS -> currentPlayer gameState = AI ->
      forall move,
        getAIMove random (board gameState) (difficulty gameState) = Returns (Some move) ->
        isValidMove (board gameState) (Z.of_nat move) = true ->
        exists gameState',
          processAIMove random gameState = Returns gameState'
          /\ board gameState' = <[move := CELL_AI]> (board gameState)
          /\ moves gameState' = moves gameState + 1
          /\ lastAIMove gameState' = Some move
          /\ gsWinner gameState' = winner <$> checkWinner (board gameState')
          /\ gsWinningLine gameState' = winningLine <$> checkWinner (board gameState')
          /\ result gameState'
             = match checkWinner (board gameState') with
               | Some _ => AI_WIN
               | None => if isDraw (board gameState') then DRAW else IN_PROGRESS
               end
          /\ (checkWinner (board gameState) = None ->
              result gameState' = getGameResult (board gameState'))
          /\ (currentPlayer gameState' = USER <-> result gameState' = IN_PROGRESS)
          /\ (result gameState' <> IN_PROGRESS -> currentPlayer gameState' = AI)
          /\ difficulty gameState' = difficulty gameState).
Proof.
  split; [| split; [| split; [| split]]].
  - intros Hres. unfold processAIMove. by rewrite bool_decide_eq_false_2.
  - intros Hres Hturn. unfold processAIMove. rewrite Hres. simpl.
    by rewrite bool_decide_eq_false_2.
  - intros Hres Hturn e He. unfold processAIMove. rewrite Hres, Hturn. simpl.
    by rewrite He.
  - intros Hres Hturn p Hp Hbad. unfold processAIMove. rewrite Hres, Hturn. simpl.
    rewrite Hp. simpl. destruct p as [move |]; simpl; [| done].
    unfold makeMove. by rewrite Hbad.
  - intros Hres Hturn move Hcall Hvalid.
    eexists. split; [by apply processAIMove_returns |]. simpl.
    set (newBoard := place (board gameState) move AI).
    repeat split; try done.
    + intros Hnone. unfold getGameResult.
      destruct (checkWinner newBoard) as [w |] eqn:Hw; [| done].
      apply isValidMove_spec in Hvalid as [_ Hcell]. rewrite Nat2Z.id in Hcell.
      by rewrite (checkWinner_after_move (board gameState) move AI w).
    + case_bool_decide; done.
    + intros ->. by rewrite bool_decide_eq_true_2.
    + case_bool_decide; done.
Qed.

Lemma processAIMove_contract_witness :
  let gameState : GameState :=
    {| board := cornerOpening; currentPlayer := AI; moves := 1;
       difficulty := DIFFICULTIES_HARD; result := IN_PROGRESS;
       gsWinner := None; gsWinningLine := None; lastAIMove := None |} in
  exists gameState',
    processAIMove (fun _ => 0%Q) gameState = Returns gameState'
    /\ board gameState' = <[1%nat := CELL_AI]> cornerOpening
    /\ moves gameState' = 2
    /\ lastAIMove gameState' = Some 1%nat.
Proof.
  intros gameState.
  destruct (processAIMove_contract (fun _ => 0%Q) gameState) as (_ & _ & _ & _ & Hok).
  destruct (Hok eq_refl eq_refl 1%nat) as (gameState' & Hcall & Hboard & Hmoves & Hlast & _).
  - vm_compute. reflexivity.
  - reflexivity.
  - exists gameState'. auto.
Defined.

(** ** Invariants of the reachable states *)

Lemma processUserMove_success (gameState gameState' : GameState) position :
  processUserMove gameState position = Returns gameState' ->
  result gameState = IN_PROGRESS
  /\ currentPlayer gameState = USER
  /\ exists move,
      board gameState !! move = Some CELL_EMPTY
      /\ (move <= 8)%nat
      /\ let newBoard := place (board gameState) move USER in
         let newResult :=
           match checkWinner newBoard with
           | Some _ => USER_WIN
           | None => if isDraw newBoard then DRAW else IN_PROGRESS
           end in
         gameState'
         = {| board := newBoard;
              currentPlayer := if bool_decide (newResult = IN_PROGRESS) then AI else USER;
              moves := moves gameState + 1;
              difficulty := difficulty gameState;
              result := newResult;
              gsWinner := winner <$> checkWinner newBoard;
              gsWinningLine := winningLine <$> checkWinner newBoard;
              lastAIMove := lastAIMove gameState |}.
Proof.
  destruct (processUserMove_throws gameState position) as (Hended & Hturn & Hinvalid).
  destruct (decide (result gameState = IN_PROGRESS)) as [Hres |];
    [| rewrite Hended by done; discriminate].
  destruct (decide (currentPlayer gameState = USER)) as [Huser |];
    [| rewrite Hturn by done; discriminate].
  destruct (isValidMove (board gameState) position) eqn:Hvalid;
    [| rewrite Hinvalid by done; discriminate].
  rewrite (processUserMove_returns _ _ Hres Huser Hvalid). intros [= <-].
  apply isValidMove_spec in Hvalid as [Hrange Hcell].
  split; [done |]. split; [done |]. exists (Z.to_nat position).
  split; [done |]. split; [lia | done].
Qed.

Lemma processAIMove_success random (gameState gameState' : GameState) :
  processAIMove random gameState = Returns gameState' ->
  result gameState = IN_PROGRESS
  /\ currentPlayer gameState = AI
  /\ exists move,
      board gameState !! move = Some CELL_EMPTY
      /\ (move <= 8)%nat
      /\ let newBoard := place (board gameState) move AI in
         let newResult :=
           match checkWinner newBoard with
           | Some _ => AI_WIN
           | None => if isDraw newBoard then DRAW else IN_PROGRESS
           end in
         gameState'
         = {| board := newBoard;
              currentPlayer := if bool_decide (newResult = IN_PROGRESS) then USER else AI;
              moves := moves gameState + 1;
              difficulty := difficulty gameState;
              result := newResult;
              gsWinner := winner <$> checkWinner newBoard;
              gsWinningLine := winningLine <$> checkWinner newBoard;
              lastAIMove := Some move |}.
Proof.
  unfold processAIMove.
  case_bool_decide as Hres; simpl; [| discriminate].
  case_bool_decide as Hturn; simpl; [| discriminate].
  destruct (getAIMove random (board gameState) (difficulty gameState)) as [[move |] |];
    simpl; try discriminate.
  destruct (makeMove (board gameState) (Z.of_nat move) AI) as [newBoard |] eqn:Hmove;
    simpl; [| discriminate].
  pose proof (makeMove_nat_returns _ _ _ _ Hmove) as ->.
  apply makeMove_returns in Hmove as [[Hrange Hcell]%isValidMove_spec _].
  rewrite Nat2Z.id in Hcell.
  intros [= <-]. split; [done |]. split; [done |]. exists move.
  split; [done |]. split; [lia | done].
Qed.

Lemma marksOf_cons player cell (rest : Board) :
  marksOf player (cell :: rest)
  = ((if bool_decide (cell = markOf player) then 1 else 0) + marksOf player rest)%nat.
Proof. unfold marksOf. destruct player, cell; reflexivity. Qed.

Lemma marksOf_place (board : Board) move player who :
  board !! move = Some CELL_EMPTY ->
  marksOf who (place board move player)
  = ((if bool_decide (who = player) then 1 else 0) + marksOf who board)%nat.
Proof.
  unfold place. revert move. induction board as [| cell rest IH]; intros move Hm.
  - discriminate.
  - destruct move as [| move]; simpl in *.
    + injection Hm as ->. rewrite !marksOf_cons. by destruct who, player.
    + rewrite !marksOf_cons, (IH _ Hm). lia.
Qed.

Lemma marksOf_total (board : Board) :
  (marksOf USER board + marksOf AI board)%nat = occupiedCells board.
Proof.
  induction board as [| cell rest IH]; [done |].
  rewrite !marksOf_cons, occupiedCells_cons. destruct cell; simpl; lia.
Qed.

(** Reachable states, step by step: each one comes from a state in
    progress by a move of the player to move on an empty cell. *)
Lemma Reachable_ind_moves (P : GameState -> Prop) :
  (forall difficulty, P (createInitialGameState difficulty)) ->
  (forall gameState move last,
      Reachable gameState -> P gameState ->
      result gameState = IN_PROGRESS ->
      board gameState !! move = Some CELL_EMPTY -> (move <= 8)%nat ->
      P (stateAfter gameState move (currentPlayer gameState) last)) ->
  forall gameState, Reachable gameState -> P gameState.
Proof.
  intros Hinit Hstep.
  induction 1 as [difficulty | s position s' Hs IH Hcall | random s s' Hs IH Hcall].
  - apply Hinit.
  - apply processUserMove_success in Hcall as (Hres & Hturn & move & Hcell & Hle & ->).
    specialize (Hstep s move (lastAIMove s) Hs IH Hres Hcell Hle).
    by rewrite Hturn in Hstep.
  - apply processAIMove_success in Hcall as (Hres & Hturn & move & Hcell & Hle & ->).
    specialize (Hstep s move (Some move) Hs IH Hres Hcell Hle).
    by rewrite Hturn in Hstep.
Qed.

Lemma getGameResult_in_progress (board : Board) :
  getGameResult board = IN_PROGRESS -> checkWinner board = None.
Proof.
  unfold getGameResult. destruct (checkWinner board) as [[[] ?] |]; done.
Qed.

Lemma stateAfter_result (gameState : GameState) move player last :
  checkWinner (board gameState) = None ->
  board gameState !! move = Some CELL_EMPTY ->
  result (stateAfter gameState move player last)
  = getGameResult (board (stateAfter gameState move player last)).
Proof.
  intros Hnone Hcell. simpl. unfold getGameResult.
  destruct (checkWinner (place (board gameState) move player)) as [w |] eqn:Hw; [| done].
  rewrite (checkWinner_after_move _ _ _ _ Hnone Hcell Hw). by destruct player.
Qed.

(** The invariant of the reachable states. *)
Lemma Reachable_wellformed (gameState : GameState) :
  Reachable gameState ->
  length (board gameState) = 9%nat
  /\ result gameState = getGameResult (board gameState)
  /\ gsWinner gameState = winner <$> checkWinner (board gameState)
  /\ gsWinningLine gameState = winningLine <$> checkWinner (board gameState)
  /\ moves gameState = Z.of_nat (occupiedCells (board gameState))
  /\ marksOf USER (board gameState)
     = ((if bool_decide (result gameState = IN_PROGRESS)
         then (if bool_decide (currentPlayer gameState = USER) then 0 else 1)
         else (if bool_decide (currentPlayer gameState = USER) then 1 else 0))
        + marksOf AI (board gameState))%nat
  /\ (result gameState = USER_WIN -> currentPlayer gameState = USER)
  /\ (result gameState = AI_WIN -> currentPlayer gameState = AI).
Proof.
  induction 1 as [difficulty | s move last Hs IH Hres Hcell Hle] using Reachable_ind_moves.
  - repeat split; try reflexivity; discriminate.
  - destruct IH as (Hlen & Hresult & _ & _ & Hmoves & Hmarks & _).
    assert (Hnone : checkWinner (board s) = None).
    { apply getGameResult_in_progress. congruence. }
    split; [simpl; by rewrite length_place |].
    split; [by apply stateAfter_result |].
    split; [done |]. split; [done |].
    split; [simpl; rewrite (occupiedCells_place _ _ _ Hcell); lia |].
    rewrite Hres in Hmarks. rewrite bool_decide_eq_true_2 in Hmarks by done.
    simpl. rewrite !(marksOf_place _ _ _ _ Hcell).
    destruct (checkWinner (place (board s) move (currentPlayer s))) as [w |] eqn:Hw.
    + destruct (currentPlayer s); simpl in *; repeat split; try done; lia.
    + destruct (isDraw (place (board s) move (currentPlayer s)));
        destruct (currentPlayer s); simpl in *; repeat split; try done; lia.
Qed.

Lemma Reachable_draw_full (gameState : GameState) :
  Reachable gameState -> result gameState = DRAW ->
  Forall (fun cell => cell <> CELL_EMPTY) (board gameState).
Proof.
  intros (_ & Hresult & _)%Reachable_wellformed Hd. rewrite Hresult in Hd.
  unfold getGameResult in Hd.
  destruct (checkWinner (board gameState)) as [[[] ?] |]; try discriminate.
  destruct (isDraw (board gameState)) eqn:Hdraw; [| discriminate].
  by apply isDraw_spec in Hdraw as [? _].
Qed.

(** X6.  In every reachable state the stored result is [getGameResult]
    of the stored board, and the stored winner and winning line are those
    [checkWinner] reports on it.  So a state in progress or drawn has no
    winner and no winning line, a drawn state has a full board, and a won
    state stores one of the eight triples, whose three cells hold the
    mark of the stored winner, who is the user for [USER_WIN] and the AI
    for [AI_WIN]. *)
Theorem reachable_result_consistent (gameState : GameState) :
  Reachable gameState ->
  result gameState = getGameResult (board gameState)
  /\ gsWinner gameState = winner <$> checkWinner (board gameState)
  /\ gsWinningLine gameState = winningLine <$> checkWinner (board gameState)
  /\ (result gameState = IN_PROGRESS \/ result gameState = DRAW ->
      gsWinner gameState = None /\ gsWinningLine gameState = None)
  /\ (result gameState = DRAW ->
      Forall (fun cell => cell <> CELL_EMPTY) (board gameState))
  /\ (result gameState = USER_WIN \/ result gameState = AI_WIN ->
      exists player a b c,
        gsWinner gameState = Some player
        /\ result gameState = match player with USER => USER_WIN | AI => AI_WIN end
        /\ gsWinningLine gameState = Some (a, b, c)
        /\ (a, b, c) ∈ winningCombinations
        /\ board gameState !! a = Some (markOf player)
        /\ board gameState !! b = Some (markOf player)
        /\ board gameState !! c = Some (markOf player)).
Proof.
  intros (_ & Hresult & Hwinner & Hline & _)%Reachable_wellformed.
  split; [done |]. split; [done |]. split; [done |].
  rewrite Hwinner, Hline, Hresult. unfold getGameResult.
  destruct (checkWinner (board gameState)) as [[who [[a b] c]] |] eqn:Hw; simpl.
  - split; [intros [? | ?]; by destruct who |].
    split; [by destruct who |]. intros _.
    destruct (checkWinner_owner _ _ Hw) as (Hin & Ha & Hb & Hc). simpl in *.
    exists who, a, b, c. repeat split; try done; by destruct who.
  - split; [done |]. split.
    + destruct (isDraw (board gameState)) eqn:Hd; [| done].
      intros _. by apply isDraw_spec in Hd as [? _].
    + destruct (isDraw (board gameState)); intros [? | ?]; done.
Qed.

Lemma reachable_result_consistent_witness :
  let gameState : GameState :=
    {| board := cornerOpening; currentPlayer := AI; moves := 1;
       difficulty := DIFFICULTIES_HARD; result := IN_PROGRESS;
       gsWinner := None; gsWinningLine := None; lastAIMove := None |} in
  Reachable gameState /\ result gameState = getGameResult (board gameState).
Proof.
  intros gameState.
  assert (Hreach : Reachable gameState).
  { apply (reach_user (createInitialGameState DIFFICULTIES_HARD) 0).
    - apply reach_init.
    - reflexivity. }
  split; [exact Hreach |].
  exact (proj1 (reachable_result_consistent gameState Hreach)).
Defined.

(** X7.  In every reachable state the players have alternated, the user
    first: the user's marks are as many as the AI's or one more, and
    together they are [moves].  While the game is in progress it is the
    user's turn exactly when the marks are even.  A game the user has won
    or that is drawn stays on the user's turn with one mark more for the
    user (five against four in a draw); a game the AI has won stays on
    the AI's turn with equal marks. *)
Theorem reachable_turns_alternate (gameState : GameState) :
  Reachable gameState ->
  let x := marksOf USER (board gameState) in
  let o := marksOf AI (board gameState) in
  (x = o \/ x = S o)
  /\ moves gameState = Z.of_nat (x + o)
  /\ (result gameState = IN_PROGRESS -> (currentPlayer gameState = USER <-> x = o))
  /\ (result gameState = USER_WIN -> currentPlayer gameState = USER /\ x = S o)
  /\ (result gameState = AI_WIN -> currentPlayer gameState = AI /\ x = o)
  /\ (result gameState = DRAW -> currentPlayer gameState = USER /\ x = 5%nat /\ o = 4%nat).
Proof.
  intros Hreach x o.
  pose proof (Reachable_draw_full gameState Hreach) as Hdraw.
  destruct (Reachable_wellformed _ Hreach)
    as (Hlen & _ & _ & _ & Hmoves & Hmarks & Huser & Hai).
  pose proof (marksOf_total (board gameState)) as Htotal.
  fold x o in Hmarks, Htotal.
  assert (Hfull : result gameState = DRAW -> (x + o)%nat = 9%nat).
  { intros Hd. rewrite Htotal. specialize (Hdraw Hd).
    pose proof (availableFrom_length 0 (board gameState)) as Hcount.
    apply getAvailableMoves_nil in Hdraw. unfold getAvailableMoves in Hdraw.
    rewrite Hdraw in Hcount. simpl in Hcount. lia. }
  destruct (result gameState) eqn:Hres, (currentPlayer gameState) eqn:Hturn;
    simpl in Hmarks;
    repeat split; try done; try lia; try (intros _; lia);
    try (specialize (Huser eq_refl)); try (specialize (Hai eq_refl));
    try (specialize (Hfull eq_refl)); try done; try lia.
Qed.

Lemma reachable_turns_alternate_witness :
  let gameState : GameState :=
    {| board := cornerOpening; currentPlayer := AI; moves := 1;
       difficulty := DIFFICULTIES_HARD; result := IN_PROGRESS;
       gsWinner := None; gsWinningLine := None; lastAIMove := None |} in
  Reachable gameState
  /\ (marksOf USER (board gameState) = marksOf AI (board gameState)
      \/ marksOf USER (board gameState) = S (marksOf AI (board gameState))).
Proof.
  intros gameState.
  assert (Hreach : Reachable gameState).
  { apply (reach_user (createInitialGameState DIFFICULTIES_HARD) 0).
    - apply reach_init.
    - reflexivity. }
  split; [exact Hreach |].
  exact (proj1 (reachable_turns_alternate gameState Hreach)).
Defined.

(** ** Game statistics *)

Lemma ceilHalf_floorHalf n :
  ceilHalf n + floorHalf n = n /\ 0 <= ceilHalf n - floorHalf n <= 1.
Proof.
  unfold ceilHalf, floorHalf.
  pose proof (Z.div_mod n 2). pose proof (Z.mod_pos_bound n 2).
  pose proof (Z.div_mod (- n) 2). pose proof (Z.mod_pos_bound (- n) 2). lia.
Qed.

(** X8.  The user's and the AI's moves that [getGameStats] reports add up
    to the total and differ by at most one, the user's being the larger,
    for every integer [moves]; the game is reported completed exactly
    when its result is not in progress.  For a reachable state the three
    counts are those of the board: the total is the number of non-empty
    cells, the user's moves the number of the user's marks and the AI's
    moves the number of the AI's marks. *)
Theorem getGameStats_counts (gameState : GameState) :
  let stats := getGameStats gameState in
  statsUserMoves stats + statsAiMoves stats = statsTotalMoves stats
  /\ 0 <= statsUserMoves stats - statsAiMoves stats <= 1
  /\ (statsIsCompleted stats = true <-> result gameState <> IN_PROGRESS)
  /\ (Reachable gameState ->
      statsTotalMoves stats = Z.of_nat (occupiedCells (board gameState))
      /\ statsUserMoves stats = Z.of_nat (marksOf USER (board gameState))
      /\ statsAiMoves stats = Z.of_nat (marksOf AI (board gameState))).
Proof.
  simpl. destruct (ceilHalf_floorHalf (moves gameState)) as [Hsum Hdiff].
  split; [done |]. split; [done |]. split.
  - rewrite negb_true_iff, bool_decide_eq_false. done.
  - intros Hreach.
    destruct (Reachable_wellformed _ Hreach) as (_ & _ & _ & _ & Hmoves & Hmarks & _).
    pose proof (marksOf_total (board gameState)) as Htotal.
    split; [done |].
    assert (Hx : marksOf USER (board gameState) = marksOf AI (board gameState)
                 \/ marksOf USER (board gameState) = S (marksOf AI (board gameState))).
    { repeat case_bool_decide; lia. }
    lia.
Qed.

Lemma getGameStats_counts_witness :
  let gameState : GameState :=
    {| board := cornerOpening; currentPlayer := AI; moves := 1;
       difficulty := DIFFICULTIES_HARD; result := IN_PROGRESS;
       gsWinner := None; gsWinningLine := None; lastAIMove := None |} in
  statsUserMoves (getGameStats gameState) = Z.of_nat (marksOf USER (board gameState))
  /\ statsAiMoves (getGameStats gameState) = Z.of_nat (marksOf AI (board gameState)).
Proof.
  intros gameState.
  assert (Hreach : Reachable gameState).
  { apply (reach_user (createInitialGameState DIFFICULTIES_HARD) 0).
    - apply reach_init.
    - reflexivity. }
  destruct (getGameStats_counts gameState) as (_ & _ & _ & Hcounts).
  destruct (Hcounts Hreach) as (_ & Huser & Hai).
  split; [exact Huser | exact Hai].
Defined.

(** ** A complete turn *)

Lemma Reachable_draw_turn (gameState : GameState) :
  Reachable gameState -> result gameState = DRAW -> currentPlayer gameState = USER.
Proof.
  intros Hreach Hd.
  pose proof (Reachable_draw_full _ Hreach Hd) as Hfull.
  destruct (Reachable_wellformed _ Hreach) as (Hlen & _ & _ & _ & _ & Hmarks & _).
  pose proof (marksOf_total (board gameState)) as Htotal.
  pose proof (availableFrom_length 0 (board gameState)) as Hcount.
  apply getAvailableMoves_nil in Hfull. unfold getAvailableMoves in Hfull.
  rewrite Hfull in Hcount. simpl in Hcount.
  rewrite Hd in Hmarks. simpl in Hmarks.
  destruct (currentPlayer gameState); [done |]. simpl in Hmarks. lia.
Qed.

Lemma completeTurn_user_only random (gameState gameState1 : GameState) position :
  processUserMove gameState position = Returns gameState1 ->
  result gameState1 <> IN_PROGRESS ->
  completeTurn random gameState position = Returns gameState1.
Proof.
  intros Hcall Hres. unfold completeTurn. rewrite Hcall. simpl.
  by rewrite bool_decide_eq_false_2.
Qed.

Lemma completeTurn_both random (gameState gameState1 : GameState) position :
  processUserMove gameState position = Returns gameState1 ->
  result gameState1 = IN_PROGRESS ->
  completeTurn random gameState position = processAIMove random gameState1.
Proof.
  intros Hcall Hres. unfold completeTurn. rewrite Hcall. simpl.
  by rewrite bool_decide_eq_true_2.
Qed.

Lemma processUserMove_outcome (gameState gameState' : GameState) position :
  processUserMove gameState position = Returns gameState' ->
  moves gameState' = moves gameState + 1
  /\ ((result gameState' = USER_WIN /\ currentPlayer gameState' = USER)
      \/ (result gameState' = DRAW /\ currentPlayer gameState' = USER)
      \/ (result gameState' = IN_PROGRESS /\ currentPlayer gameState' = AI)).
Proof.
  intros (_ & _ & move & _ & _ & ->)%processUserMove_success. simpl.
  split; [done |].
  destruct (checkWinner (place (board gameState) move USER)); [by left |].
  destruct (isDraw (place (board gameState) move USER)); [right; by left |].
  right. by right.
Qed.

Lemma processAIMove_outcome random (gameState gameState' : GameState) :
  processAIMove random gameState = Returns gameState' ->
  moves gameState' = moves gameState + 1
  /\ (exists p, lastAIMove gameState' = Some p /\ board gameState' !! p = Some CELL_AI)
  /\ ((result gameState' = AI_WIN /\ currentPlayer gameState' = AI)
      \/ (result gameState' = DRAW /\ currentPlayer gameState' = AI)
      \/ (result gameState' = IN_PROGRESS /\ currentPlayer gameState' = USER)).
Proof.
  intros (_ & _ & move & Hcell & _ & ->)%processAIMove_success. simpl.
  split; [done |]. split.
  { exists move. split; [done |]. unfold place.
    apply list_lookup_insert_eq. by apply lookup_lt_Some in Hcell. }
  destruct (checkWinner (place (board gameState) move AI)); [by left |].
  destruct (isDraw (place (board gameState) move AI)); [right; by left |].
  right. by right.
Qed.

(** The AI's move on a reachable state in progress on its turn returns. *)
Lemma processAIMove_reachable_returns random (gameState : GameState) :
  Reachable gameState -> validRandom random ->
  difficulty gameState = DIFFICULTIES_EASY
  \/ difficulty gameState = DIFFICULTIES_MEDIUM
  \/ difficulty gameState = DIFFICULTIES_HARD ->
  result gameState = IN_PROGRESS -> currentPlayer gameState = AI ->
  exists gameState', processAIMove random gameState = Returns gameState'.
Proof.
  intros Hreach Hrandom Hdiff Hres Hturn.
  destruct (Reachable_wellformed _ Hreach) as (Hlen & Hresult & _).
  assert (Hnone : checkWinner (board gameState) = None).
  { apply getGameResult_in_progress. congruence. }
  destruct (Reachable_invariant _ Hreach) as (_ & _ & Hempty).
  destruct (getAIMove_available random (board gameState) (difficulty gameState))
    as (p & Hmove & Hin); try done; [lia | by apply Hempty |].
  pose proof (proj1 (elem_of_getAvailableMoves _ _) Hin) as Hcell.
  assert (Hvalid : isValidMove (board gameState) (Z.of_nat p) = true).
  { apply isValidMove_spec. rewrite Nat2Z.id. split; [| done].
    apply lookup_lt_Some in Hcell. lia. }
  eexists. by apply processAIMove_returns.
Qed.

(** X9.  [completeTurn] throws what [processUserMove] throws; when the
    user's move ends the game it returns the state after that move alone,
    and otherwise it is [processAIMove] on that state.  From a reachable
    state in progress on the user's turn, with a known difficulty, a
    random source of doubles in [0, 1) and a valid position, it always
    returns, and the state it returns is reachable: either the user's
    move ended the game (one move more, the user has won or the game is
    drawn), or both players moved (two moves more, the AI's position
    recorded, the AI has won or the game goes on with the user to move;
    a complete turn never ends in a draw by the AI's move). *)
Theorem completeTurn_contract random (gameState : GameState) (position : Z) :
  (forall e, processUserMove gameState position = Throws e ->
             completeTurn random gameState position = Throws e)
  /\ (forall gameState1,
        processUserMove gameState position = Returns gameState1 ->
        (result gameState1 <> IN_PROGRESS ->
         completeTurn random gameState position = Returns gameState1)
        /\ (result gameState1 = IN_PROGRESS ->
            completeTurn random gameState position = processAIMove random gameState1))
  /\ (Reachable gameState ->
      validRandom random ->
      difficulty gameState = DIFFICULTIES_EASY
      \/ difficulty gameState = DIFFICULTIES_MEDIUM
      \/ difficulty gameState = DIFFICULTIES_HARD ->
      result gameState = IN_PROGRESS ->
      currentPlayer gameState = USER ->
      isValidMove (board gameState) position = true ->
      exists gameState',
        completeTurn random gameState position = Returns gameState'
        /\ Reachable gameState'
        /\ ((moves gameState' = moves gameState + 1
             /\ (result gameState' = USER_WIN \/ result gameState' = DRAW)
             /\ currentPlayer gameState' = USER)
            \/ (moves gameState' = moves gameState + 2
                /\ (exists p, lastAIMove gameState' = Some p
                              /\ board gameState' !! p = Some CELL_AI)
                /\ ((result gameState' = AI_WIN /\ currentPlayer gameState' = AI)
                    \/ (result gameState' = IN_PROGRESS
                        /\ currentPlayer gameState' = USER))))).
Proof.
  split; [| split].
  - intros e He. unfold completeTurn. by rewrite He.
  - intros gameState1 Hcall. split.
    + by apply completeTurn_user_only.
    + by apply completeTurn_both.
  - intros Hreach Hrandom Hdiff Hres Hturn Hvalid.
    pose proof (processUserMove_returns _ _ Hres Hturn Hvalid) as Hcall.
    simpl in Hcall.
    match type of Hcall with _ = Returns ?s => remember s as gameState1 eqn:Hstate end.
    assert (Hdiff1 : difficulty gameState1 = difficulty gameState) by by subst.
    clear Hstate.
    assert (Hreach1 : Reachable gameState1) by by apply (reach_user gameState position).
    destruct (processUserMove_outcome _ _ _ Hcall)
      as (Hmoves1 & [[Hres1 Hturn1] | [[Hres1 Hturn1] | [Hres1 Hturn1]]]).
    + exists gameState1. split; [apply completeTurn_user_only; [done | congruence] |].
      split; [done |]. left. auto.
    + exists gameState1. split; [apply completeTurn_user_only; [done | congruence] |].
      split; [done |]. left. auto.
    + rewrite (completeTurn_both random _ _ _ Hcall Hres1).
      destruct (processAIMove_reachable_returns random gameState1)
        as [gameState2 Hcall2]; try done; [by rewrite Hdiff1 |].
      assert (Hreach2 : Reachable gameState2) by by apply (reach_ai random gameState1).
      destruct (processAIMove_outcome _ _ _ Hcall2)
        as (Hmoves2 & Hlast & [[Hres2 Hturn2] | [[Hres2 Hturn2] | [Hres2 Hturn2]]]).
      * exists gameState2. split; [done |]. split; [done |]. right.
        split; [lia |]. split; [done |]. by left.
      * pose proof (Reachable_draw_turn _ Hreach2 Hres2). congruence.
      * exists gameState2. split; [done |]. split; [done |]. right.
        split; [lia |]. split; [done |]. by right.
Qed.

Lemma completeTurn_contract_witness :
  let random : RandomSource :=
    fun n => match n with
             | O => (1 # 2)%Q
             | _ => (3752999689475413 # 4503599627370496)%Q
             end in
  exists gameState',
    completeTurn random (createInitialGameState DIFFICULTIES_EASY) 0 = Returns gameState'
    /\ Reachable gameState'.
Proof.
  intros random.
  destruct (completeTurn_contract random (createInitialGameState DIFFICULTIES_EASY) 0)
    as (_ & _ & Hturn).
  destruct Hturn as (gameState' & Hcall & Hreach & _).
  - apply reach_init.
  - intros [| n]; (split; [vm_compute; reflexivity |]);
      split; unfold Qle, Qlt; simpl; lia.
  - left. reflexivity.
  - reflexivity.
  - reflexivity.
  - reflexivity.
  - exists gameState'. split; [exact Hcall | exact Hreach].
Defined.

(** ** The pruned search against the exhaustive one *)

(** X10.  Alpha-beta pruning does not change what the search finds.  On
    a board of at most nine cells [minimax] returns for every depth, flag
    and window [alpha < beta]; the score it returns bounds the exact
    minimax value (the one computed without a window, every child
    searched) from above when it is at most [alpha], from below when it
    is at least [beta], and is the exact value when it lies strictly
    inside the window.  With the window from [-Infinity] to [Infinity]
    the returned score is the exact value. *)
Theorem alpha_beta_sound (board : Board) (depth : nat) (isMaximizing : bool)
    (alpha beta : Num) :
  (length board <= 9)%nat ->
  num_ltb alpha beta = true ->
  (exists r,
      minimax board depth isMaximizing alpha beta = Returns r
      /\ (num_leb (score r) alpha = true ->
          num_leb (exactScore board depth isMaximizing) (score r) = true)
      /\ (num_ltb alpha (score r) = true -> num_ltb (score r) beta = true ->
          exactScore board depth isMaximizing = score r)
      /\ (num_leb beta (score r) = true ->
          num_leb (score r) (exactScore board depth isMaximizing) = true))
  /\ (exists r,
        minimax board depth isMaximizing NegInfinity PosInfinity = Returns r
        /\ score r = exactScore board depth isMaximizing).
Proof.
  intros Hlen Hwin. split.
  - destruct (minimax_returns depth board isMaximizing alpha beta Hlen) as [r Hr].
    exists r. split; [done |]. exact (minimax_sound _ _ _ _ _ _ Hwin Hr).
  - destruct (minimax_exact board depth isMaximizing Hlen) as (r & Hr & Hs & _).
    by exists r.
Qed.

Lemma alpha_beta_sound_witness :
  exists r,
    minimax cornerOpening 9 false (Fin (-1)) (Fin 1) = Returns r
    /\ (num_leb (score r) (Fin (-1)) = true ->
        num_leb (exactScore cornerOpening 9 false) (score r) = true).
Proof.
  destruct (alpha_beta_sound cornerOpening 9 false (Fin (-1)) (Fin 1))
    as [(r & Hr & Hlow & _) _].
  - simpl. lia.
  - reflexivity.
  - exists r. split; [exact Hr | exact Hlow].
Defined.

(** ** The sign of the value and forced wins *)

Lemma num_ltb_max_l x y c : num_ltb (num_max x y) c = num_ltb x c && num_ltb y c.
Proof.
  destruct (exists_fits [x; y; c]) as (M & _ & HM). split_fits HM.
  rewrite !(enc_ltb M), (enc_max M) by (done || by apply fits_max).
  destruct (Z.ltb_spec (Z.max (enc M x) (enc M y)) (enc M c)),
    (Z.ltb_spec (enc M x) (enc M c)), (Z.ltb_spec (enc M y) (enc M c)); simpl; lia.
Qed.

Lemma num_ltb_min_l x y c : num_ltb (num_min x y) c = num_ltb x c || num_ltb y c.
Proof.
  destruct (exists_fits [x; y; c]) as (M & _ & HM). split_fits HM.
  rewrite !(enc_ltb M), (enc_min M) by (done || by apply fits_min).
  destruct (Z.ltb_spec (Z.min (enc M x) (enc M y)) (enc M c)),
    (Z.ltb_spec (enc M x) (enc M c)), (Z.ltb_spec (enc M y) (enc M c)); simpl; lia.
Qed.

Lemma num_ltb_max_r x y c : num_ltb c (num_max x y) = num_ltb c x || num_ltb c y.
Proof.
  destruct (exists_fits [x; y; c]) as (M & _ & HM). split_fits HM.
  rewrite !(enc_ltb M), (enc_max M) by (done || by apply fits_max).
  destruct (Z.ltb_spec (enc M c) (Z.max (enc M x) (enc M y))),
    (Z.ltb_spec (enc M c) (enc M x)), (Z.ltb_spec (enc M c) (enc M y)); simpl; lia.
Qed.

Lemma num_ltb_min_r x y c : num_ltb c (num_min x y) = num_ltb c x && num_ltb c y.
Proof.
  destruct (exists_fits [x; y; c]) as (M & _ & HM). split_fits HM.
  rewrite !(enc_ltb M), (enc_min M) by (done || by apply fits_min).
  destruct (Z.ltb_spec (enc M c) (Z.min (enc M x) (enc M y))),
    (Z.ltb_spec (enc M c) (enc M x)), (Z.ltb_spec (enc M c) (enc M y)); simpl; lia.
Qed.

Lemma foldScores_below {A} (value : A -> Num) (test : A -> bool) c isMaximizing (l : list A) :
  (forall a, num_ltb (value a) (Fin c) = test a) ->
  num_ltb (foldScores isMaximizing (map value l)) (Fin c)
  = if isMaximizing then forallb test l else existsb test l.
Proof.
  intros Htest. unfold foldScores. destruct isMaximizing.
  - induction l as [| a l IH]; simpl; [done |].
    by rewrite num_ltb_max_l, Htest, IH.
  - induction l as [| a l IH]; simpl; [done |].
    by rewrite num_ltb_min_l, Htest, IH.
Qed.

Lemma foldScores_above {A} (value : A -> Num) (test : A -> bool) c isMaximizing (l : list A) :
  (forall a, num_ltb (Fin c) (value a) = test a) ->
  num_ltb (Fin c) (foldScores isMaximizing (map value l))
  = if isMaximizing then existsb test l else forallb test l.
Proof.
  intros Htest. unfold foldScores. destruct isMaximizing.
  - induction l as [| a l IH]; cbn [map foldr forallb existsb]; [done |].
    by rewrite num_ltb_max_r, Htest, IH.
  - induction l as [| a l IH]; cbn [map foldr forallb existsb]; [done |].
    by rewrite num_ltb_min_r, Htest, IH.
Qed.

Lemma forallb_map {A B} (f : A -> B) (test : B -> bool) (l : list A) :
  forallb test (map f l) = forallb (fun a => test (f a)) l.
Proof. induction l as [| a l IH]; simpl; [done | by rewrite IH]. Qed.

Lemma existsb_map {A B} (f : A -> B) (test : B -> bool) (l : list A) :
  existsb test (map f l) = existsb (fun a => test (f a)) l.
Proof. induction l as [| a l IH]; simpl; [done | by rewrite IH]. Qed.

Lemma terminalScore_Some_negative (board : Board) depth z :
  terminalScore board depth = Some z ->
  (z <? 0) = userForcesWin depth board USER
  /\ (z <? 0) = userForcesWin depth board AI
  /\ (0 <? z) = aiForcesWin depth board USER
  /\ (0 <? z) = aiForcesWin depth board AI.
Proof.
  unfold terminalScore.
  destruct (checkWinner board) as [[[] line] |] eqn:Hw.
  - intros [= <-]. destruct depth; cbn [userForcesWin aiForcesWin]; rewrite Hw;
      cbn [winner]; rewrite ?bool_decide_eq_false_2, ?bool_decide_eq_true_2 by done;
      repeat split; rewrite ?Z.ltb_lt, ?Z.ltb_ge; lia.
  - intros [= <-]. destruct depth; cbn [userForcesWin aiForcesWin]; rewrite Hw;
      cbn [winner]; rewrite ?bool_decide_eq_false_2, ?bool_decide_eq_true_2 by done;
      repeat split; rewrite ?Z.ltb_lt, ?Z.ltb_ge; lia.
  - destruct (isDraw board) eqn:Hd.
    + intros [= <-]. apply isDraw_spec in Hd as [Hfull%getAvailableMoves_nil _].
      destruct depth; simpl; rewrite Hw, ?Hfull; done.
    + destruct depth; [| discriminate]. intros [= <-]. simpl. by rewrite Hw.
Qed.

Lemma exactScore_sign depth : forall (board : Board) isMaximizing,
  num_ltb (exactScore board depth isMaximizing) (Fin 0)
  = userForcesWin depth board (if isMaximizing then AI else USER)
  /\ num_ltb (Fin 0) (exactScore board depth isMaximizing)
     = aiForcesWin depth board (if isMaximizing then AI else USER).
Proof.
  induction depth as [| depth IH]; intros board isMaximizing.
  - destruct (terminalScore board 0) as [z |] eqn:Ht.
    + rewrite (exactScore_terminal _ _ _ _ Ht). simpl.
      destruct (terminalScore_Some_negative _ _ _ Ht) as (? & ? & ? & ?).
      by destruct isMaximizing.
    + unfold terminalScore in Ht.
      destruct (checkWinner board) as [[[] ?] |], (isDraw board); discriminate.
  - destruct (terminalScore board (S depth)) as [z |] eqn:Ht.
    + rewrite (exactScore_terminal _ _ _ _ Ht). simpl num_ltb.
      destruct (terminalScore_Some_negative _ _ _ Ht) as (? & ? & ? & ?).
      by destruct isMaximizing.
    + rewrite (exactScore_step _ _ _ Ht).
      destruct (terminalScore_None_available _ _ Ht) as [m Hm].
      assert (Hne : map (fun move => place board move (if isMaximizing then AI else USER))
                      (getAvailableMoves board) <> []).
      { intros Hnil%map_eq_nil. rewrite Hnil in Hm. inversion Hm. }
      unfold terminalScore in Ht.
      destruct (checkWinner board) as [[[] ?] |] eqn:Hw; try discriminate.
      rewrite (foldScores_below _
                 (fun move => userForcesWin depth
                                (place board move (if isMaximizing then AI else USER))
                                (if negb isMaximizing then AI else USER)))
        by (intros a; apply IH).
      rewrite (foldScores_above _
                 (fun move => aiForcesWin depth
                                (place board move (if isMaximizing then AI else USER))
                                (if negb isMaximizing then AI else USER)))
        by (intros a; apply IH).
      simpl. rewrite Hw.
      destruct isMaximizing; simpl in *;
        rewrite ?forallb_map, ?existsb_map, ?bool_decide_eq_false_2 by done; done.
Qed.

(** X11.  The sign of the search value decides the game within the
    search depth.  For every board, depth and flag, with the side to move
    being the AI when the flag is set and the user otherwise: the exact
    value is negative exactly when the user can force a win within
    [depth] plies, and positive exactly when the AI can.  On a board of
    at most nine cells this is the score [minimax] returns for the full
    window, so a score of 0 means neither side can force a win within the
    depth. *)
Theorem minimax_sign_forced_win (board : Board) (depth : nat) (isMaximizing : bool) :
  let toMove := if isMaximizing then AI else USER in
  num_ltb (exactScore board depth isMaximizing) (Fin 0) = userForcesWin depth board toMove
  /\ num_ltb (Fin 0) (exactScore board depth isMaximizing) = aiForcesWin depth board toMove
  /\ ((length board <= 9)%nat ->
      exists r z,
        minimax board depth isMaximizing NegInfinity PosInfinity = Returns r
        /\ score r = Fin z
        /\ (z < 0 <-> userForcesWin depth board toMove = true)
        /\ (0 < z <-> aiForcesWin depth board toMove = true)
        /\ (z = 0 <-> userForcesWin depth board toMove = false
                      /\ aiForcesWin depth board toMove = false)).
Proof.
  simpl. destruct (exactScore_sign depth board isMaximizing) as [Huser Hai].
  split; [done |]. split; [done |]. intros Hlen.
  destruct (minimax_exact board depth isMaximizing Hlen) as (r & Hr & Hs & z & Hz).
  exists r, z. split; [done |]. split; [done |].
  rewrite <- Hs, Hz in Huser, Hai. simpl in Huser, Hai.
  rewrite <- Huser, <- Hai. rewrite !Z.ltb_lt, !Z.ltb_ge. lia.
Qed.

Lemma minimax_sign_forced_win_witness :
  exists r z,
    minimax (place cornerOpening 1 AI) 8 false NegInfinity PosInfinity = Returns r
    /\ score r = Fin z
    /\ (z < 0 <-> userForcesWin 8 (place cornerOpening 1 AI) USER = true).
Proof.
  destruct (minimax_sign_forced_win (place cornerOpening 1 AI) 8 false) as (_ & _ & H).
  destruct H as (r & z & Hr & Hz & Hneg & _).
  - simpl. lia.
  - exists r, z. repeat split; try assumption; apply Hneg.
Defined.

(** ** Blocking the user's immediate win *)

Lemma foldScores_range isMaximizing lo hi (scores : list Num) :
  scores <> [] ->
  Forall (fun s => exists z, s = Fin z /\ lo <= z <= hi) scores ->
  exists z, foldScores isMaximizing scores = Fin z /\ lo <= z <= hi.
Proof.
  intros Hne Hall. unfold foldScores.
  destruct scores as [| s scores]; [done |]. clear Hne.
  revert s Hall. induction scores as [| s' scores IH]; intros s Hall.
  - apply Forall_cons in Hall as [(z & -> & Hz) _].
    exists z. by destruct isMaximizing.
  - apply Forall_cons in Hall as [(z & -> & Hz) Hall].
    destruct (IH s' Hall) as (z' & Hz' & Hrange).
    destruct isMaximizing; simpl in *; rewrite Hz'; unfold num_max, num_min; simpl;
      destruct (_ <? _); eauto.
Qed.

(** The exact value lies within [depth + 1] of zero and reaches the
    lower bound only at a position the user has already won. *)
Lemma exactScore_range depth : forall (board : Board) isMaximizing,
  exists z,
    exactScore board depth isMaximizing = Fin z
    /\ - (Z.of_nat depth + 1) <= z <= Z.of_nat depth + 1
    /\ (z = - (Z.of_nat depth + 1) ->
        exists w, checkWinner board = Some w /\ winner w = USER).
Proof.
  induction depth as [| depth IH]; intros board isMaximizing.
  - destruct (terminalScore board 0) as [z |] eqn:Ht.
    + rewrite (exactScore_terminal _ _ _ _ Ht). exists z. split; [done |].
      pose proof (terminalScore_bound _ _ _ Ht). split; [done |].
      unfold terminalScore in Ht.
      destruct (checkWinner board) as [[[] line] |]; [eauto | |];
        [| destruct (isDraw board)]; injection Ht as <-; simpl; lia.
    + unfold terminalScore in Ht.
      destruct (checkWinner board) as [[[] ?] |], (isDraw board); discriminate.
  - destruct (terminalScore board (S depth)) as [z |] eqn:Ht.
    + rewrite (exactScore_terminal _ _ _ _ Ht). exists z. split; [done |].
      pose proof (terminalScore_bound _ _ _ Ht). split; [done |].
      unfold terminalScore in Ht.
      destruct (checkWinner board) as [[[] line] |]; [eauto | |];
        [| destruct (isDraw board); [| discriminate]]; injection Ht as <-; lia.
    + rewrite (exactScore_step _ _ _ Ht).
      destruct (terminalScore_None_available _ _ Ht) as [m Hm].
      destruct (foldScores_range isMaximizing (- (Z.of_nat depth + 1)) (Z.of_nat depth + 1)
                  (map (fun move =>
                          exactScore (place board move (if isMaximizing then AI else USER))
                            depth (negb isMaximizing))
                     (getAvailableMoves board))) as (z & Hz & Hrange).
      * intros Hnil%map_eq_nil. rewrite Hnil in Hm. inversion Hm.
      * apply Forall_forall. intros s (move & -> & _)%list_elem_of_fmap.
        destruct (IH (place board move (if isMaximizing then AI else USER))
                    (negb isMaximizing)) as (z & Hz & Hrange & _). eauto.
      * exists z. split; [done |]. split; lia.
Qed.

Lemma completesUserLine_spec (board : Board) move :
  completesUserLine board move = true
  <-> exists w, checkWinner (place board move USER) = Some w /\ winner w = USER.
Proof.
  unfold completesUserLine.
  destruct (checkWinner (place board move USER)) as [[[] line] |]; split;
    try done; try (intros (w & [= <-] & ?); done); eauto;
    try (intros (w & ? & _); done).
Qed.

(** The search that minimizes at the top ply returns the first empty
    cell on which the user's mark completes a line, when there is one. *)
Lemma minimax_blocks (board : Board) depth move :
  (length board <= 9)%nat ->
  checkWinner board = None ->
  move ∈ getAvailableMoves board ->
  completesUserLine board move = true ->
  (forall m, m ∈ getAvailableMoves board -> (m < move)%nat ->
             completesUserLine board m = false) ->
  minimax board (S depth) false NegInfinity PosInfinity
  = Returns {| position := Some move; score := Fin (- (Z.of_nat depth + 1)) |}.
Proof.
  intros Hlen Hw Hmove Hthreat Hleast.
  pose proof (proj1 (elem_of_getAvailableMoves _ _) Hmove) as Hcell.
  destruct (minimax_top_choice board depth false Hlen
              (terminalScore_in_progress _ depth _ Hw Hcell))
    as (p & best & Hr & Hin & Hbest & Hfirst).
  assert (Hscore : exactScore (place board move USER) depth true
                   = Fin (- (Z.of_nat depth + 1))).
  { apply completesUserLine_spec in Hthreat as ([who line] & Hwin & Hwho).
    simpl in Hwho. subst who.
    rewrite (exactScore_terminal _ _ _ (-10 + (9 - Z.of_nat depth)));
      [f_equal; lia |].
    unfold terminalScore. by rewrite Hwin. }
  assert (Hcand : (move, Fin (- (Z.of_nat depth + 1)))
                  ∈ candidateScores board (S depth) false).
  { apply elem_of_candidateScores. split; [done |]. by rewrite <- Hscore. }
  apply elem_of_candidateScores in Hin as [Hp Hpbest]. simpl in Hpbest.
  destruct (exactScore_range depth (place board p USER) true) as (z & Hz & Hrange & Hlow).
  rewrite Hz in Hpbest. subst best.
  pose proof (Hbest _ _ Hcand) as Hnot. simpl in Hnot. apply Z.ltb_ge in Hnot.
  assert (z = - (Z.of_nat depth + 1)) as -> by lia.
  assert (Hle : (p <= move)%nat) by by apply Hfirst.
  assert (Hge : ~ (p < move)%nat).
  { intros Hlt. specialize (Hleast p Hp Hlt).
    rewrite (proj2 (completesUserLine_spec board p) (Hlow eq_refl)) in Hleast.
    discriminate. }
  assert (p = move) as -> by lia. done.
Qed.

(** X12.  The hard tier always blocks.  On a board of at most nine cells
    without a winner, when placing the user's mark on some empty cell
    would complete a line of the user, [getHardAIMove] returns the lowest
    such cell, whatever else is on the board (also when the AI could
    complete a line of its own elsewhere); [getMediumAIMove] does the
    same whenever its first random draw is not below 0.15. *)
Theorem search_tiers_block_threat random (board : Board) (move : nat) :
  (length board <= 9)%nat ->
  checkWinner board = None ->
  board !! move = Some CELL_EMPTY ->
  completesUserLine board move = true ->
  (forall m, board !! m = Some CELL_EMPTY -> (m < move)%nat ->
             completesUserLine board m = false) ->
  getHardAIMove board = Returns (Some move)
  /\ (Qltb (random 0%nat) double_0_15 = false ->
      getMediumAIMove random board = Returns (Some move)).
Proof.
  intros Hlen Hw Hcell Hthreat Hleast.
  assert (Hmove : move ∈ getAvailableMoves board) by by apply elem_of_getAvailableMoves.
  assert (Hleast' : forall m, m ∈ getAvailableMoves board -> (m < move)%nat ->
                              completesUserLine board m = false).
  { intros m Hm%elem_of_getAvailableMoves. by apply Hleast. }
  pose proof (getAvailableMoves_nonempty _ _ Hcell) as Hne.
  split.
  - unfold getHardAIMove. rewrite bool_decide_eq_false_2 by done.
    by rewrite (minimax_blocks board 8 move).
  - intros Hdraw. unfold getMediumAIMove. rewrite bool_decide_eq_false_2 by done.
    rewrite Hdraw. by rewrite (minimax_blocks board 2 move).
Qed.

Lemma search_tiers_block_threat_witness :
  let board := [CELL_USER; CELL_USER; CELL_EMPTY;
                CELL_AI; CELL_AI; CELL_EMPTY;
                CELL_EMPTY; CELL_EMPTY; CELL_EMPTY] in
  getHardAIMove board = Returns (Some 2%nat)
  /\ completesUserLine board 2 = true
  /\ checkWinner (place board 5 AI) = Some {| winner := AI; winningLine := (3, 4, 5)%nat |}.
Proof.
  intros board.
  destruct (search_tiers_block_threat (fun _ => 0%Q) board 2) as [Hhard _].
  - simpl. lia.
  - reflexivity.
  - reflexivity.
  - reflexivity.
  - intros [| [| m]] Hm Hlt; [discriminate | discriminate | lia].
  - split; [exact Hhard |]. split; reflexivity.
Defined.

(** ** The easy tier *)

Lemma Qltb_lt (r t : Q) : Qltb r t = true <-> (r < t)%Q.
Proof.
  unfold Qltb. rewrite negb_true_iff. split.
  - intros Hle. apply Qnot_le_lt. intros H%Qle_bool_iff. congruence.
  - intros Hlt. destruct (Qle_bool t r) eqn:Hle; [| done].
    apply Qle_bool_iff in Hle. exfalso. by apply (Qlt_not_le r t).
Qed.

Lemma findBlockingMove_find (board : Board) availableMoves :
  (length board <= 9)%nat ->
  (forall move, move ∈ availableMoves -> move ∈ getAvailableMoves board) ->
  findBlockingMove board availableMoves
  = Returns (List.find (completesUserLine board) availableMoves).
Proof.
  intros Hlen. induction availableMoves as [| move rest IH]; intros Hmoves; simpl.
  - done.
  - rewrite makeMove_available by (auto; apply Hmoves, list_elem_of_here). simpl.
    rewrite IH by (intros m Hm; apply Hmoves; by apply list_elem_of_further).
    unfold completesUserLine.
    by destruct (checkWinner (place board move USER)) as [[[] line] |].
Qed.

Lemma find_first_ascending (test : nat -> bool) (l : list nat) move :
  Ascending l -> move ∈ l -> test move = true ->
  (forall m, m ∈ l -> (m < move)%nat -> test m = false) ->
  List.find test l = Some move.
Proof.
  induction 1 as [| x l Hall Hasc IH]; intros Hin Htest Hleast.
  - inversion Hin.
  - simpl. apply elem_of_cons in Hin as [<- | Hin].
    + by rewrite Htest.
    + rewrite Forall_forall in Hall.
      rewrite (Hleast x); [| apply list_elem_of_here | by apply Hall].
      apply IH; try done. intros m Hm. apply Hleast. by apply list_elem_of_further.
Qed.

Lemma find_none (test : nat -> bool) (l : list nat) :
  (forall m, m ∈ l -> test m = false) -> List.find test l = None.
Proof.
  induction l as [| x l IH]; intros Hall; simpl; [done |].
  rewrite (Hall x) by apply list_elem_of_here.
  apply IH. intros m Hm. apply Hall. by apply list_elem_of_further.
Qed.

(** X13.  The easy tier on a board of at most nine cells with an empty
    cell.  When the first random draw is below 0.2 and placing the user's
    mark on some empty cell would complete a line of the user, it returns
    the lowest such cell.  Otherwise (the draw is not below 0.2, or no
    cell is threatened) it returns the available move whose index is the
    floor of the double product [r * n], [r] being the second draw and
    [n] the number of available moves; for a double [r] in [0, 1) that
    index is below [n], so the move is an empty cell. *)
Theorem getEasyAIMove_behaviour random (board : Board) :
  (length board <= 9)%nat ->
  (exists i, board !! i = Some CELL_EMPTY) ->
  let availableMoves := getAvailableMoves board in
  let fallback := availableMoves !! randomIndex (random 1%nat) (length availableMoves) in
  (forall move,
      (random 0%nat < double_0_2)%Q ->
      board !! move = Some CELL_EMPTY ->
      completesUserLine board move = true ->
      (forall m, board !! m = Some CELL_EMPTY -> (m < move)%nat ->
                 completesUserLine board m = false) ->
      getEasyAIMove random board = Returns (Some move))
  /\ ((forall m, board !! m = Some CELL_EMPTY -> completesUserLine board m = false) ->
      getEasyAIMove random board = Returns fallback)
  /\ (~ (random 0%nat < double_0_2)%Q ->
      getEasyAIMove random board = Returns fallback)
  /\ (isDouble (random 1%nat) = true -> (0 <= random 1%nat)%Q -> (random 1%nat < 1)%Q ->
      (randomIndex (random 1%nat) (length availableMoves) < length availableMoves)%nat
      /\ exists p, fallback = Some p /\ board !! p = Some CELL_EMPTY).
Proof.
  intros Hlen [i Hi] availableMoves fallback.
  pose proof (getAvailableMoves_nonempty _ _ Hi) as Hne.
  assert (Hcall : getEasyAIMove random board
                  = if Qltb (random 0%nat) double_0_2
                    then match List.find (completesUserLine board) availableMoves with
                         | Some move => Returns (Some move)
                         | None => Returns fallback
                         end
                    else Returns fallback).
  { unfold getEasyAIMove. rewrite bool_decide_eq_false_2 by done.
    destruct (Qltb (random 0%nat) double_0_2); [| done].
    rewrite findBlockingMove_find by done. cbn [bindOutcome].
    subst availableMoves fallback.
    destruct (List.find (completesUserLine board) (getAvailableMoves board)); reflexivity. }
  split; [| split; [| split]].
  - intros move Hdraw%Qltb_lt Hcell Hthreat Hleast. rewrite Hcall, Hdraw.
    rewrite (find_first_ascending _ _ move); try done.
    + apply getAvailableMoves_ascending.
    + by apply elem_of_getAvailableMoves.
    + intros m Hm%elem_of_getAvailableMoves. by apply Hleast.
  - intros Hnone. rewrite Hcall.
    rewrite find_none; [by destruct (Qltb _ _) |].
    intros m Hm%elem_of_getAvailableMoves. by apply Hnone.
  - intros Hdraw. rewrite Hcall.
    destruct (Qltb (random 0%nat) double_0_2) eqn:Hlt; [| done].
    by apply Qltb_lt in Hlt.
  - intros Hd Hlo Hhi.
    assert (Hindex : (randomIndex (random 1%nat) (length availableMoves)
                      < length availableMoves)%nat).
    { apply randomIndex_lt; [done | done | done |]. subst availableMoves. lia. }
    split; [done |].
    destruct (lookup_lt_is_Some_2 availableMoves _ Hindex) as [p Hp].
    exists p. split; [done |]. apply elem_of_getAvailableMoves.
    apply list_elem_of_lookup. eauto.
Qed.

Lemma getEasyAIMove_behaviour_witness :
  let board := [CELL_USER; CELL_AI; CELL_USER;
                CELL_EMPTY; CELL_EMPTY; CELL_EMPTY;
                CELL_EMPTY; CELL_EMPTY; CELL_EMPTY] in
  let random : RandomSource :=
    fun n => match n with
             | O => (1 # 2)%Q
             | _ => (3752999689475413 # 4503599627370496)%Q
             end in
  getEasyAIMove random board = Returns (Some 8%nat).
Proof.
  intros board random.
  destruct (getEasyAIMove_behaviour random board) as (_ & _ & Hfallback & _).
  - simpl. lia.
  - exists 3%nat. reflexivity.
  - rewrite Hfallback; [vm_compute; reflexivity |].
    unfold Qlt. simpl. lia.
Defined.


(** ** Validation of game states *)

Lemma isCellValue_spec (items : list JSValue) :
  forallb isCellValue items = true <-> exists cells, items = map cellValue cells.
Proof.
  split.
  - induction items as [| item items IH]; simpl.
    + intros _. by exists [].
    + intros [Hitem [cells ->]%IH]%andb_true_iff.
      destruct item as [| | | | s | |]; try discriminate.
      * by exists (CELL_EMPTY :: cells).
      * simpl in Hitem. apply orb_true_iff in Hitem as [->%String.eqb_eq | ->%String.eqb_eq].
        -- by exists (CELL_USER :: cells).
        -- by exists (CELL_AI :: cells).
  - intros [cells ->]. induction cells as [| [] cells IH]; simpl; auto.
Qed.

Lemma includesString_spec candidates value :
  includesString candidates value = true
  <-> exists s, value = JSString s /\ s ∈ candidates.
Proof.
  destruct value as [| | | | s | |]; simpl;
    try (split; [discriminate | intros (? & ? & _); discriminate]).
  rewrite existsb_exists. split.
  - intros (x & Hin & ->%String.eqb_eq). exists x. split; [done |].
    by apply list_elem_of_In.
  - intros (x & [= ->] & Hin). exists x. split; [by apply list_elem_of_In |].
    apply String.eqb_refl.
Qed.

Lemma hasField_object properties field :
  hasField (JSObject properties) field = true
  <-> exists value, lookupProperty properties field = Some value.
Proof.
  simpl. destruct (lookupProperty properties field); split; eauto; try discriminate.
  intros [? ?]. discriminate.
Qed.

Lemma validateGameState_object properties :
  validateGameState (JSObject properties) = true
  <-> exists cells player difficulty r movesValue,
      lookupProperty properties "board" = Some (JSArray (map cellValue cells))
      /\ length cells = 9%nat
      /\ lookupProperty properties "currentPlayer" = Some (JSString (playerName player))
      /\ lookupProperty properties "moves" = Some movesValue
      /\ lookupProperty properties "difficulty" = Some (JSString difficulty)
      /\ (difficulty = "easy" \/ difficulty = "medium" \/ difficulty = "hard")
      /\ lookupProperty properties "result" = Some (JSString (resultName r)).
Proof.
  unfold validateGameState, requiredFields. cbn [isFalsy typeofIsObject orb negb forallb].
  cbn [hasField getField].
  destruct (lookupProperty properties "board") as [boardValue |] eqn:Hboard.
  2: { split; [done |]. intros (? & ? & ? & ? & ? & ? & _). discriminate. }
  destruct (lookupProperty properties "currentPlayer") as [playerValue |] eqn:Hplayer.
  2: { split; [done |]. intros (? & ? & ? & ? & ? & _ & _ & ? & _). discriminate. }
  destruct (lookupProperty properties "moves") as [movesValue |] eqn:Hmoves.
  2: { split; [done |]. intros (? & ? & ? & ? & ? & _ & _ & _ & ? & _). discriminate. }
  destruct (lookupProperty properties "difficulty") as [difficultyValue |] eqn:Hdiff.
  2: { split; [done |]. intros (? & ? & ? & ? & ? & _ & _ & _ & _ & ? & _). discriminate. }
  destruct (lookupProperty properties "result") as [resultValue |] eqn:Hresult.
  2: { split; [done |]. intros (? & ? & ? & ? & ? & _ & _ & _ & _ & _ & _ & ?). discriminate. }
  cbn [andb negb].
  split.
  - destruct boardValue as [| | | | | items |]; try discriminate.
    destruct (length items =? 9)%nat eqn:Hlen; [| discriminate]. cbn [negb].
    destruct (forallb isCellValue items) eqn:Hcells; [| discriminate]. cbn [negb].
    destruct (includesString ["user"; "ai"] playerValue) eqn:Hp; [| discriminate].
    destruct (includesString ["easy"; "medium"; "hard"] difficultyValue) eqn:Hd;
      [| discriminate].
    destruct (includesString ["in_progress"; "user_win"; "ai_win"; "draw"] resultValue)
      eqn:Hr; [| discriminate].
    intros _.
    apply isCellValue_spec in Hcells as [cells ->].
    apply includesString_spec in Hp as (ps & -> & Hps).
    apply includesString_spec in Hd as (ds & -> & Hds).
    apply includesString_spec in Hr as (rs & -> & Hrs).
    apply Nat.eqb_eq in Hlen. rewrite length_map in Hlen.
    assert (Hplayer' : exists player, ps = playerName player).
    { set_unfold in Hps. destruct Hps as [-> | [-> | []]]; [by exists USER | by exists AI]. }
    assert (Hresult' : exists r, rs = resultName r).
    { set_unfold in Hrs.
      destruct Hrs as [-> | [-> | [-> | [-> | []]]]];
        [by exists IN_PROGRESS | by exists USER_WIN | by exists AI_WIN | by exists DRAW]. }
    destruct Hplayer' as [player ->]. destruct Hresult' as [r ->].
    exists cells, player, ds, r, movesValue. repeat split; try done.
    set_unfold in Hds. destruct Hds as [-> | [-> | [-> | []]]]; auto.
  - intros (cells & player & difficulty & r & mv & [= ->] & Hlen & [= ->] & _
            & [= ->] & Hd & [= ->]).
    rewrite length_map, Hlen. cbn [Nat.eqb negb].
    rewrite (proj2 (isCellValue_spec _)) by eauto. cbn [negb].
    destruct Hd as [-> | [-> | ->]]; by destruct player, r.
Qed.

(** X14.  [validateGameState] accepts exactly the objects that have a
    [board] property holding an array of nine cells, each [null], 'X' or
    'O', a [currentPlayer] that is 'user' or 'ai', a [difficulty] that is
    'easy', 'medium' or 'hard', a [result] that is one of the four result
    strings, and a [moves] property, whose value is not inspected; every
    value that is not an object is rejected.  Hence the object of a game
    state of the engine is accepted exactly when its board has nine cells
    and its difficulty is one of the three, which holds for every state
    reachable from an initial state with such a difficulty. *)
Theorem validateGameState_accepts (value : JSValue) :
  (validateGameState value = true
   <-> exists properties cells player difficulty r movesValue,
       value = JSObject properties
       /\ lookupProperty properties "board" = Some (JSArray (map cellValue cells))
       /\ length cells = 9%nat
       /\ lookupProperty properties "currentPlayer" = Some (JSString (playerName player))
       /\ lookupProperty properties "moves" = Some movesValue
       /\ lookupProperty properties "difficulty" = Some (JSString difficulty)
       /\ (difficulty = "easy" \/ difficulty = "medium" \/ difficulty = "hard")
       /\ lookupProperty properties "result" = Some (JSString (resultName r)))
  /\ (forall gameState : GameState,
        validateGameState (gameStateObject gameState) = true
        <-> length (board gameState) = 9%nat
            /\ (difficulty gameState = "easy" \/ difficulty gameState = "medium"
                \/ difficulty gameState = "hard"))
  /\ (forall gameState : GameState,
        Reachable gameState ->
        difficulty gameState = "easy" \/ difficulty gameState = "medium"
        \/ difficulty gameState = "hard" ->
        validateGameState (gameStateObject gameState) = true).
Proof.
  assert (Hstate : forall gameState : GameState,
             validateGameState (gameStateObject gameState) = true
             <-> length (board gameState) = 9%nat
                 /\ (difficulty gameState = "easy" \/ difficulty gameState = "medium"
                     \/ difficulty gameState = "hard")).
  { intros gameState. unfold gameStateObject. rewrite validateGameState_object. split.
    - intros (cells & player & d & r & mv & Hb & Hlen & _ & _ & Hd & Hdiff & _).
      simpl in Hb, Hd. injection Hd as <-. injection Hb as Hb.
      split; [| done]. by rewrite <- (length_map cellValue), Hb, length_map.
    - intros [Hlen Hdiff].
      exists (board gameState), (currentPlayer gameState), (difficulty gameState),
        (result gameState), (JSNumber (inject_Z (moves gameState))).
      repeat split; done. }
  split; [| split; [done |]].
  - split.
    + destruct value as [| | | | | items | properties];
        try (unfold validateGameState; cbn [isFalsy typeofIsObject negb];
             rewrite ?orb_true_r; discriminate).
      intros (cells & player & d & r & mv & H)%validateGameState_object.
      by exists properties, cells, player, d, r, mv.
    + intros (properties & cells & player & d & r & mv & -> & H).
      apply validateGameState_object. by exists cells, player, d, r, mv.
  - intros gameState Hreach Hdiff. apply Hstate. split; [| done].
    by apply Reachable_wellformed in Hreach as [? _].
Qed.

Lemma validateGameState_accepts_witness :
  validateGameState
    (gameStateObject
       {| board := cornerOpening; currentPlayer := AI; moves := 1;
          difficulty := DIFFICULTIES_HARD; result := IN_PROGRESS;
          gsWinner := None; gsWinningLine := None; lastAIMove := None |}) = true.
Proof.
  destruct (validateGameState_accepts JSNull) as (_ & _ & Hreach).
  apply Hreach.
  - apply (reach_user (createInitialGameState DIFFICULTIES_HARD) 0).
    + apply reach_init.
    + reflexivity.
  - right. right. reflexivity.
Defined.


(** ** Board display *)

Lemma symbolChar_inj c d : symbolChar c = symbolChar d -> c = d.
Proof. by destruct c, d. Qed.

Lemma getBoardDisplay_nine c0 c1 c2 c3 c4 c5 c6 c7 c8 :
  getBoardDisplay [c0; c1; c2; c3; c4; c5; c6; c7; c8]
  = newline
    +:+ String " " (String (symbolChar c0) (" | " +:+ String (symbolChar c1)
          (" | " +:+ String (symbolChar c2) (" " +:+ newline))))
    +:+ "---|---|---" +:+ newline
    +:+ String " " (String (symbolChar c3) (" | " +:+ String (symbolChar c4)
          (" | " +:+ String (symbolChar c5) (" " +:+ newline))))
    +:+ "---|---|---" +:+ newline
    +:+ String " " (String (symbolChar c6) (" | " +:+ String (symbolChar c7)
          (" | " +:+ String (symbolChar c8) (" " +:+ newline)))).
Proof. reflexivity. Qed.

Ltac nine_cells board Hlen :=
  do 9 (destruct board as [| ? board]; [discriminate Hlen |]);
  destruct board; [clear Hlen | discriminate Hlen].

(** X15.  On a board of nine cells [getBoardDisplay] returns a newline
    followed by three rows, with the rule [---|---|---] after the first
    and the second; a row is a blank, the symbols of its three cells
    separated by [ | ], a blank and a newline, and the symbol of a cell
    is a blank when it is empty, X for the user and O for the AI.  The
    drawing has 61 characters and determines the board: two boards of
    nine cells with the same display are equal. *)
Theorem getBoardDisplay_faithful (board1 board2 : Board) :
  length board1 = 9%nat -> length board2 = 9%nat ->
  (exists c0 c1 c2 c3 c4 c5 c6 c7 c8,
      board1 = [c0; c1; c2; c3; c4; c5; c6; c7; c8]
      /\ let lineFeed := String (Ascii.ascii_of_nat 10) EmptyString in
         let symbol cell :=
           match cell with
           | CELL_EMPTY => " "
           | CELL_USER => "X"
           | CELL_AI => "O"
           end in
         let row a b c :=
           " " +:+ symbol a +:+ " | " +:+ symbol b +:+ " | " +:+ symbol c
           +:+ " " +:+ lineFeed in
         let rule := "---|---|---" +:+ lineFeed in
         getBoardDisplay board1
         = lineFeed +:+ row c0 c1 c2 +:+ rule +:+ row c3 c4 c5 +:+ rule +:+ row c6 c7 c8)
  /\ String.length (getBoardDisplay board1) = 61%nat
  /\ (getBoardDisplay board1 = getBoardDisplay board2 -> board1 = board2).
Proof.
  intros Hlen1 Hlen2.
  nine_cells board1 Hlen1. nine_cells board2 Hlen2.
  split.
  { eexists _, _, _, _, _, _, _, _, _. split; [reflexivity |].
    rewrite getBoardDisplay_nine. cbv beta zeta.
    assert (Hsymbol : forall cell,
               match cell with
               | CELL_EMPTY => " "
               | CELL_USER => "X"
               | CELL_AI => "O"
               end = String (symbolChar cell) EmptyString)
      by (intros []; reflexivity).
    rewrite !Hsymbol. reflexivity. }
  rewrite !getBoardDisplay_nine. split; [reflexivity |].
  intros H. vm_compute in H.
  injection H as H0 H1 H2 H3 H4 H5 H6 H7 H8.
  by rewrite (symbolChar_inj _ _ H0), (symbolChar_inj _ _ H1), (symbolChar_inj _ _ H2),
    (symbolChar_inj _ _ H3), (symbolChar_inj _ _ H4), (symbolChar_inj _ _ H5),
    (symbolChar_inj _ _ H6), (symbolChar_inj _ _ H7), (symbolChar_inj _ _ H8).
Qed.

Lemma getBoardDisplay_faithful_witness :
  let lineFeed := String (Ascii.ascii_of_nat 10) EmptyString in
  getBoardDisplay [CELL_USER; CELL_EMPTY; CELL_AI;
                   CELL_EMPTY; CELL_USER; CELL_EMPTY;
                   CELL_AI; CELL_EMPTY; CELL_USER]
  = lineFeed +:+ " X |   | O " +:+ lineFeed +:+ "---|---|---" +:+ lineFeed
    +:+ "   | X |   " +:+ lineFeed +:+ "---|---|---" +:+ lineFeed
    +:+ " O |   | X " +:+ lineFeed.
Proof.
  intros lineFeed.
  destruct (getBoardDisplay_faithful
              [CELL_USER; CELL_EMPTY; CELL_AI;
               CELL_EMPTY; CELL_USER; CELL_EMPTY;
               CELL_AI; CELL_EMPTY; CELL_USER]
              cornerOpening eq_refl eq_refl) as [Hlayout _].
  destruct Hlayout as (c0 & c1 & c2 & c3 & c4 & c5 & c6 & c7 & c8 & Hcells & Hdisplay).
  injection Hcells as <- <- <- <- <- <- <- <- <-.
  exact Hdisplay.
Defined.

(** ** Validation of a move request *)

Lemma isInteger_spec q :
  isInteger (JSNumber q) = true <-> exists n, (q == inject_Z n)%Q.
Proof.
  simpl. rewrite Z.eqb_eq. unfold Qeq. simpl. split.
  - intros Hmod. exists (Qnum q / Z.pos (Qden q)).
    pose proof (Z.div_mod (Qnum q) (Z.pos (Qden q))). lia.
  - intros [n Hn]. rewrite Z.mul_1_r in Hn. rewrite Hn. apply Z.mod_mul. lia.
Qed.

Lemma number_in_range q n :
  (q == inject_Z n)%Q ->
  (Qltb q 0 = false /\ Qltb 8 q = false) <-> 0 <= n <= 8.
Proof.
  unfold Qeq, Qltb, Qle_bool. simpl. intros Hn. rewrite Z.mul_1_r in Hn.
  rewrite !negb_false_iff, !Z.leb_le. nia.
Qed.

(** X16.  [validateGameMove] lets a request through exactly when its
    body has a [position] that is a number equal to an integer between 0
    and 8; it answers 'Position is required' exactly when the position
    is missing or [null], and 'Position must be an integer between 0 and
    8' exactly for every other value, both with status 400.  For a
    position it lets through, [isValidMove] depends on the cell alone,
    and [processUserMove] on a state in progress on the user's turn
    returns a state whenever the cell is empty. *)
Theorem validateGameMove_accepts (body : JSValue) :
  body <> JSUndefined -> body <> JSNull ->
  let accepted :=
    exists q n,
      getField body "position" = JSNumber q /\ (q == inject_Z n)%Q /\ 0 <= n <= 8 in
  let missing :=
    getField body "position" = JSUndefined \/ getField body "position" = JSNull in
  (validateGameMove body = Returns NextOk <-> accepted)
  /\ (validateGameMove body = Returns (NextError "Position is required" 400) <-> missing)
  /\ (validateGameMove body
      = Returns (NextError "Position must be an integer between 0 and 8" 400)
      <-> ~ missing /\ ~ accepted)
  /\ (validateGameMove body = Returns NextOk
      \/ validateGameMove body = Returns (NextError "Position is required" 400)
      \/ validateGameMove body
         = Returns (NextError "Position must be an integer between 0 and 8" 400))
  /\ (forall q n (gameState : GameState),
        validateGameMove body = Returns NextOk ->
        getField body "position" = JSNumber q -> (q == inject_Z n)%Q ->
        (isValidMove (board gameState) n = true
         <-> board gameState !! Z.to_nat n = Some CELL_EMPTY)
        /\ (result gameState = IN_PROGRESS -> currentPlayer gameState = USER ->
            board gameState !! Z.to_nat n = Some CELL_EMPTY ->
            exists gameState', processUserMove gameState n = Returns gameState')).
Proof.
  intros Hundef Hnull accepted missing.
  assert (Hcall : validateGameMove body
                  = match getField body "position" with
                    | JSUndefined | JSNull =>
                        Returns (NextError "Position is required" 400)
                    | position =>
                        if negb (isInteger position) || numberBelow position 0
                           || numberAbove position 8
                        then Returns (NextError
                                        "Position must be an integer between 0 and 8" 400)
                        else Returns NextOk
                    end).
  { by destruct body. }
  assert (Hok : validateGameMove body = Returns NextOk <-> accepted).
  { subst accepted. rewrite Hcall. split.
    - destruct (getField body "position") as [| | b | q | s | items | props];
        cbn [isInteger numberBelow numberAbove negb orb]; try done.
      change (Qnum q mod Z.pos (Qden q) =? 0) with (isInteger (JSNumber q)).
      destruct (isInteger (JSNumber q)) eqn:Hint; cbn [negb orb]; [| done].
      destruct (Qltb q 0) eqn:Hlo; cbn [negb orb]; [done |].
      destruct (Qltb 8 q) eqn:Hhi; cbn [negb orb]; [done |]. intros _.
      apply isInteger_spec in Hint as [n Hn].
      exists q, n. split; [done |]. split; [done |].
      by apply (number_in_range q n Hn).
    - intros (q & n & -> & Hn & Hrange). cbv beta iota zeta.
      rewrite (proj2 (isInteger_spec q)) by eauto.
      apply (number_in_range q n Hn) in Hrange as [Hlo Hhi].
      simpl. by rewrite Hlo, Hhi. }
  assert (Hcases : validateGameMove body = Returns NextOk
                   \/ validateGameMove body = Returns (NextError "Position is required" 400)
                   \/ validateGameMove body
                      = Returns (NextError
                                   "Position must be an integer between 0 and 8" 400)).
  { rewrite Hcall.
    destruct (getField body "position"); cbv zeta; auto;
      match goal with |- context [if ?c then _ else _] => destruct c end; auto. }
  assert (Hmissing : validateGameMove body = Returns (NextError "Position is required" 400)
                     <-> missing).
  { subst missing. rewrite Hcall. split.
    - destruct (getField body "position"); cbv zeta; auto;
        match goal with |- context [if ?c then _ else _] => destruct c end; discriminate.
    - by intros [-> | ->]. }
  split; [done |]. split; [done |]. split; [| split; [done |]].
  - split.
    + intros Hcall'. split.
      * intros H%Hmissing. rewrite H in Hcall'. discriminate.
      * intros H%Hok. rewrite H in Hcall'. discriminate.
    + intros [Hnm Hna]. destruct Hcases as [H | [H | H]]; [| | done].
      * by apply Hok in H.
      * by apply Hmissing in H.
  - intros q n gameState Haccept Hpos Hn.
    apply Hok in Haccept as (q' & n' & Hpos' & Hn' & Hrange).
    rewrite Hpos in Hpos'. injection Hpos' as <-.
    assert (n' = n) as ->.
    { rewrite Hn in Hn'. unfold Qeq in Hn'. simpl in Hn'. lia. }
    assert (Hvalid : isValidMove (board gameState) n = true
                     <-> board gameState !! Z.to_nat n = Some CELL_EMPTY).
    { rewrite isValidMove_spec. tauto. }
    split; [done |].
    intros Hres Hturn Hcell. eexists.
    apply processUserMove_returns; try done. by apply Hvalid.
Qed.

Lemma validateGameMove_accepts_witness :
  validateGameMove (JSObject [("position", JSNumber (8 # 2))]) = Returns NextOk
  /\ validateGameMove (JSObject [("position", JSNumber 9)])
     = Returns (NextError "Position must be an integer between 0 and 8" 400).
Proof.
  split.
  - destruct (validateGameMove_accepts (JSObject [("position", JSNumber (8 # 2))]))
      as (Hok & _); [discriminate | discriminate |].
    apply Hok. exists (8 # 2)%Q, 4. split; [reflexivity |]. split; [reflexivity | lia].
  - destruct (validateGameMove_accepts (JSObject [("position", JSNumber 9)]))
      as (_ & _ & Hrange & _); [discriminate | discriminate |].
    apply Hrange. split.
    + intros [H | H]; discriminate H.
    + intros (q & n & Hq & Hn & Hle). injection Hq as <-.
      unfold Qeq in Hn. simpl in Hn. lia.
Defined.

(** ** The medium tier, and the search tiers on a decided board *)

(** X17.  The medium tier on a board of at most nine cells without a
    winner and with an empty cell.  When the first random draw is below
    0.15 it returns the available move whose index is the floor of the
    double product [r * n], [r] being the second draw and [n] the number
    of available moves; for a double [r] in [0, 1) that index is below
    [n], so the move is an empty cell.  Otherwise it returns the lowest-index candidate among those whose
    exact value in a search of three plies, with the user's mark placed
    and the scores folded by minimum at the top ply, is the least. *)
Theorem getMediumAIMove_behaviour random (board : Board) :
  (length board <= 9)%nat ->
  checkWinner board = None ->
  (exists i, board !! i = Some CELL_EMPTY) ->
  let availableMoves := getAvailableMoves board in
  let choice := availableMoves !! randomIndex (random 1%nat) (length availableMoves) in
  ((random 0%nat < double_0_15)%Q -> getMediumAIMove random board = Returns choice)
  /\ (isDouble (random 1%nat) = true -> (0 <= random 1%nat)%Q -> (random 1%nat < 1)%Q ->
      (randomIndex (random 1%nat) (length availableMoves) < length availableMoves)%nat
      /\ exists p, choice = Some p /\ board !! p = Some CELL_EMPTY)
  /\ (~ (random 0%nat < double_0_15)%Q ->
      exists p best,
        getMediumAIMove random board = Returns (Some p)
        /\ (p, best) ∈ candidateScores board 3 false
        /\ (forall m s, (m, s) ∈ candidateScores board 3 false -> num_leb best s = true)
        /\ (forall m, (m, best) ∈ candidateScores board 3 false -> (p <= m)%nat)).
Proof.
  intros Hlen Hw [i Hi] availableMoves choice.
  pose proof (getAvailableMoves_nonempty _ _ Hi) as Hne.
  unfold getMediumAIMove. rewrite bool_decide_eq_false_2 by done.
  split; [| split].
  - intros Hdraw%Qltb_lt. by rewrite Hdraw.
  - intros Hd Hlo Hhi.
    assert (Hindex : (randomIndex (random 1%nat) (length availableMoves)
                      < length availableMoves)%nat).
    { apply randomIndex_lt; [done | done | done |]. subst availableMoves. lia. }
    split; [done |].
    destruct (lookup_lt_is_Some_2 availableMoves _ Hindex) as [p Hp].
    exists p. split; [done |]. apply elem_of_getAvailableMoves.
    apply list_elem_of_lookup. eauto.
  - intros Hdraw.
    destruct (Qltb (random 0%nat) double_0_15) eqn:Hlt; [by apply Qltb_lt in Hlt |].
    destruct (minimax_top_choice board 2 false Hlen (terminalScore_in_progress _ 2 _ Hw Hi))
      as (p & best & Hr & Hin & Hbest & Hfirst).
    exists p, best. rewrite Hr. split; [done |]. split; [done |]. split; [| done].
    intros m s Hm. pose proof (Hbest m s Hm) as Hb.
    unfold better in Hb. unfold num_leb. by rewrite Hb.
Qed.

Lemma getMediumAIMove_behaviour_witness :
  let board := [CELL_USER; CELL_AI; CELL_USER;
                CELL_EMPTY; CELL_EMPTY; CELL_EMPTY;
                CELL_EMPTY; CELL_EMPTY; CELL_EMPTY] in
  let random : RandomSource :=
    fun n => match n with
             | O => (1 # 8)%Q
             | _ => (3752999689475413 # 4503599627370496)%Q
             end in
  getMediumAIMove random board = Returns (Some 8%nat).
Proof.
  intros board random.
  destruct (getMediumAIMove_behaviour random board) as [Hrandom _].
  - simpl. lia.
  - reflexivity.
  - exists 3%nat. reflexivity.
  - rewrite Hrandom; [vm_compute; reflexivity |].
    unfold Qlt. simpl. lia.
Defined.

(** X18.  On a board that already holds a completed line and still has
    an empty cell, the search returns a score without a position, so
    [getHardAIMove] returns [undefined], and so does [getMediumAIMove]
    unless its first draw is below 0.15; [processAIMove] on a state with
    such a board (in progress, the AI's turn, difficulty hard) therefore
    throws the invalid-move error for position [undefined]. *)
Theorem search_tiers_on_won_board random (gameState : GameState) (w : WinnerInfo) :
  checkWinner (board gameState) = Some w ->
  (exists i, board gameState !! i = Some CELL_EMPTY) ->
  getHardAIMove (board gameState) = Returns None
  /\ (~ (random 0%nat < double_0_15)%Q ->
      getMediumAIMove random (board gameState) = Returns None)
  /\ (result gameState = IN_PROGRESS -> currentPlayer gameState = AI ->
      difficulty gameState = DIFFICULTIES_HARD ->
      processAIMove random gameState = Throws (InvalidMoveError None)).
Proof.
  intros Hw [i Hi].
  pose proof (getAvailableMoves_nonempty _ _ Hi) as Hne.
  assert (Hsearch : forall depth,
             exists z, minimax (board gameState) depth false NegInfinity PosInfinity
                       = Returns {| position := None; score := Fin z |}).
  { intros depth. destruct w as [[] line]; eexists; apply minimax_terminal;
      unfold terminalScore; by rewrite Hw. }
  assert (Hhard : getHardAIMove (board gameState) = Returns None).
  { unfold getHardAIMove. rewrite bool_decide_eq_false_2 by done.
    destruct (Hsearch 9%nat) as [z ->]. done. }
  split; [done |]. split.
  - intros Hdraw. unfold getMediumAIMove. rewrite bool_decide_eq_false_2 by done.
    destruct (Qltb (random 0%nat) double_0_15) eqn:Hlt; [by apply Qltb_lt in Hlt |].
    destruct (Hsearch 3%nat) as [z ->]. done.
  - intros Hres Hturn Hdiff. unfold processAIMove. rewrite Hres, Hturn, Hdiff. simpl.
    change (getAIMove random (board gameState) DIFFICULTIES_HARD)
      with (getHardAIMove (board gameState)).
    by rewrite Hhard.
Qed.

Lemma search_tiers_on_won_board_witness :
  getHardAIMove [CELL_USER; CELL_USER; CELL_USER;
                 CELL_AI; CELL_AI; CELL_EMPTY;
                 CELL_EMPTY; CELL_EMPTY; CELL_EMPTY] = Returns None.
Proof.
  destruct (search_tiers_on_won_board (fun _ => 0%Q)
              {| board := [CELL_USER; CELL_USER; CELL_USER;
                           CELL_AI; CELL_AI; CELL_EMPTY;
                           CELL_EMPTY; CELL_EMPTY; CELL_EMPTY];
                 currentPlayer := AI; moves := 5; difficulty := DIFFICULTIES_HARD;
                 result := IN_PROGRESS; gsWinner := None; gsWinningLine := None;
                 lastAIMove := None |}
              {| winner := USER; winningLine := (0, 1, 2)%nat |}) as [Hhard _].
  - reflexivity.
  - exists 5%nat. reflexivity.
  - exact Hhard.
Defined.
